(** * kb_functional_enrichment_1: GO term enrichment

    A shallow embedding of [FunctionalEnrichmentUtil.py]
    ([_get_go_maps_from_genome], the computational core of [run_fe1],
    [_validate_run_fe1_params] and the rows and table of
    [_generate_output_file_list] and [_generate_html_report]), together
    with the properties of its annotation index, contingency tables, exact
    test, multiple-testing correction and report.

    Conventions of the embedding:
    - Python dictionaries are [gmap]s; iterating a dictionary
      ([iteritems]) is [map_to_list].  Python 2 does not specify the
      iteration order, and nothing proved below depends on it.
    - Python lists are [list]s; integers are [Z].
    - A value that may be [None] is an [option].
    - p-values are exact rationals in canonical form ([Qc]), so that
      Python's [==] on them is Leibniz equality.  Rounding of doubles is
      not modelled.
    - A call either returns a value or raises: [outcome].
    - [fisher.pvalue] (package [fisher]) and [stats.p_adjust] (R, through
      [rpy2]) are library functions called by the code; they are modelled
      after their documented behaviour in [Fisher] and [Stats]. *)

From Stdlib Require Import Ascii QArith Qcanon.
From Stdlib Require OrderedTypeEx.
From stdpp Require Import sorting numbers strings gmap fin_maps list.


(** ** Exceptions and outcomes *)

(** The exceptions the modelled code can raise, and [ValidationError], the
    error the specification names. *)
Inductive exn : Set :=
  | ValidationError
  | TypeError
  | ValueError
  | IndexError.

Inductive outcome (A : Type) : Type :=
  | Raised (e : exn)
  | Returned (a : A).
Arguments Raised {A} e.
Arguments Returned {A} a.

Global Instance outcome_ret : MRet outcome := λ A a, Returned a.
Global Instance outcome_bind : MBind outcome := λ A B k o,
  match o with
  | Raised e => Raised e
  | Returned a => k a
  end.

(** [for x in l: st = body st x], where the body may raise. *)
Fixpoint for_each {S X} (body : S → X → outcome S) (st : S) (l : list X)
  : outcome S :=
  match l with
  | [] => Returned st
  | x :: l' => st' ← body st x; for_each body st' l'
  end.

(** ** Raw genome features *)

Module Genome.

(** One element of [genome_features]: a Python dict read with [.get], so
    every field may be [None]. *)
Record genome_feature := {
  feature_id : option string;
  function : option string;
  feature_type : option string;
  ontology_terms : option (gmap string string)
}.

Record feature_info := {
  info_function : option string;
  info_feature_type : option string
}.

(** The four dictionaries returned by [_get_go_maps_from_genome]. *)
Record go_maps := {
  feature_id_go_id_list_map : gmap (option string) (list string);
  go_id_feature_id_list_map : gmap string (list (option string));
  go_id_go_term_map : gmap string string;
  feature_id_feature_info_map : gmap (option string) feature_info
}.

Definition empty_maps : go_maps :=
  {| feature_id_go_id_list_map := ∅;
     go_id_feature_id_list_map := ∅;
     go_id_go_term_map := ∅;
     feature_id_feature_info_map := ∅ |}.

(** [re.match('[gG][oO]\:.*', ontology_id)]: the match is anchored at the
    start only, and [.*] also matches the empty string. *)
Definition re_match_go (ontology_id : string) : bool :=
  match ontology_id with
  | String c1 (String c2 (String c3 _)) =>
      (Ascii.eqb c1 "g" || Ascii.eqb c1 "G")
      && (Ascii.eqb c2 "o" || Ascii.eqb c2 "O")
      && Ascii.eqb c3 ":"
  | _ => false
  end.

(** Lines 165-170: the inner loop over [ontology_terms.iteritems()]. *)
Definition collect_go
    (acc : gmap string string * list string) (item : string * string)
  : gmap string string * list string :=
  let '(ontology_id, ontology_term) := item in
  if re_match_go ontology_id
  then (<[ontology_id := ontology_term]> acc.1, acc.2 ++ [ontology_id])
  else acc.

(** Lines 175-181: the loop over [go_id_list]. *)
Definition add_feature (fid : option string)
    (m : gmap string (list (option string))) (go_id : string)
  : gmap string (list (option string)) :=
  match m !! go_id with
  | Some feature_ids => <[go_id := feature_ids ++ [fid]]> m
  | None => <[go_id := [fid]]> m
  end.

(** Lines 157-181: the body of the loop over [genome_features]. *)
Definition index_feature (st : go_maps) (gf : genome_feature) : go_maps :=
  let fid := feature_id gf in
  let info := <[fid := {| info_function := function gf;
                          info_feature_type := feature_type gf |}]>
                (feature_id_feature_info_map st) in
  let '(terms, go_id_list) :=
    match ontology_terms gf with
    | Some ot => foldl collect_go (go_id_go_term_map st, []) (map_to_list ot)
    | None => (go_id_go_term_map st, [])
    end in
  match go_id_list with
  | [] =>
      {| feature_id_go_id_list_map := feature_id_go_id_list_map st;
         go_id_feature_id_list_map := go_id_feature_id_list_map st;
         go_id_go_term_map := terms;
         feature_id_feature_info_map := info |}
  | _ :: _ =>
      {| feature_id_go_id_list_map :=
           <[fid := go_id_list]> (feature_id_go_id_list_map st);
         go_id_feature_id_list_map :=
           foldl (add_feature fid) (go_id_feature_id_list_map st) go_id_list;
         go_id_go_term_map := terms;
         feature_id_feature_info_map := info |}
  end.

Definition _get_go_maps_from_genome (genome_features : list genome_feature)
  : go_maps :=
  foldl index_feature empty_maps genome_features.

(** The function has no [raise] and every operation in it is total
    ([dict.get], [dict.update], [list.append], [re.match] on a string):
    a call always returns. *)
Definition call_get_go_maps_from_genome
    (genome_features : list genome_feature) : outcome go_maps :=
  Returned (_get_go_maps_from_genome genome_features).

(** The relation a feature→terms map denotes. *)
Definition feature_has_term (m : go_maps) (f : option string) (t : string)
  : Prop :=
  ∃ l, feature_id_go_id_list_map m !! f = Some l ∧ t ∈ l.

(** The relation a term→features map denotes. *)
Definition term_has_feature (m : go_maps) (t : string) (f : option string)
  : Prop :=
  ∃ l, go_id_feature_id_list_map m !! t = Some l ∧ f ∈ l.

End Genome.

(** ** Contingency tables and the exact test *)

Module Fisher.

(** Binomial coefficient [C(n, k)]. *)
Fixpoint choose (n k : nat) : Z :=
  match n, k with
  | _, O => 1
  | O, S _ => 0
  | S n', S k' => choose n' k' + choose n' k
  end.

(** Probability that a draw of [n] features out of [N], of which [K] carry
    the term, contains exactly [i] annotated ones. *)
Definition hypergeometric_probability (i n K N : nat) : Qc :=
  (Qc_of_Z (choose K i * choose (N - K) (n - i)) / Qc_of_Z (choose N n))%Qc.

Definition Qc_sum (l : list Qc) : Qc := foldr Qcplus 0%Qc l.

(** The counts [i] possible under the marginals: [max(0, n+K-N) .. min(n, K)]. *)
Definition support (n K N : nat) : list nat :=
  seq (n + K - N) (S (Nat.min n K) - (n + K - N)).

(** The result of [fisher.pvalue]; the code reads [left_tail] only. *)
Record PValues := {
  left_tail : Qc;
  right_tail : Qc
}.

(** [fisher.pvalue(a, b, c, d)] of the [fisher] package, for a table of
    non-negative counts.  With [k = a], [n = a + b], [K = a + c] and
    [N = a + b + c + d] the package sums the hypergeometric probabilities
    of the counts [i] of the support: [left_tail] over [i <= k],
    [right_tail] over [i >= k] (its documentation gives, for the table
    (12, 5, 29, 2), left 0.0446 and right 0.9945).  The two-tailed value is
    not read by the code and is left out. *)
Definition pvalue (a b c d : Z) : PValues :=
  let k := Z.to_nat a in
  let n := Z.to_nat (a + b) in
  let K := Z.to_nat (a + c) in
  let N := Z.to_nat (a + b + c + d) in
  let p i := hypergeometric_probability i n K N in
  {| left_tail := Qc_sum (p <$> filter (λ i, i ≤ k) (support n K N));
     right_tail := Qc_sum (p <$> filter (λ i, k ≤ i) (support n K N)) |}.

(** A table with non-negative entries. *)
Definition valid_table (a b c d : Z) : Prop :=
  (0 ≤ a ∧ 0 ≤ b ∧ 0 ≤ c ∧ 0 ≤ d)%Z.

End Fisher.

(** ** R's [stats::p.adjust(p, method = "fdr")] *)

Module Stats.

Definition Qc_min (x y : Qc) : Qc := if decide (x ≤ y)%Qc then x else y.

(** [x[idx]] with 0-based indices. *)
Definition subscript (x : list Qc) (idx : list nat) : list Qc :=
  (λ k, default 0%Qc (x !! k)) <$> idx.

(** Comparison of two indices by the values they point to. *)
Definition by_value {X} (R : relation X) (dflt : X) (x : list X)
  : relation nat :=
  λ i j, R (default dflt (x !! i)) (default dflt (x !! j)).

Global Instance by_value_dec {X} (R : relation X) `{!RelDecision R}
    (dflt : X) (x : list X) : RelDecision (by_value R dflt x) :=
  λ i j, decide_rel R (default dflt (x !! i)) (default dflt (x !! j)).

(** [order(x)]: the indices of [x] sorted by the value they point to,
    according to [R] ([decreasing = TRUE] is the flipped order).  R keeps
    equal values in their original order; the order among equal values is
    left to the sort here, and no property below depends on it. *)
Definition order {X} (R : relation X) `{!RelDecision R} (dflt : X)
    (x : list X) : list nat :=
  merge_sort (by_value R dflt x) (seq 0 (length x)).

(** [cummin(l)]: the running minimum. *)
Fixpoint cummin_from (m : Qc) (l : list Qc) : list Qc :=
  match l with
  | [] => []
  | x :: l' => Qc_min m x :: cummin_from (Qc_min m x) l'
  end.

Definition cummin (l : list Qc) : list Qc :=
  match l with
  | [] => []
  | x :: l' => x :: cummin_from x l'
  end.

(** [pmin(bound, l)]: the element-wise minimum with a scalar. *)
Definition pmin (bound : Qc) (l : list Qc) : list Qc := Qc_min bound <$> l.

Definition Qc_of_nat (n : nat) : Qc := Qc_of_Z (Z.of_nat n).

(** The "BH" branch ("fdr" is its alias), for a vector without [NA]:
<<
    if (n <= 1) return(p0)
    i <- lp:1L
    o <- order(p, decreasing = TRUE)
    ro <- order(o)
    pmin(1, cummin(n/i * p[o]))[ro]
>> *)
Definition p_adjust (p : list Qc) : list Qc :=
  let n := length p in
  if decide (n ≤ 1) then p
  else
    let i := reverse (seq 1 n) in
    let o := order (flip Qcle) 0%Qc p in
    let ro := order le 0 o in
    subscript
      (pmin 1%Qc
         (cummin (zip_with (λ i x, Qc_of_nat n / Qc_of_nat i * x)%Qc
                           i (subscript p o))))
      ro.

End Stats.

(** ** The core of [run_fe1] *)

Module Enrichment.
Import Genome.

Definition _get_feature_set_ids : list string :=
  ["AT1G01010"; "AT1G01030"; "AT1G01020"; "AT1G01050"; "AT1G01060"]%string.

Record table := { a : Z; b : Z; c : Z; d : Z }.

(** Lines 233-241. *)
Definition contingency (mapped_features : list (option string))
    (feature_set_ids : list string) (feature_ids : list (option string))
  : table :=
  let a := Z.of_nat (size ((list_to_set mapped_features : gset (option string))
                           ∩ list_to_set (Some <$> feature_set_ids))) in
  let b := (Z.of_nat (length feature_set_ids) - a)%Z in
  let c := (Z.of_nat (length mapped_features) - a)%Z in
  let d := (Z.of_nat (length feature_ids)
            - Z.of_nat (length feature_set_ids) - c)%Z in
  {| a := a; b := b; c := c; d := d |}.

Definition raw_p_value_of (t : table) : Qc :=
  Fisher.left_tail (Fisher.pvalue (a t) (b t) (c t) (d t)).

(** Lines 232-245: the body of the first loop.  [set(None)] raises
    [TypeError] when [go_id] has no feature list. *)
Definition raw_step (m : go_maps) (feature_set_ids : list string)
    (feature_ids : list (option string))
    (st : gmap string Qc * list Qc) (item : string * string)
  : outcome (gmap string Qc * list Qc) :=
  let '(go_id, _) := item in
  match go_id_feature_id_list_map m !! go_id with
  | None => Raised TypeError
  | Some mapped_features =>
      let raw_p_value :=
        raw_p_value_of (contingency mapped_features feature_set_ids feature_ids) in
      Returned (<[go_id := raw_p_value]> st.1, st.2 ++ [raw_p_value])
  end.

Record enrichment := {
  raw_p_value : Qc;
  adjusted_p_value : Qc;
  go_term : option string
}.

(** [l.index(x)]: position of the first element equal to [x]. *)
Definition index (x : Qc) (l : list Qc) : outcome nat :=
  match list_find (λ y, y = x) l with
  | Some (pos, _) => Returned pos
  | None => Raised ValueError
  end.

Definition getitem (l : list Qc) (pos : nat) : outcome Qc :=
  match l !! pos with
  | Some v => Returned v
  | None => Raised IndexError
  end.

(** Lines 250-255: the body of the second loop. *)
Definition adjust_step (go_id_go_term_map : gmap string string)
    (all_raw_p_value adjusted_p_values : list Qc)
    (enrichment_map : gmap string enrichment) (item : string * Qc)
  : outcome (gmap string enrichment) :=
  let '(go_id, raw_p_value) := item in
  pos ← index raw_p_value all_raw_p_value;
  adjusted_p_value ← getitem adjusted_p_values pos;
  Returned (<[go_id := {| raw_p_value := raw_p_value;
                          adjusted_p_value := adjusted_p_value;
                          go_term := go_id_go_term_map !! go_id |}]>
              enrichment_map).

(** Lines 247-255: the correction of the whole batch and the pairing of
    every term with its adjusted value. *)
Definition adjust_all (go_id_go_term_map : gmap string string)
    (go_raw_p_value : gmap string Qc) (all_raw_p_value : list Qc)
  : outcome (gmap string enrichment) :=
  let adjusted_p_values := Stats.p_adjust all_raw_p_value in
  for_each (adjust_step go_id_go_term_map all_raw_p_value adjusted_p_values)
           ∅ (map_to_list go_raw_p_value).

(** Lines 223-255 of [run_fe1]: from the features the genome search
    returned to [enrichment_map]. *)
Definition run_fe1 (genome_features : list genome_feature)
  : outcome (gmap string enrichment) :=
  let m := _get_go_maps_from_genome genome_features in
  let feature_set_ids := _get_feature_set_ids in
  let feature_ids := (map_to_list (feature_id_feature_info_map m)).*1 in
  '(go_raw_p_value, all_raw_p_value) ←
    for_each (raw_step m feature_set_ids feature_ids) (∅, [])
             (map_to_list (go_id_go_term_map m));
  adjust_all (go_id_go_term_map m) go_raw_p_value all_raw_p_value.

End Enrichment.

(** ** Validation of the parameters *)

Module Params.

(** ['"{}" parameter is required, but missing'.format(p)] *)
Definition missing_message (p : string) : string :=
  (String "034" p +:+ String "034" " parameter is required, but missing")%string.

(** Lines 49-51: [for p in names: if p not in params: raise ValueError(...)].
    The result is the exception raised, with its message, or [None]. *)
Fixpoint require_all {V} (params : gmap string V) (names : list string)
  : (exn * string) + unit :=
  match names with
  | [] => inr ()
  | p :: names' =>
      match params !! p with
      | None => inl (ValueError, missing_message p)
      | Some _ => require_all params names'
      end
  end.

Definition _validate_run_fe1_params {V} (params : gmap string V)
  : (exn * string) + unit :=
  require_all params ["genome_ref"; "workspace_name"]%string.

End Params.

(** ** The result file and the HTML table *)

Module Report.
Import Enrichment.

(** [csv.reader(...).next()] on a file without a line raises
    [StopIteration], which is not one of [exn]. *)
Inductive report_exn : Set :=
  | StopIteration
  | Exn (e : exn).

(** [sorted(..., reverse=True)] on decorated elements: the sort is stable,
    also in reverse, so an element goes in front of the later elements
    whose key is not larger.  Python 2 compares [str] byte by byte, as
    [String.ltb] does. *)
Fixpoint insert_by_key {X} (kx : string * X) (l : list (string * X))
  : list (string * X) :=
  match l with
  | [] => [kx]
  | ky :: l' =>
      if String.ltb kx.1 ky.1 then ky :: insert_by_key kx l' else kx :: l
  end.

Definition sort_by_key_reverse {X} (keyed : list (string * X)) : list X :=
  (foldr insert_by_key [] keyed).*2.

(** [operator.itemgetter(n)] applied to a row. *)
Definition itemgetter (n : nat) (row : list string) : outcome string :=
  match row !! n with
  | Some v => Returned v
  | None => Raised IndexError
  end.

(** [sorted(data, key=operator.itemgetter(3), reverse=True)]: the keys of
    all the rows are computed before anything is compared. *)
Definition sortedlist (data : list (list string))
  : outcome (list (list string)) :=
  keyed ← mapM (λ row, key ← itemgetter 3 row; Returned (key, row)) data;
  Returned (sort_by_key_reverse keyed).

(** [str.format] of the template
    ['<tr><td>{}</td><td>{}</td><td>{}</td><td>{}</td></tr>'] on the
    unpacked row: four fields are read, further ones are ignored. *)
Definition format_row (row : list string) : outcome string :=
  match row with
  | c0 :: c1 :: c2 :: c3 :: _ =>
      Returned ("<tr><td>" +:+ c0 +:+ "</td><td>" +:+ c1 +:+ "</td><td>"
                +:+ c2 +:+ "</td><td>" +:+ c3 +:+ "</td></tr>")%string
  | _ => Raised IndexError
  end.

(** Lines 116-122 after [data.next()]: the text put in place of
    [<tr>Enrichment_Table</tr>]. *)
Definition enrichment_table (data : list (list string)) : outcome string :=
  sorted ← sortedlist data;
  for_each (λ table row, cells ← format_row row;
                         Returned (table +:+ cells)%string)
           EmptyString (take 20 sorted).

Section files.
(** The text [csv.writer] writes for a float, its [repr].  The rounding of
    doubles is not modelled, so the text is left open. *)
Context (repr : Qc → string).

Definition header : list string :=
  ["go_id"; "go_term"; "raw_p_value"; "adjusted_p_value"]%string.

(** Lines 94-95: the row of a term; [csv.writer] writes [None] as the empty
    string. *)
Definition csv_row (item : string * enrichment) : list string :=
  let '(key, value) := item in
  [key; default EmptyString (go_term value);
   repr (raw_p_value value); repr (adjusted_p_value value)].

(** Lines 92-95 of [_generate_output_file_list]: the rows of
    [functional_enrichment.csv], as [csv.reader] gives them back.
    Identifiers and labels are byte strings; Python 2's [csv] refuses
    text that is not ASCII, which is not modelled. *)
Definition _generate_output_file_list (enrichment_map : gmap string enrichment)
  : list (list string) :=
  header :: (csv_row <$> map_to_list enrichment_map).

End files.

(** Lines 116-122 of [_generate_html_report], on the rows of the file. *)
Definition _generate_html_report (csv_file : list (list string))
  : report_exn + string :=
  match csv_file with
  | [] => inl StopIteration
  | _ :: data =>
      match enrichment_table data with
      | Raised e => inl (Exn e)
      | Returned table => inr table
      end
  end.

End Report.

(** * Specification-side definitions and proof devices *)

Module GenomeSpec.
Import Genome.

(** The GO identifiers of one raw record, in the order the inner loop
    appends them to [go_id_list]. *)
Definition go_ids_of (gf : genome_feature) : list string :=
  match ontology_terms gf with
  | Some ot => filter (λ k, re_match_go k = true) (map_to_list ot).*1
  | None => []
  end.

(** Invariant of the loop over [genome_features], for records whose feature
    identifiers all lie in [seen]. *)
Record index_inv (seen : gset (option string)) (st : go_maps) : Prop := {
  inv_inverse : ∀ f t, feature_has_term st f t ↔ term_has_feature st t f;
  inv_labels :
    dom (go_id_go_term_map st) = dom (go_id_feature_id_list_map st);
  inv_nonempty : ∀ t l, go_id_feature_id_list_map st !! t = Some l → l ≠ [];
  inv_seen : dom (feature_id_go_id_list_map st) ⊆ seen
}.

(** Every identifier kept anywhere in the index passed [re_match_go]. *)
Record go_only (st : go_maps) : Prop := {
  go_only_labels : ∀ t, t ∈ dom (go_id_go_term_map st) → re_match_go t = true;
  go_only_terms :
    ∀ t, t ∈ dom (go_id_feature_id_list_map st) → re_match_go t = true;
  go_only_features : ∀ f t, feature_has_term st f t → re_match_go t = true
}.

Definition is_digit (c : ascii) : bool :=
  (48 <=? nat_of_ascii c) && (nat_of_ascii c <=? 57).

Fixpoint all_digits (s : string) : bool :=
  match s with
  | EmptyString => true
  | String c s' => is_digit c && all_digits s'
  end.

(** The pattern of the specification: "GO:" with a case-insensitive prefix,
    followed by one or more digits and nothing else. *)
Definition matches_go_digits (s : string) : bool :=
  match s with
  | String c1 (String c2 (String c3 (String c4 rest))) =>
      (Ascii.eqb c1 "g" || Ascii.eqb c1 "G")
      && (Ascii.eqb c2 "o" || Ascii.eqb c2 "O")
      && Ascii.eqb c3 ":"
      && is_digit c4 && all_digits rest
  | _ => false
  end.

(** A term identifier is retained when it occurs anywhere in the index. *)
Definition retained (m : go_maps) (t : string) : Prop :=
  t ∈ dom (go_id_go_term_map m)
  ∨ t ∈ dom (go_id_feature_id_list_map m)
  ∨ ∃ f, feature_has_term m f t.

(** The index as the specification describes it. *)
Definition index_consistent (m : go_maps) : Prop :=
  (∀ f t, feature_has_term m f t ↔ term_has_feature m t f)
  ∧ dom (go_id_go_term_map m) = dom (go_id_feature_id_list_map m)
  ∧ ∀ t l, go_id_feature_id_list_map m !! t = Some l → l ≠ [].

(** The identifier starts with "GO:", in any mix of cases. *)
Definition has_go_prefix (t : string) : Prop :=
  ∃ p rest, p ∈ ["GO:"; "Go:"; "gO:"; "go:"]%string ∧ t = (p +:+ rest)%string.

End GenomeSpec.

Module GenomeExamples.
Import Genome GenomeSpec.

Definition record (fid : option string) (terms : list (string * string))
  : genome_feature :=
  {| feature_id := fid; function := None; feature_type := Some "gene"%string;
     ontology_terms := Some (list_to_map terms) |}.

(** The synthetic genome of the specification: F1 and F3 share "GO:0001",
    F2 carries "GO:9999", F4 and F5 carry no GO term. *)
Definition synthetic_genome : list genome_feature :=
  [ record (Some "F1"%string)
      [("GO:0001", "test process"); ("EC:1.1.1.1", "enzyme")]%string;
    record (Some "F2"%string) [("GO:9999", "other")]%string;
    record (Some "F3"%string) [("GO:0001", "test process")]%string;
    record (Some "F4"%string) [];
    {| feature_id := Some "F5"%string; function := None;
       feature_type := None; ontology_terms := None |} ].

(** Two records that carry the same feature identifier. *)
Definition duplicated_feature : list genome_feature :=
  [ record (Some "F1"%string) [("GO:0001", "first")]%string;
    record (Some "F1"%string) [("GO:0002", "second")]%string ].

(** A record whose term identifier has the GO prefix but no digits. *)
Definition undigited_term : list genome_feature :=
  [ record (Some "F1"%string) [("GO:abc", "not a number")]%string ].

(** A record without a feature identifier. *)
Definition anonymous_feature : list genome_feature :=
  [ record None [("GO:0001", "test process")]%string ].

(** The five features of [_get_feature_set_ids], none of them annotated,
    and one more feature that carries a GO term. *)
Definition unrelated_term : list genome_feature :=
  [ record (Some "AT1G01010"%string) [];
    record (Some "AT1G01020"%string) [];
    record (Some "AT1G01030"%string) [];
    record (Some "AT1G01040"%string)
      [("GO:0003700", "transcription factor activity")]%string;
    record (Some "AT1G01050"%string) [];
    record (Some "AT1G01060"%string) [] ].

End GenomeExamples.

Module FisherSpec.
Import Fisher.

(** Sum of an integer-valued function over a list of counts. *)
Definition Zsum (f : nat → Z) (l : list nat) : Z :=
  foldr (λ i acc, f i + acc)%Z 0%Z l.

(** Number of draws of [n] features with exactly [i] annotated ones, when
    [K] features are annotated and [M] are not. *)
Definition ways (K M n i : nat) : Z := (choose K i * choose M (n - i))%Z.

(** The marginals of a table, as [fisher.pvalue] computes them. *)
Definition drawn (a b : Z) : nat := Z.to_nat (a + b).
Definition annotated (a c : Z) : nat := Z.to_nat (a + c).
Definition population (a b c d : Z) : nat := Z.to_nat (a + b + c + d).

(** Probability of an overlap of exactly [i] under the marginals of the
    table. *)
Definition point_probability (a b c d : Z) (i : nat) : Qc :=
  hypergeometric_probability i (drawn a b) (annotated a c) (population a b c d).

(** The over-representation probability of the specification: the
    hypergeometric mass of the counts at least as large as the observed
    [a], over all counts [0 .. a+b]. *)
Definition over_representation_probability (a b c d : Z) : Qc :=
  Qc_sum (point_probability a b c d
            <$> filter (λ i, Z.to_nat a ≤ i) (seq 0 (S (drawn a b)))).

(** The mass of the counts at most as large as the observed [a]. *)
Definition under_representation_probability (a b c d : Z) : Qc :=
  Qc_sum (point_probability a b c d
            <$> filter (λ i, i ≤ Z.to_nat a) (seq 0 (S (drawn a b)))).

End FisherSpec.

Module StatsSpec.
Import Stats.

(** [p[o]]: the values of [p] in decreasing order. *)
Definition decreasing (p : list Qc) : list Qc :=
  subscript p (order (flip Qcle) 0%Qc p).

(** [n/i * p[o]], for a vector [L = p[o]] of length [n]. *)
Definition weighted (L : list Qc) : list Qc :=
  zip_with (λ i x, Qc_of_nat (length L) / Qc_of_nat i * x)%Qc
           (reverse (seq 1 (length L))) L.

(** [pmin(1, cummin(n/i * p[o]))]. *)
Definition adjusted_decreasing (L : list Qc) : list Qc :=
  pmin 1%Qc (cummin (weighted L)).

(** The Benjamini-Hochberg adjustment in the words of the specification:
    for [m] raw p-values sorted in ascending order, with ranks [1..m], the
    term of rank [k'] is [p_(k') * m / k'] ... *)
Definition bh_term (sorted : list Qc) (k' : nat) : Qc :=
  (default 0 (sorted !! (k' - 1)%nat) * Qc_of_nat (length sorted)
   / Qc_of_nat k')%Qc.

(** ... and the adjusted value of rank [k] is the minimum of the terms of
    the ranks [k' >= k]. *)
Definition bh_adjusted (sorted : list Qc) (k : nat) : Qc :=
  foldr Qc_min (bh_term sorted (length sorted))
        (bh_term sorted <$> seq k (length sorted - k)).

(** A value of the batch is a probability. *)
Definition probability (x : Qc) : Prop := (0 ≤ x ∧ x ≤ 1)%Qc.

End StatsSpec.

Module EnrichmentSpec.
Import Stats StatsSpec Enrichment.

(** The state the first loop hands to the correction: [all_raw_p_value]
    lists the values of [go_raw_p_value], one per term, in some order. *)
Definition batch (go_raw_p_value : gmap string Qc)
    (all_raw_p_value : list Qc) : Prop :=
  all_raw_p_value ≡ₚ (map_to_list go_raw_p_value).*2.

(** [pos] is the position of the first occurrence of [x] in [l]. *)
Definition first_occurrence (x : Qc) (l : list Qc) (pos : nat) : Prop :=
  l !! pos = Some x ∧ ∀ i, i < pos → l !! i ≠ Some x.

(** [adjusted_p_values[all_raw_p_value.index(raw_p_value)]], when neither
    step raises. *)
Definition looked_up (all_raw_p_value : list Qc) (raw_p_value : Qc)
  : option Qc :=
  match list_find (λ y, y = raw_p_value) all_raw_p_value with
  | Some (pos, _) => p_adjust all_raw_p_value !! pos
  | None => None
  end.

(** Terms listed with their raw values, in ascending order of the value. *)
Definition ascending_by_raw (ranked : list (string * Qc)) : Prop :=
  Sorted (λ e1 e2, (e1.2 ≤ e2.2)%Qc) ranked.


Definition q (num : Z) (den : positive) : Qc := Q2Qc (num # den).

(** The batch of the specification's example, in ascending order: two terms
    tied at 0.01 and one at 0.5. *)
Definition tied_ranked : list (string * Qc) :=
  [ ("GO:0001"%string, q 1 100);
    ("GO:0002"%string, q 1 100);
    ("GO:0003"%string, q 1 2) ].

Definition tied_batch : gmap string Qc := list_to_map tied_ranked.

Definition tied_raw : list Qc := tied_ranked.*2.

End EnrichmentSpec.

(** ** The index as a function of the input records *)

Module IndexSpec.
Import Genome GenomeSpec.

(** The label the record gives to the term, [ontology_terms.get(t)] when
    the record has ontology terms at all. *)
Definition label_of (t : string) (gf : genome_feature) : option string :=
  ontology_terms gf ≫= (.!! t).

(** The record carries the term: the identifier passes [re.match] and is a
    key of the record's [ontology_terms]. *)
Definition annotates (t : string) (gf : genome_feature) : Prop :=
  re_match_go t = true ∧ is_Some (label_of t gf).

Global Instance annotates_dec t gf : Decision (annotates t gf).
Proof. unfold annotates. apply _. Defined.

(** What [feature_id_feature_info_map] stores for a record. *)
Definition info_of (gf : genome_feature) : feature_info :=
  {| info_function := function gf; info_feature_type := feature_type gf |}.

(** A dictionary entry exists only for a list with an element. *)
Definition nonempty {A} (l : list A) : option (list A) :=
  match l with
  | [] => None
  | _ :: _ => Some l
  end.

End IndexSpec.

(** ** The whole run as a function of the input records *)

Module RunSpec.
Import Genome Enrichment.

(** The records carry pairwise distinct identifiers, and every feature of
    the feature set is a feature of the genome. *)
Definition well_formed (genome_features : list genome_feature) : Prop :=
  NoDup (feature_id <$> genome_features)
  ∧ (Some <$> _get_feature_set_ids) ⊆ (feature_id <$> genome_features).

(** [feature_ids] of [run_fe1]: the keys of [feature_id_feature_info_map]. *)
Definition feature_ids_of (m : go_maps) : list (option string) :=
  (map_to_list (feature_id_feature_info_map m)).*1.

(** The table [run_fe1] builds for a term of the index. *)
Definition table_of (m : go_maps) (t : string) : option table :=
  (λ mapped_features,
     contingency mapped_features _get_feature_set_ids (feature_ids_of m))
    <$> go_id_feature_id_list_map m !! t.

End RunSpec.

Module RunExamples.
Import Genome GenomeExamples.

(** Seven features, among them the five of the feature set, and three GO
    terms: one carried inside the feature set only, one on both sides, one
    outside only. *)
Definition sample_genome : list genome_feature :=
  [ record (Some "AT1G01010"%string)
      [("GO:0003700", "transcription factor activity");
       ("GO:0005634", "nucleus")]%string;
    record (Some "AT1G01020"%string) [("GO:0005634", "nucleus")]%string;
    record (Some "AT1G01030"%string)
      [("GO:0003700", "transcription factor activity")]%string;
    record (Some "AT1G01040"%string)
      [("GO:0005634", "nucleus"); ("EC:3.1.26.3", "ribonuclease III")]%string;
    record (Some "AT1G01050"%string) [];
    record (Some "AT1G01060"%string)
      [("GO:0003700", "transcription factor activity")]%string;
    {| feature_id := Some "AT1G01070"%string; function := Some "kinase"%string;
       feature_type := Some "gene"%string;
       ontology_terms :=
         Some (list_to_map [("GO:0006355", "regulation of transcription")]%string)
    |} ].

(** The feature list of a term, a feature set and a universe. *)
Definition sample_mapped : list (option string) :=
  [Some "F1"; Some "F3"]%string.

Definition sample_feature_set : list string := ["F1"; "F3"; "F5"]%string.

Definition sample_universe : list (option string) :=
  [Some "F1"; Some "F2"; Some "F3"; Some "F4"; Some "F5"]%string.

End RunExamples.

Module TableExamples.
Import Genome GenomeExamples.

(** Two records that carry the same feature identifier and the same
    term. *)
Definition repeated_annotation : list genome_feature :=
  [ record (Some "F1"%string) [("GO:0001", "first")]%string;
    record (Some "F1"%string) [("GO:0001", "first")]%string ].

(** The features that carry "GO:0005634" in the sample genome. *)
Definition sample_nucleus_features : gset (option string) :=
  {[ Some "AT1G01010"%string; Some "AT1G01020"%string;
     Some "AT1G01040"%string ]}.

End TableExamples.

Module ReportSpec.
Import Enrichment Report.

(** The text a row is ranked by. *)
Definition rank_text (row : list string) : string :=
  default EmptyString (row !! 3).

(** [s1] is not after [s2] in the byte order of strings. *)
Definition text_le (s1 s2 : string) : Prop := String.leb s1 s2 = true.

(** A decorated element is in front of another when its key is not smaller
    in the byte order. *)
Definition before {X} (kx ky : string * X) : Prop := text_le ky.1 kx.1.

Section items.
Context (repr : Qc → string).

(** The terms of the result in the order of the report. *)
Definition ranked_items (enrichment_map : gmap string enrichment)
  : list (string * enrichment) :=
  sort_by_key_reverse
    ((λ item, (repr (adjusted_p_value item.2), item))
       <$> map_to_list enrichment_map).

(** The table row of a term. *)
Definition html_of_item (item : string * enrichment) : string :=
  ("<tr><td>" +:+ item.1 +:+ "</td><td>"
   +:+ default EmptyString (go_term item.2) +:+ "</td><td>"
   +:+ repr (raw_p_value item.2) +:+ "</td><td>"
   +:+ repr (adjusted_p_value item.2) +:+ "</td></tr>")%string.

End items.

End ReportSpec.

(** * Properties *)

Section index_facts.
Import Genome.

Lemma collect_go_ids acc items :
  (foldl collect_go acc items).2
  = acc.2 ++ filter (λ k, re_match_go k = true) items.*1.
Proof.
  revert acc. induction items as [|[k v] items IH]; intros acc; simpl.
  - by rewrite app_nil_r.
  - rewrite IH. unfold collect_go. rewrite filter_cons.
    case_decide as Hk; [rewrite Hk|apply not_true_is_false in Hk; rewrite Hk];
      simpl; [by rewrite <-app_assoc|done].
Qed.

Lemma collect_go_dom acc items :
  dom (foldl collect_go acc items).1
  = dom acc.1 ∪ list_to_set (filter (λ k, re_match_go k = true) items.*1).
Proof.
  revert acc. induction items as [|[k v] items IH]; intros acc; simpl.
  - set_solver.
  - rewrite IH. unfold collect_go. rewrite filter_cons.
    case_decide as Hk; [rewrite Hk|apply not_true_is_false in Hk; rewrite Hk];
      simpl; [rewrite dom_insert_L; set_solver|done].
Qed.

Lemma add_feature_lookup fid m gl t f :
  (∃ l, foldl (add_feature fid) m gl !! t = Some l ∧ f ∈ l)
  ↔ (∃ l, m !! t = Some l ∧ f ∈ l) ∨ (t ∈ gl ∧ f = fid).
Proof.
  revert m. induction gl as [|g gl IH]; intros m; simpl.
  - set_solver.
  - rewrite IH. rewrite elem_of_cons.
    assert ((∃ l, add_feature fid m g !! t = Some l ∧ f ∈ l)
            ↔ (∃ l, m !! t = Some l ∧ f ∈ l) ∨ (t = g ∧ f = fid)) as ->.
    { unfold add_feature. destruct (m !! g) as [fs|] eqn:Hg.
      - destruct (decide (t = g)) as [->|Hne].
        + rewrite lookup_insert_eq, Hg. split.
          * intros (l & [= <-] & Hin). apply elem_of_app in Hin as [?|Hin].
            -- left; eauto.
            -- apply list_elem_of_singleton in Hin. by right.
          * intros [(l & [= <-] & ?)|[_ ->]]; eexists; split; try done;
              apply elem_of_app; [by left | right; apply list_elem_of_singleton; done].
        + rewrite lookup_insert_ne by done. naive_solver.
      - destruct (decide (t = g)) as [->|Hne].
        + rewrite lookup_insert_eq, Hg. split.
          * intros (l & [= <-] & Hin). apply list_elem_of_singleton in Hin. by right.
          * intros [(l & ? & ?)|[_ ->]]; [done|].
            eexists; split; [done|]. by apply list_elem_of_singleton.
        + rewrite lookup_insert_ne by done. naive_solver. }
    naive_solver.
Qed.

Lemma add_feature_dom fid m gl :
  dom (foldl (add_feature fid) m gl) = dom m ∪ list_to_set gl.
Proof.
  revert m. induction gl as [|g gl IH]; intros m; simpl.
  - set_solver.
  - rewrite IH. unfold add_feature.
    destruct (m !! g); rewrite dom_insert_L; set_solver.
Qed.

Lemma add_feature_nonempty fid m gl :
  (∀ t l, m !! t = Some l → l ≠ []) →
  ∀ t l, foldl (add_feature fid) m gl !! t = Some l → l ≠ [].
Proof.
  revert m. induction gl as [|g gl IH]; intros m Hm; simpl; [done|].
  apply IH. intros t l. unfold add_feature.
  destruct (m !! g) as [fs|] eqn:Hg.
  - destruct (decide (g = t)) as [->|Hne].
    + rewrite lookup_insert_eq. intros [= <-]. by destruct fs.
    + rewrite lookup_insert_ne by done. apply Hm.
  - destruct (decide (g = t)) as [->|Hne].
    + rewrite lookup_insert_eq. by intros [= <-].
    + rewrite lookup_insert_ne by done. apply Hm.
Qed.

End index_facts.

Section index_step.
Import Genome GenomeSpec.

Lemma index_feature_terms st gf :
  dom (go_id_go_term_map (index_feature st gf))
  = dom (go_id_go_term_map st) ∪ list_to_set (go_ids_of gf).
Proof.
  unfold index_feature, go_ids_of. destruct (ontology_terms gf) as [ot|].
  - pose proof (collect_go_dom (go_id_go_term_map st, []) (map_to_list ot)) as Hd.
    destruct (foldl collect_go _ _) as [terms ids]. simpl in Hd.
    by destruct ids.
  - simpl. set_solver.
Qed.

Lemma index_feature_features st gf :
  feature_id_go_id_list_map (index_feature st gf)
  = match go_ids_of gf with
    | [] => feature_id_go_id_list_map st
    | _ :: _ => <[feature_id gf := go_ids_of gf]> (feature_id_go_id_list_map st)
    end.
Proof.
  unfold index_feature, go_ids_of. destruct (ontology_terms gf) as [ot|]; [|done].
  pose proof (collect_go_ids (go_id_go_term_map st, []) (map_to_list ot)) as Hd.
  destruct (foldl collect_go _ _) as [terms ids]. simpl in Hd. subst ids.
  by destruct (filter _ _).
Qed.

Lemma index_feature_term_features st gf :
  go_id_feature_id_list_map (index_feature st gf)
  = foldl (add_feature (feature_id gf)) (go_id_feature_id_list_map st)
          (go_ids_of gf).
Proof.
  unfold index_feature, go_ids_of. destruct (ontology_terms gf) as [ot|]; [|done].
  pose proof (collect_go_ids (go_id_go_term_map st, []) (map_to_list ot)) as Hd.
  destruct (foldl collect_go _ _) as [terms ids]. simpl in Hd. subst ids.
  by destruct (filter _ _).
Qed.

Lemma index_feature_info st gf :
  dom (feature_id_feature_info_map (index_feature st gf))
  = {[feature_id gf]} ∪ dom (feature_id_feature_info_map st).
Proof.
  unfold index_feature.
  destruct (match ontology_terms gf with Some _ => _ | None => _ end) as [terms ids].
  destruct ids; simpl; by rewrite dom_insert_L.
Qed.

Lemma go_ids_of_match gf t : t ∈ go_ids_of gf → re_match_go t = true.
Proof.
  unfold go_ids_of. destruct (ontology_terms gf); [|by intros ?%elem_of_nil].
  by intros [? _]%list_elem_of_filter.
Qed.

Lemma feature_has_term_step st gf f t :
  feature_id gf ∉ dom (feature_id_go_id_list_map st) →
  feature_has_term (index_feature st gf) f t
  ↔ feature_has_term st f t ∨ (t ∈ go_ids_of gf ∧ f = feature_id gf).
Proof.
  intros Hfresh. unfold feature_has_term. rewrite index_feature_features.
  destruct (go_ids_of gf) as [|g gl] eqn:Hg.
  - set_solver.
  - apply not_elem_of_dom in Hfresh.
    destruct (decide (f = feature_id gf)) as [->|Hne].
    + rewrite lookup_insert_eq, Hfresh. naive_solver.
    + rewrite lookup_insert_ne by done. naive_solver.
Qed.

Lemma feature_has_term_step_weak st gf f t :
  feature_has_term (index_feature st gf) f t →
  feature_has_term st f t ∨ t ∈ go_ids_of gf.
Proof.
  unfold feature_has_term. rewrite index_feature_features.
  destruct (go_ids_of gf) as [|g gl] eqn:Hg; [by left|].
  destruct (decide (f = feature_id gf)) as [->|Hne].
  - rewrite lookup_insert_eq. naive_solver.
  - rewrite lookup_insert_ne by done. by left.
Qed.

Lemma index_inv_step seen st gf :
  index_inv seen st → feature_id gf ∉ seen →
  index_inv ({[feature_id gf]} ∪ seen) (index_feature st gf).
Proof.
  intros [Hinv Hlab Hne Hseen] Hfresh. split.
  - intros f t. rewrite feature_has_term_step by set_solver.
    unfold term_has_feature. rewrite index_feature_term_features.
    rewrite add_feature_lookup. by rewrite (Hinv f t).
  - rewrite index_feature_terms, index_feature_term_features, add_feature_dom.
    by rewrite Hlab.
  - rewrite index_feature_term_features. by apply add_feature_nonempty.
  - rewrite index_feature_features. destruct (go_ids_of gf).
    + set_solver.
    + rewrite dom_insert_L. set_solver.
Qed.

Lemma index_inv_foldl seen st gfs :
  index_inv seen st →
  NoDup (feature_id <$> gfs) →
  (∀ gf, gf ∈ gfs → feature_id gf ∉ seen) →
  index_inv (list_to_set (feature_id <$> gfs) ∪ seen)
            (foldl index_feature st gfs).
Proof.
  revert seen st. induction gfs as [|gf gfs IH]; intros seen st Hinv Hnd Hfresh.
  - simpl. by rewrite (left_id_L ∅ (∪)).
  - rewrite fmap_cons in Hnd |- *.
    apply NoDup_cons in Hnd as [Hnotin Hnd].
    cbn [foldl]. rewrite list_to_set_cons.
    replace ({[feature_id gf]} ∪ list_to_set (feature_id <$> gfs) ∪ seen)
      with (list_to_set (feature_id <$> gfs) ∪ ({[feature_id gf]} ∪ seen))
      by set_solver.
    apply IH; [|done|].
    + apply index_inv_step; [done|]. apply Hfresh. by left.
    + intros gf' Hin. apply not_elem_of_union. split.
      * apply not_elem_of_singleton. intros Heq. apply Hnotin.
        rewrite <-Heq. by apply list_elem_of_fmap_2.
      * apply Hfresh. by right.
Qed.

Lemma index_inv_empty : index_inv ∅ empty_maps.
Proof.
  split; simpl.
  - intros f t. unfold feature_has_term, term_has_feature. simpl.
    setoid_rewrite lookup_empty. naive_solver.
  - by rewrite !dom_empty_L.
  - intros t l. by rewrite lookup_empty.
  - by rewrite dom_empty_L.
Qed.

Lemma go_only_step st gf : go_only st → go_only (index_feature st gf).
Proof.
  intros [Hl Ht Hf]. split.
  - intros t. rewrite index_feature_terms.
    intros [?|Hin%elem_of_list_to_set]%elem_of_union; [by apply Hl|].
    by apply (go_ids_of_match gf).
  - intros t. rewrite index_feature_term_features, add_feature_dom.
    intros [?|Hin%elem_of_list_to_set]%elem_of_union; [by apply Ht|].
    by apply (go_ids_of_match gf).
  - intros f t [?|?]%feature_has_term_step_weak; [by apply (Hf f)|].
    by apply (go_ids_of_match gf).
Qed.

Lemma go_only_foldl st gfs : go_only st → go_only (foldl index_feature st gfs).
Proof.
  revert st. induction gfs as [|gf gfs IH]; intros st Hst; [done|].
  simpl. by apply IH, go_only_step.
Qed.

Lemma go_only_empty : go_only empty_maps.
Proof.
  split; simpl.
  - intros t. by rewrite dom_empty_L.
  - intros t. by rewrite dom_empty_L.
  - intros f t (l & Hl & _). simpl in Hl. by rewrite lookup_empty in Hl.
Qed.

(** Without any assumption on the identifiers: the label map and the
    term→features map have the same keys, and no feature list is empty. *)
Lemma labels_dom_foldl st gfs :
  dom (go_id_go_term_map st) = dom (go_id_feature_id_list_map st) →
  dom (go_id_go_term_map (foldl index_feature st gfs))
  = dom (go_id_feature_id_list_map (foldl index_feature st gfs)).
Proof.
  revert st. induction gfs as [|gf gfs IH]; intros st Hst; [done|].
  simpl. apply IH.
  by rewrite index_feature_terms, index_feature_term_features, add_feature_dom, Hst.
Qed.

Lemma info_dom_foldl st gfs :
  dom (feature_id_feature_info_map (foldl index_feature st gfs))
  = list_to_set (feature_id <$> gfs) ∪ dom (feature_id_feature_info_map st).
Proof.
  revert st. induction gfs as [|gf gfs IH]; intros st; [set_solver|].
  rewrite fmap_cons, list_to_set_cons. cbn [foldl].
  rewrite IH, index_feature_info. set_solver.
Qed.

End index_step.

Section index_claims.
Import Genome GenomeSpec GenomeExamples.

Lemma re_match_go_prefix t : re_match_go t = true → has_go_prefix t.
Proof.
  destruct t as [|c1 [|c2 [|c3 rest]]]; try done. simpl.
  intros [[H1 H2]%andb_prop H3]%andb_prop.
  apply Ascii.eqb_eq in H3 as ->.
  apply orb_prop in H1 as [->%Ascii.eqb_eq| ->%Ascii.eqb_eq];
  apply orb_prop in H2 as [->%Ascii.eqb_eq| ->%Ascii.eqb_eq].
  - exists "go:"%string, rest. split; [set_solver|done].
  - exists "gO:"%string, rest. split; [set_solver|done].
  - exists "Go:"%string, rest. split; [set_solver|done].
  - exists "GO:"%string, rest. split; [set_solver|done].
Qed.

Lemma duplicated_feature_term_side :
  go_id_feature_id_list_map (_get_go_maps_from_genome duplicated_feature)
    !! "GO:0001"%string = Some [Some "F1"%string].
Proof. vm_compute. reflexivity. Qed.

Lemma duplicated_feature_feature_side :
  feature_id_go_id_list_map (_get_go_maps_from_genome duplicated_feature)
    !! Some "F1"%string = Some ["GO:0002"%string].
Proof. vm_compute. reflexivity. Qed.

Lemma undigited_term_label :
  go_id_go_term_map (_get_go_maps_from_genome undigited_term) !! "GO:abc"%string = Some "not a number"%string.
Proof. vm_compute. reflexivity. Qed.

End index_claims.

Section index_theorems.
Import Genome GenomeSpec GenomeExamples.

(** C8, as amended: when the raw records carry pairwise distinct feature
    identifiers, the feature→term and term→feature maps of the index denote
    the same set of (feature, term) pairs, the label map and the
    term→feature map have the same keys, and no term is kept with an empty
    feature list. *)
Theorem index_consistent_for_distinct_features (gfs : list genome_feature) :
  NoDup (feature_id <$> gfs) →
  index_consistent (_get_go_maps_from_genome gfs).
Proof.
  intros Hnd.
  destruct (index_inv_foldl ∅ empty_maps gfs index_inv_empty Hnd) as [H1 H2 H3 _].
  { intros gf _. apply not_elem_of_empty. }
  by split; [|split].
Qed.

Lemma index_consistent_for_distinct_features_witness :
  NoDup (feature_id <$> synthetic_genome)
  ∧ index_consistent (_get_go_maps_from_genome synthetic_genome).
Proof.
  assert (Hnd : NoDup (feature_id <$> synthetic_genome)).
  { apply (bool_decide_unpack _). vm_compute. exact I. }
  split; [exact Hnd|].
  apply (index_consistent_for_distinct_features synthetic_genome Hnd).
Defined.

(** C8 as stated fails: a feature identifier carried by two records is
    overwritten in the feature→term map but kept in the term→feature map. *)
Lemma duplicated_feature_not_consistent :
  ¬ index_consistent (_get_go_maps_from_genome duplicated_feature).
Proof.
  intros [Hinv _].
  destruct (Hinv (Some "F1"%string) "GO:0001"%string) as [_ Hback].
  destruct Hback as (l & Hl & Hin).
  { exists [Some "F1"%string]. split; [apply duplicated_feature_term_side|]. by left. }
  rewrite duplicated_feature_feature_side in Hl. injection Hl as <-.
  apply list_elem_of_singleton in Hin. discriminate Hin.
Qed.

(** C5, as amended: every term identifier retained in the index starts with
    "GO:" (prefix in any case); what follows the colon is not inspected.
    An identifier of another namespace, such as "EC:1.1.1.1", is never
    retained, and the builder returns normally. *)
Theorem retained_has_go_prefix (gfs : list genome_feature) (t : string) :
  retained (_get_go_maps_from_genome gfs) t →
  has_go_prefix t
  ∧ ¬ retained (_get_go_maps_from_genome gfs) "EC:1.1.1.1"%string
  ∧ call_get_go_maps_from_genome gfs
    = Returned (_get_go_maps_from_genome gfs).
Proof.
  pose proof (go_only_foldl empty_maps gfs go_only_empty) as [Hl Ht Hf].
  fold (_get_go_maps_from_genome gfs) in Hl, Ht, Hf.
  assert (Hgo : ∀ u, retained (_get_go_maps_from_genome gfs) u →
                     re_match_go u = true).
  { intros u [?|[?|[f ?]]]; [by apply Hl|by apply Ht|by apply (Hf f)]. }
  intros Hret. split; [by apply re_match_go_prefix, Hgo|]. split; [|done].
  intros Hec. by apply Hgo in Hec.
Qed.

Lemma retained_has_go_prefix_witness :
  retained (_get_go_maps_from_genome synthetic_genome) "GO:0001"%string
  ∧ has_go_prefix "GO:0001"%string
  ∧ ¬ retained (_get_go_maps_from_genome synthetic_genome) "EC:1.1.1.1"%string
  ∧ call_get_go_maps_from_genome synthetic_genome
    = Returned (_get_go_maps_from_genome synthetic_genome).
Proof.
  assert (Hret : retained (_get_go_maps_from_genome synthetic_genome)
                          "GO:0001"%string).
  { left. apply elem_of_dom. exists "test process"%string.
    vm_compute. reflexivity. }
  split; [exact Hret|].
  apply (retained_has_go_prefix synthetic_genome "GO:0001"%string Hret).
Defined.

(** C5 as stated fails: "GO:abc" is retained although no digit follows the
    prefix. *)
Lemma undigited_term_retained :
  ¬ ∀ t, retained (_get_go_maps_from_genome undigited_term) t →
         matches_go_digits t = true.
Proof.
  intros Hall. specialize (Hall "GO:abc"%string).
  enough (matches_go_digits "GO:abc"%string = true) by done.
  apply Hall. left. apply elem_of_dom. eexists. apply undigited_term_label.
Qed.

(** C6, as amended: the builder never fails, whatever the records; a record
    without a feature identifier is indexed under the key [None]. *)
Theorem get_go_maps_never_raises (gfs : list genome_feature) :
  call_get_go_maps_from_genome gfs = Returned (_get_go_maps_from_genome gfs)
  ∧ (∀ e, call_get_go_maps_from_genome gfs ≠ Raised e)
  ∧ ((∃ gf, gf ∈ gfs ∧ feature_id gf = None)
     ↔ None ∈ dom (feature_id_feature_info_map (_get_go_maps_from_genome gfs))).
Proof.
  split; [done|]. split; [done|].
  unfold _get_go_maps_from_genome. rewrite info_dom_foldl. simpl.
  rewrite dom_empty_L, (right_id_L ∅ (∪)), elem_of_list_to_set, list_elem_of_fmap.
  naive_solver.
Qed.

(** C6 as stated fails: a record without a feature identifier does not make
    the builder raise. *)
Lemma anonymous_feature_accepted :
  ¬ (call_get_go_maps_from_genome anonymous_feature = Raised ValidationError
     ↔ ∃ gf, gf ∈ anonymous_feature ∧ feature_id gf = None).
Proof.
  intros [_ Hraise]. enough (Returned (_get_go_maps_from_genome anonymous_feature)
    = Raised ValidationError) by done.
  apply Hraise. eexists. split; [by left|done].
Qed.

End index_theorems.

Section choose_facts.
Import Fisher FisherSpec.
Local Open Scope Z_scope.

Lemma choose_0_r n : choose n 0 = 1.
Proof. by destruct n. Qed.

Lemma choose_succ n k : choose (S n) (S k) = choose n k + choose n (S k).
Proof. done. Qed.

Lemma choose_nonneg n k : 0 ≤ choose n k.
Proof.
  revert k. induction n as [|n IH]; intros [|k]; simpl; try lia.
  pose proof (IH k). pose proof (IH (S k)). lia.
Qed.

Lemma choose_gt n k : (n < k)%nat → choose n k = 0.
Proof.
  revert k. induction n as [|n IH]; intros [|k] Hlt; simpl; try lia.
  rewrite !IH by lia. lia.
Qed.

Lemma choose_pos n k : (k ≤ n)%nat → 0 < choose n k.
Proof.
  revert k. induction n as [|n IH]; intros [|k] Hle; simpl; try lia.
  pose proof (IH k ltac:(lia)). pose proof (choose_nonneg n (S k)). lia.
Qed.

Lemma choose_diag n : choose n n = 1.
Proof.
  induction n as [|n IH]; [done|]. rewrite choose_succ, IH, choose_gt; lia.
Qed.

(** Adding unannotated features strictly increases the number of draws of
    a non-empty set that fits. *)
Lemma choose_lt_add n k c :
  (0 < k ≤ S n)%nat → (0 < c)%nat → choose n k < choose (n + c) k.
Proof.
  intros Hk Hc. destruct k as [|k]; [lia|].
  induction c as [|c IH]; [lia|].
  replace (n + S c)%nat with (S (n + c)) by lia. rewrite choose_succ.
  pose proof (choose_pos (n + c) k ltac:(lia)).
  destruct c as [|c]; [replace (n + 0)%nat with n in * by lia; lia|].
  specialize (IH ltac:(lia)). lia.
Qed.

Lemma Zsum_cons f i l : Zsum f (i :: l) = f i + Zsum f l.
Proof. done. Qed.

Lemma Zsum_app f l1 l2 : Zsum f (l1 ++ l2) = Zsum f l1 + Zsum f l2.
Proof. induction l1 as [|i l1 IH]; simpl; lia. Qed.

Lemma Zsum_ext f g l : (∀ i, i ∈ l → f i = g i) → Zsum f l = Zsum g l.
Proof.
  induction l as [|i l IH]; intros Hfg; simpl; [done|].
  rewrite Hfg, IH; [done| |by left]. intros j ?. apply Hfg. by right.
Qed.

Lemma Zsum_plus f g l : Zsum (λ i, f i + g i) l = Zsum f l + Zsum g l.
Proof. induction l as [|i l IH]; simpl; lia. Qed.

Lemma Zsum_shift f a len : Zsum f (seq (S a) len) = Zsum (λ i, f (S i)) (seq a len).
Proof.
  revert a. induction len as [|len IH]; intros a; simpl; [done|].
  by rewrite IH.
Qed.

Lemma Zsum_zero f l : (∀ i, i ∈ l → f i = 0) → Zsum f l = 0.
Proof.
  induction l as [|i l IH]; intros Hf; simpl; [done|].
  rewrite Hf, IH; [done| |by left]. intros j ?. apply Hf. by right.
Qed.

(** Vandermonde's identity. *)
Lemma vandermonde K M n :
  Zsum (ways K M n) (seq 0 (S n)) = choose (K + M) n.
Proof.
  revert n. induction K as [|K IH]; intros n.
  - change (seq 0 (S n)) with (0%nat :: seq 1 n).
    rewrite Zsum_cons. unfold ways at 1. rewrite Nat.sub_0_r.
    rewrite Zsum_zero; [simpl; lia|].
    intros i [Hi _]%elem_of_seq. unfold ways.
    destruct i; [lia|]. simpl. lia.
  - destruct n as [|n].
    + simpl. unfold ways. simpl. rewrite !choose_0_r. lia.
    + change (S K + M)%nat with (S (K + M)). rewrite choose_succ.
      rewrite <-(IH n), <-(IH (S n)).
      change (seq 0 (S (S n))) with (0%nat :: seq 1 (S n)).
      rewrite !Zsum_cons, !Zsum_shift.
      rewrite (Zsum_ext (λ i, ways (S K) M (S n) (S i))
                 (λ i, ways K M n i + ways K M (S n) (S i))).
      2:{ intros i _. unfold ways. rewrite choose_succ.
          change (S n - S i)%nat with (n - i)%nat. lia. }
      rewrite Zsum_plus. unfold ways. rewrite !choose_0_r. lia.
Qed.

End choose_facts.

Section tail_facts.
Import Fisher FisherSpec.

Lemma Zsum_filter_zero (P : nat → Prop) `{!∀ i, Decision (P i)} f l :
  (∀ i, i ∈ l → f i = 0%Z) → Zsum f (filter P l) = 0%Z.
Proof.
  intros Hf. apply Zsum_zero. intros i [_ ?]%list_elem_of_filter. by apply Hf.
Qed.

(** Outside the support no draw is possible, so a sum over all counts
    [0 .. n] is a sum over the support. *)
Lemma Zsum_support (P : nat → Prop) `{!∀ i, Decision (P i)} n K N :
  K ≤ N → n ≤ N →
  Zsum (ways K (N - K) n) (filter P (seq 0 (S n)))
  = Zsum (ways K (N - K) n) (filter P (support n K N)).
Proof.
  intros HK Hn. unfold support.
  set (lm := n + K - N). set (um := Nat.min n K).
  replace (S n) with (lm + ((S um - lm) + (n - um))) by lia.
  rewrite !seq_app, !filter_app, !Zsum_app. simpl.
  rewrite (Zsum_filter_zero P _ (seq 0 lm)),
          (Zsum_filter_zero P _ (seq (lm + (S um - lm)) (n - um))); [lia| |].
  - intros i [Hi1 Hi2]%elem_of_seq. unfold ways.
    rewrite (choose_gt K i) by lia. lia.
  - intros i [Hi1 Hi2]%elem_of_seq. unfold ways.
    rewrite (choose_gt (N - K) (n - i)) by lia. lia.
Qed.

Lemma Zsum_filter_eq f k s len :
  Zsum f (filter (λ i, i = k) (seq s len))
  = if decide (s ≤ k < s + len) then f k else 0%Z.
Proof.
  revert s. induction len as [|len IH]; intros s.
  - simpl. case_decide; [lia|done].
  - simpl. rewrite filter_cons. case_decide as Hs.
    + subst s. rewrite Zsum_cons, IH.
      rewrite decide_False by lia. rewrite decide_True by lia. lia.
    + rewrite IH. repeat case_decide; lia || done.
Qed.

Lemma Zsum_tails f (k : nat) l :
  (Zsum f (filter (λ i, (i ≤ k)%nat) l) + Zsum f (filter (λ i, (k ≤ i)%nat) l)
   = Zsum f l + Zsum f (filter (λ i, i = k) l))%Z.
Proof.
  induction l as [|i l IH]; [done|].
  rewrite !filter_cons.
  repeat case_decide; rewrite ?Zsum_cons; lia.
Qed.

Lemma Zsum_filter_le_0 f n :
  Zsum f (filter (λ i, i ≤ 0) (seq 0 (S n))) = f 0.
Proof.
  change (seq 0 (S n)) with (0 :: seq 1 n). rewrite filter_cons.
  rewrite decide_True by lia. rewrite Zsum_cons.
  rewrite Zsum_zero; [lia|].
  intros i [Hle [Hi _]%elem_of_seq]%list_elem_of_filter. lia.
Qed.

Lemma Zsum_nonneg f l : (∀ i, i ∈ l → (0 ≤ f i)%Z) → (0 ≤ Zsum f l)%Z.
Proof.
  induction l as [|i l IH]; intros Hf; simpl; [lia|].
  pose proof (Hf i ltac:(by left)).
  pose proof (IH (λ j Hj, Hf j ltac:(by right))). lia.
Qed.

Lemma Zsum_filter_le (P : nat → Prop) `{!∀ i, Decision (P i)} f l :
  (∀ i, i ∈ l → (0 ≤ f i)%Z) → (Zsum f (filter P l) ≤ Zsum f l)%Z.
Proof.
  induction l as [|i l IH]; intros Hf; [done|].
  pose proof (Hf i ltac:(by left)).
  pose proof (IH (λ j Hj, Hf j ltac:(by right))).
  rewrite filter_cons. case_decide; rewrite ?Zsum_cons; lia.
Qed.

Lemma ways_nonneg K M n i : (0 ≤ ways K M n i)%Z.
Proof.
  unfold ways. pose proof (choose_nonneg K i).
  pose proof (choose_nonneg M (n - i)). lia.
Qed.

Lemma Qc_sum_hypergeometric n K N l :
  Qc_sum ((λ i, hypergeometric_probability i n K N) <$> l)
  = (Qc_of_Z (Zsum (ways K (N - K) n) l) / Qc_of_Z (choose N n))%Qc.
Proof.
  induction l as [|i l IH].
  - simpl. rewrite Z2Qc_inj_0. unfold Qcdiv. ring.
  - rewrite fmap_cons. simpl. rewrite IH, Z2Qc_inj_add.
    unfold hypergeometric_probability, ways, Qcdiv. ring.
Qed.

Lemma Qc_of_Z_choose_ne_0 N n : n ≤ N → Qc_of_Z (choose N n) ≠ 0%Qc.
Proof.
  intros Hn. rewrite <-Z2Qc_inj_0, Z2Qc_inj_iff.
  pose proof (choose_pos N n Hn). lia.
Qed.

Lemma Qcdiv_eq_1 (x y : Qc) : y ≠ 0%Qc → (x / y = 1)%Qc ↔ x = y.
Proof.
  intros Hy. split.
  - intros H. rewrite <-(Qcmult_div_r x y Hy), H. ring.
  - intros ->. unfold Qcdiv. by rewrite Qcmult_inv_r.
Qed.

Section valid.
Context (a b c d : Z) (Hvalid : valid_table a b c d).

Local Abbreviation n := (drawn a b).
Local Abbreviation K := (annotated a c).
Local Abbreviation N := (population a b c d).

Lemma valid_marginals : K ≤ N ∧ n ≤ N ∧ Z.to_nat a ≤ n.
Proof.
  destruct Hvalid as (?&?&?&?). unfold annotated, population, drawn. lia.
Qed.

Lemma left_tail_all_counts :
  left_tail (pvalue a b c d) = under_representation_probability a b c d.
Proof.
  destruct valid_marginals as (HK & Hn & _).
  unfold pvalue, under_representation_probability, point_probability.
  cbn [left_tail]. fold n K N.
  rewrite !Qc_sum_hypergeometric. by rewrite Zsum_support.
Qed.

Lemma right_tail_all_counts :
  right_tail (pvalue a b c d) = over_representation_probability a b c d.
Proof.
  destruct valid_marginals as (HK & Hn & _).
  unfold pvalue, over_representation_probability, point_probability.
  cbn [right_tail]. fold n K N.
  rewrite !Qc_sum_hypergeometric. by rewrite Zsum_support.
Qed.

Lemma total_probability :
  Qc_sum (point_probability a b c d <$> seq 0 (S n)) = 1%Qc.
Proof.
  destruct valid_marginals as (HK & Hn & _).
  unfold point_probability.
  rewrite Qc_sum_hypergeometric, vandermonde.
  replace (K + (N - K)) with N by lia.
  apply Qcdiv_eq_1; [by apply Qc_of_Z_choose_ne_0|done].
Qed.

Lemma tails_overlap :
  (under_representation_probability a b c d
   + over_representation_probability a b c d
   = 1 + point_probability a b c d (Z.to_nat a))%Qc.
Proof.
  destruct valid_marginals as (HK & Hn & Ha).
  rewrite <-total_probability.
  unfold under_representation_probability, over_representation_probability,
    point_probability.
  rewrite !Qc_sum_hypergeometric.
  pose proof (Zsum_tails (ways K (N - K) n) (Z.to_nat a) (seq 0 (S n))) as Ht.
  rewrite Zsum_filter_eq in Ht. rewrite decide_True in Ht by lia.
  unfold hypergeometric_probability. fold (ways K (N - K) n (Z.to_nat a)).
  unfold Qcdiv. rewrite <-!Qcmult_plus_distr_l, <-!Z2Qc_inj_add.
  by rewrite Ht.
Qed.
End valid.

End tail_facts.

Section exact_test_theorems.
Import Fisher FisherSpec StatsSpec Enrichment.

Lemma Qc_ne_by_value (x y : Qc) : this x ≠ this y → x ≠ y.
Proof. by intros Hne ->. Qed.

(** The raw value of a table of non-negative counts is a probability. *)
Lemma raw_p_value_probability (a b c d : Z) :
  valid_table a b c d →
  probability (raw_p_value_of {| a := a; b := b; c := c; d := d |}).
Proof.
  intros Hvalid. unfold raw_p_value_of.
  cbn [Enrichment.a Enrichment.b Enrichment.c Enrichment.d].
  rewrite (left_tail_all_counts a b c d Hvalid).
  destruct (valid_marginals a b c d Hvalid) as (HK & Hn & _).
  unfold under_representation_probability, point_probability.
  rewrite Qc_sum_hypergeometric.
  set (x := Zsum _ _).
  assert (0 ≤ x ≤ choose (population a b c d) (drawn a b))%Z as [Hx0 HxD].
  { split.
    - apply Zsum_nonneg. intros i _. apply ways_nonneg.
    - assert (choose (population a b c d) (drawn a b)
              = Zsum (ways (annotated a c)
                        (population a b c d - annotated a c) (drawn a b))
                     (seq 0 (S (drawn a b)))) as ->.
      { rewrite vandermonde. f_equal. lia. }
      apply Zsum_filter_le. intros i _. apply ways_nonneg. }
  pose proof (choose_pos (population a b c d) (drawn a b) Hn) as HD.
  assert (0 < Qc_of_Z (choose (population a b c d) (drawn a b)))%Qc as HDq.
  { by rewrite <-Z2Qc_inj_0, <-Z2Qc_inj_lt. }
  split.
  - apply (Qcmult_le_mono_pos_r _ _ _ HDq).
    rewrite Qcmult_0_l. unfold Qcdiv.
    rewrite <-Qcmult_assoc, Qcmult_inv_l, Qcmult_1_r
      by (by apply not_symmetry, Qclt_not_eq).
    by rewrite <-Z2Qc_inj_0, <-Z2Qc_inj_le.
  - apply (Qcmult_le_mono_pos_r _ _ _ HDq).
    rewrite Qcmult_1_l. unfold Qcdiv.
    rewrite <-Qcmult_assoc, Qcmult_inv_l, Qcmult_1_r
      by (by apply not_symmetry, Qclt_not_eq).
    by rewrite <-Z2Qc_inj_le.
Qed.
(** C2, as amended: for a table of non-negative counts the raw value is
    the one-tailed probability of the opposite direction, the
    hypergeometric mass (marginals fixed) of the counts at most as large as
    the observed [a]; together with the over-representation mass it adds up
    to one plus the probability of [a] itself. *)
Theorem raw_p_value_is_lower_tail (a b c d : Z) :
  valid_table a b c d →
  raw_p_value_of {| a := a; b := b; c := c; d := d |}
  = under_representation_probability a b c d
  ∧ (raw_p_value_of {| a := a; b := b; c := c; d := d |}
     + over_representation_probability a b c d
     = 1 + point_probability a b c d (Z.to_nat a))%Qc.
Proof.
  intros Hvalid. unfold raw_p_value_of. cbn [Enrichment.a Enrichment.b
    Enrichment.c Enrichment.d].
  rewrite (left_tail_all_counts a b c d Hvalid).
  split; [done|]. by apply tails_overlap.
Qed.

Lemma raw_p_value_is_lower_tail_witness :
  valid_table 3 1 1 3
  ∧ raw_p_value_of {| a := 3; b := 1; c := 1; d := 3 |}
    = under_representation_probability 3 1 1 3
  ∧ (raw_p_value_of {| a := 3; b := 1; c := 1; d := 3 |}
     + over_representation_probability 3 1 1 3
     = 1 + point_probability 3 1 1 3 (Z.to_nat 3))%Qc.
Proof.
  assert (Hvalid : valid_table 3 1 1 3) by (unfold valid_table; lia).
  split; [exact Hvalid|].
  apply (raw_p_value_is_lower_tail 3 1 1 3 Hvalid).
Defined.

(** C2 as stated fails: with five features of interest, one annotated
    feature outside them and nothing else (the table (0, 5, 1, 0)), the raw
    value is 1/6 while the over-representation probability is 1. *)
Lemma raw_p_value_not_over_representation :
  ¬ (valid_table 0 5 1 0 →
     raw_p_value_of {| a := 0; b := 5; c := 1; d := 0 |}
     = over_representation_probability 0 5 1 0).
Proof.
  intros Hclaim.
  assert (Hvalid : valid_table 0 5 1 0) by (unfold valid_table; lia).
  specialize (Hclaim Hvalid). revert Hclaim.
  apply Qc_ne_by_value. vm_compute. discriminate.
Qed.

(** C3, as amended: for a table of non-negative counts with [a = 0] the raw
    value is the probability of drawing no annotated feature at all,
    [C(b+d, b) / C(b+c+d, b)]; it equals 1 exactly when the feature set is
    empty ([b = 0]) or the term annotates no feature ([c = 0]). *)
Theorem raw_p_value_without_overlap (b c d : Z) :
  valid_table 0 b c d →
  raw_p_value_of {| a := 0; b := b; c := c; d := d |}
  = (Qc_of_Z (choose (Z.to_nat (b + d)) (Z.to_nat b))
     / Qc_of_Z (choose (Z.to_nat (b + c + d)) (Z.to_nat b)))%Qc
  ∧ (raw_p_value_of {| a := 0; b := b; c := c; d := d |} = 1%Qc
     ↔ b = 0%Z ∨ c = 0%Z).
Proof.
  intros Hvalid.
  assert (raw_p_value_of {| a := 0; b := b; c := c; d := d |}
          = (Qc_of_Z (choose (Z.to_nat (b + d)) (Z.to_nat b))
             / Qc_of_Z (choose (Z.to_nat (b + c + d)) (Z.to_nat b)))%Qc) as ->.
  { unfold raw_p_value_of. cbn [Enrichment.a Enrichment.b Enrichment.c
      Enrichment.d].
    rewrite (left_tail_all_counts 0 b c d Hvalid).
    unfold under_representation_probability, point_probability.
    rewrite Qc_sum_hypergeometric.
    change (Z.to_nat 0) with 0. rewrite Zsum_filter_le_0.
    unfold ways, drawn, annotated, population.
    rewrite choose_0_r, Nat.sub_0_r, Z.mul_1_l.
    destruct Hvalid as (_ & ? & ? & ?).
    replace (Z.to_nat (0 + b + c + d) - Z.to_nat (0 + c))
      with (Z.to_nat (b + d)) by lia.
    by rewrite !Z.add_0_l. }
  split; [done|].
  destruct Hvalid as (_ & Hb & Hc & Hd).
  rewrite Qcdiv_eq_1 by (apply Qc_of_Z_choose_ne_0; lia).
  rewrite Z2Qc_inj_iff. split.
  - intros Heq.
    destruct (decide (b = 0%Z)) as [|Hb0]; [by left|].
    destruct (decide (c = 0%Z)) as [|Hc0]; [by right|].
    pose proof (choose_lt_add (Z.to_nat (b + d)) (Z.to_nat b) (Z.to_nat c)
                  ltac:(lia) ltac:(lia)) as Hlt.
    replace (Z.to_nat (b + d) + Z.to_nat c) with (Z.to_nat (b + c + d))
      in Hlt by lia.
    lia.
  - intros [-> | ->].
    + by rewrite !choose_0_r.
    + by rewrite Z.add_0_r.
Qed.

Lemma raw_p_value_without_overlap_witness :
  valid_table 0 2 0 3
  ∧ raw_p_value_of {| a := 0; b := 2; c := 0; d := 3 |}
    = (Qc_of_Z (choose (Z.to_nat (2 + 3)) (Z.to_nat 2))
       / Qc_of_Z (choose (Z.to_nat (2 + 0 + 3)) (Z.to_nat 2)))%Qc
  ∧ (raw_p_value_of {| a := 0; b := 2; c := 0; d := 3 |} = 1%Qc
     ↔ 2%Z = 0%Z ∨ 0%Z = 0%Z).
Proof.
  assert (Hvalid : valid_table 0 2 0 3) by (unfold valid_table; lia).
  split; [exact Hvalid|].
  apply (raw_p_value_without_overlap 2 0 3 Hvalid).
Defined.

(** C3 as stated fails: the table (0, 5, 1, 0) has no overlap and its raw
    value is 1/6. *)
Lemma raw_p_value_without_overlap_not_1 :
  ¬ (valid_table 0 5 1 0 →
     raw_p_value_of {| a := 0; b := 5; c := 1; d := 0 |} = 1%Qc).
Proof.
  intros Hclaim.
  assert (Hvalid : valid_table 0 5 1 0) by (unfold valid_table; lia).
  specialize (Hclaim Hvalid). revert Hclaim.
  apply Qc_ne_by_value. vm_compute. discriminate.
Qed.

End exact_test_theorems.

Section rational_facts.
Import Stats StatsSpec.
Local Open Scope Qc_scope.

Lemma Qc_of_nat_pos (i : nat) : (0 < i)%nat → 0 < Qc_of_nat i.
Proof.
  intros Hi. unfold Qc_of_nat. rewrite <-Z2Qc_inj_0, <-Z2Qc_inj_lt. lia.
Qed.

Lemma Qc_of_nat_le (i j : nat) : (i ≤ j)%nat → Qc_of_nat i ≤ Qc_of_nat j.
Proof. intros Hij. unfold Qc_of_nat. rewrite <-Z2Qc_inj_le. lia. Qed.

Lemma Qc_of_nat_nonneg (i : nat) : 0 ≤ Qc_of_nat i.
Proof. unfold Qc_of_nat. rewrite <-Z2Qc_inj_0, <-Z2Qc_inj_le. lia. Qed.

Lemma Qcdiv_le_mono_denominator (x y z : Qc) :
  0 ≤ x → 0 < y → y ≤ z → x / z ≤ x / y.
Proof.
  intros Hx Hy Hyz.
  assert (0 < z) as Hz by (by eapply Qclt_le_trans).
  apply (Qcmult_le_mono_pos_r _ _ (y * z)); [by apply Qcmult_pos_pos|].
  replace (x / z * (y * z)) with (x * y)
    by (field; by apply not_symmetry, Qclt_not_eq).
  replace (x / y * (y * z)) with (x * z)
    by (field; by apply not_symmetry, Qclt_not_eq).
  by apply Qcmult_le_mono_nonneg_l.
Qed.

Lemma Qcdiv_ge_1 (x y : Qc) : 0 < y → y ≤ x → 1 ≤ x / y.
Proof.
  intros Hy Hyx.
  apply (Qcmult_le_mono_pos_r _ _ y); [done|].
  replace (x / y * y) with x by (field; by apply not_symmetry, Qclt_not_eq).
  by rewrite Qcmult_1_l.
Qed.

Lemma Qcmult_ge_self (q x : Qc) : 1 ≤ q → 0 ≤ x → x ≤ q * x.
Proof.
  intros Hq Hx. rewrite <-(Qcmult_1_l x) at 1.
  by apply Qcmult_le_mono_nonneg_r.
Qed.

Lemma Qc_min_le_l x y : Qc_min x y ≤ x.
Proof.
  unfold Qc_min. case_decide as H; [done|].
  by apply Qclt_le_weak, Qclt_nge.
Qed.

Lemma Qc_min_le_r x y : Qc_min x y ≤ y.
Proof. unfold Qc_min. by case_decide. Qed.

Lemma Qc_min_case x y : Qc_min x y = x ∨ Qc_min x y = y.
Proof. unfold Qc_min. case_decide; auto. Qed.

Lemma Qc_min_glb x y z : z ≤ x → z ≤ y → z ≤ Qc_min x y.
Proof. unfold Qc_min. by case_decide. Qed.

Lemma Qc_min_mono x y y' : y ≤ y' → Qc_min x y ≤ Qc_min x y'.
Proof.
  intros Hy. apply Qc_min_glb; [apply Qc_min_le_l|].
  by etrans; [apply Qc_min_le_r|].
Qed.

Lemma Qc_min_r x y : y ≤ x → Qc_min x y = y.
Proof.
  intros Hyx. apply (anti_symm Qcle); [apply Qc_min_le_r|].
  by apply Qc_min_glb.
Qed.

(** The minimum of a seed and a list: a lower bound that is attained. *)
Lemma foldr_Qc_min_le_seed z l : foldr Qc_min z l ≤ z.
Proof.
  induction l as [|y l IH]; simpl; [done|].
  by etrans; [apply Qc_min_le_r|].
Qed.

Lemma foldr_Qc_min_le z l y : y ∈ l → foldr Qc_min z l ≤ y.
Proof.
  induction l as [|y' l IH]; simpl; [by intros ?%elem_of_nil|].
  intros [->|Hin]%elem_of_cons; [apply Qc_min_le_l|].
  etrans; [apply Qc_min_le_r|]. by apply IH.
Qed.

Lemma foldr_Qc_min_attained z l :
  foldr Qc_min z l = z ∨ foldr Qc_min z l ∈ l.
Proof.
  induction l as [|y l IH]; simpl; [by left|].
  destruct (Qc_min_case y (foldr Qc_min z l)) as [->| ->].
  - right. by left.
  - destruct IH as [?|?]; [by left|]. right. by right.
Qed.

Lemma length_cummin_from m l : length (cummin_from m l) = length l.
Proof. revert m. induction l as [|x l IH]; intros m; simpl; by rewrite ?IH. Qed.

Lemma length_cummin l : length (cummin l) = length l.
Proof. destruct l; simpl; by rewrite ?length_cummin_from. Qed.

Lemma cummin_from_lookup m l t c :
  cummin_from m l !! t = Some c →
  c ≤ m
  ∧ (∀ r w, (r ≤ t)%nat → l !! r = Some w → c ≤ w)
  ∧ (c = m ∨ ∃ r, (r ≤ t)%nat ∧ l !! r = Some c).
Proof.
  revert m t. induction l as [|x l IH]; intros m t; simpl; [done|].
  destruct t as [|t]; simpl.
  - intros [= <-]. split; [apply Qc_min_le_l|]. split.
    + intros [|r] w Hr; [|lia]. simpl. intros [= <-]. apply Qc_min_le_r.
    + destruct (Qc_min_case m x) as [->| ->]; [by left|].
      right. exists 0%nat. by split.
  - intros (Hm & Hlb & Hatt)%IH. split; [|split].
    + by etrans; [|apply Qc_min_le_l].
    + intros [|r] w Hr; simpl.
      * intros [= <-]. by etrans; [|apply Qc_min_le_r].
      * apply Hlb. lia.
    + destruct Hatt as [->|(r & Hr & Hlook)].
      * destruct (Qc_min_case m x) as [->| ->]; [by left|].
        right. exists 0%nat. split; [lia|done].
      * right. exists (S r). split; [lia|done].
Qed.

(** [cummin(w)[t]] is the minimum of [w[0..t]]. *)
Lemma cummin_lookup l t c :
  cummin l !! t = Some c →
  (∀ r w, (r ≤ t)%nat → l !! r = Some w → c ≤ w)
  ∧ (∃ r, (r ≤ t)%nat ∧ l !! r = Some c).
Proof.
  destruct l as [|x l]; simpl; [done|].
  destruct t as [|t]; simpl.
  - intros [= <-]. split.
    + intros [|r] w Hr; [|lia]. by intros [= <-].
    + exists 0%nat. by split.
  - intros (Hm & Hlb & Hatt)%cummin_from_lookup. split.
    + intros [|r] w Hr; simpl; [by intros [= <-]|]. apply Hlb. lia.
    + destruct Hatt as [->|(r & Hr & Hlook)].
      * exists 0%nat. split; [lia|done].
      * exists (S r). split; [lia|done].
Qed.

End rational_facts.

Section sorted_lookup.
Context {A} (R : relation A).

Lemma StronglySorted_lookup l s t x y :
  StronglySorted R l → s < t → l !! s = Some x → l !! t = Some y → R x y.
Proof.
  intros Hl. revert s t. induction Hl as [|z l Hl IH Hz]; intros s t Hst.
  - by rewrite lookup_nil.
  - destruct t as [|t]; [lia|]. destruct s as [|s]; simpl.
    + intros [= ->] Hy. rewrite Forall_forall in Hz.
      apply Hz. by eapply list_elem_of_lookup_2.
    + apply IH. lia.
Qed.

(** Sortedness carries over to a second relation that follows from the
    first on the elements of the list. *)
Lemma StronglySorted_impl_elem_of (R' : relation A) l :
  (∀ x y, x ∈ l → y ∈ l → R x y → R' x y) →
  StronglySorted R l → StronglySorted R' l.
Proof.
  intros Himpl Hl. induction Hl as [|z l Hl IH Hz]; [constructor|].
  constructor.
  - apply IH. intros x y Hx Hy. apply Himpl; by right.
  - rewrite Forall_forall in Hz |- *. intros y Hy.
    apply Himpl; [by left|by right|by apply Hz].
Qed.
End sorted_lookup.

Section decreasing_vector.
Import Stats StatsSpec.
Local Open Scope Qc_scope.

Lemma length_weighted L : length (weighted L) = length L.
Proof.
  unfold weighted. rewrite length_zip_with, length_reverse, length_seq. lia.
Qed.

Lemma weighted_lookup L r :
  weighted L !! r
  = (λ x, Qc_of_nat (length L) / Qc_of_nat (length L - r) * x) <$> L !! r.
Proof.
  unfold weighted. rewrite lookup_zip_with.
  destruct (L !! r) as [x|] eqn:Hx.
  - apply lookup_lt_Some in Hx as Hr.
    rewrite reverse_lookup by (rewrite length_seq; lia).
    rewrite length_seq, lookup_seq_lt by lia. simpl.
    do 4 f_equal. lia.
  - simpl. by destruct (reverse _ !! r).
Qed.

Lemma length_adjusted_decreasing L :
  length (adjusted_decreasing L) = length L.
Proof.
  unfold adjusted_decreasing, pmin.
  by rewrite length_fmap, length_cummin, length_weighted.
Qed.

Lemma adjusted_decreasing_lookup L t :
  adjusted_decreasing L !! t = Qc_min 1 <$> cummin (weighted L) !! t.
Proof. unfold adjusted_decreasing, pmin. by rewrite list_lookup_fmap. Qed.

Section sorted.
Context (L : list Qc).
Context (Hsorted : StronglySorted (flip Qcle) L).
Context (Hnonneg : Forall (λ x, 0 ≤ x) L).

Lemma decreasing_lookup_le s t x y :
  (s ≤ t)%nat → L !! s = Some x → L !! t = Some y → y ≤ x.
Proof using Hsorted.
  intros Hst Hs Ht. destruct (decide (s = t)) as [->|Hne].
  - rewrite Hs in Ht. by injection Ht as ->.
  - apply (StronglySorted_lookup (flip Qcle) L s t x y); [done|lia|done..].
Qed.

Lemma lookup_nonneg s x : L !! s = Some x → 0 ≤ x.
Proof using Hnonneg.
  intros Hs. rewrite Forall_forall in Hnonneg.
  apply Hnonneg. by eapply list_elem_of_lookup_2.
Qed.

(** Among equal values, a later position has the larger weight. *)
Lemma weighted_same_value s r x ws wr :
  (s ≤ r)%nat → L !! s = Some x → L !! r = Some x →
  weighted L !! s = Some ws → weighted L !! r = Some wr → ws ≤ wr.
Proof using Hnonneg.
  intros Hsr Hs Hr. rewrite !weighted_lookup, Hs, Hr. simpl.
  intros [= <-] [= <-].
  apply lookup_lt_Some in Hr as Hlt.
  apply Qcmult_le_mono_nonneg_r; [by eapply lookup_nonneg|].
  apply Qcdiv_le_mono_denominator.
  - apply Qc_of_nat_nonneg.
  - apply Qc_of_nat_pos. lia.
  - apply Qc_of_nat_le. lia.
Qed.

(** Every weighted value is at least the raw value it comes from. *)
Lemma weighted_ge_raw r x w :
  L !! r = Some x → weighted L !! r = Some w → x ≤ w.
Proof using Hnonneg.
  intros Hr. rewrite weighted_lookup, Hr. simpl. intros [= <-].
  apply lookup_lt_Some in Hr as Hlt.
  apply Qcmult_ge_self; [|by eapply lookup_nonneg].
  apply Qcdiv_ge_1; [apply Qc_of_nat_pos; lia|apply Qc_of_nat_le; lia].
Qed.

(** The cumulative minimum follows the raw values: a position with a
    smaller or equal raw value has a smaller or equal cumulative minimum,
    wherever the two positions are. *)
Lemma cummin_weighted_mono s t x y cs ct :
  L !! s = Some x → L !! t = Some y → x ≤ y →
  cummin (weighted L) !! s = Some cs → cummin (weighted L) !! t = Some ct →
  cs ≤ ct.
Proof using Hsorted Hnonneg.
  intros Hs Ht Hxy [Hlb_s Hatt_s]%cummin_lookup [Hlb_t Hatt_t]%cummin_lookup.
  destruct Hatt_t as (r & Hrt & Hwr).
  destruct (decide (r ≤ s)%nat) as [Hrs|Hrs].
  { by apply (Hlb_s r). }
  assert (is_Some (L !! r)) as [z Hz].
  { apply lookup_lt_is_Some. apply lookup_lt_Some in Ht. lia. }
  assert (z = x) as ->.
  { apply (anti_symm Qcle).
    - apply (decreasing_lookup_le s r); [lia|done..].
    - etrans; [exact Hxy|]. by apply (decreasing_lookup_le r t). }
  assert (is_Some (weighted L !! s)) as [ws Hws].
  { rewrite weighted_lookup, Hs. by eexists. }
  etrans; [by apply (Hlb_s s ws)|].
  apply (weighted_same_value s r x); [lia|done..].
Qed.

Lemma adjusted_decreasing_mono s t x y vs vt :
  L !! s = Some x → L !! t = Some y → x ≤ y →
  adjusted_decreasing L !! s = Some vs →
  adjusted_decreasing L !! t = Some vt →
  vs ≤ vt.
Proof using Hsorted Hnonneg.
  intros Hs Ht Hxy. rewrite !adjusted_decreasing_lookup.
  destruct (cummin (weighted L) !! s) as [cs|] eqn:Hcs; [|done].
  destruct (cummin (weighted L) !! t) as [ct|] eqn:Hct; [|done].
  simpl. intros [= <-] [= <-]. apply Qc_min_mono.
  by apply (cummin_weighted_mono s t x y).
Qed.

Lemma adjusted_decreasing_same s t x vs vt :
  L !! s = Some x → L !! t = Some x →
  adjusted_decreasing L !! s = Some vs →
  adjusted_decreasing L !! t = Some vt →
  vs = vt.
Proof using Hsorted Hnonneg.
  intros Hs Ht Hvs Hvt. apply (anti_symm Qcle).
  - by apply (adjusted_decreasing_mono s t x x).
  - by apply (adjusted_decreasing_mono t s x x).
Qed.

Lemma adjusted_decreasing_ge_raw s x v :
  x ≤ 1 → L !! s = Some x → adjusted_decreasing L !! s = Some v → x ≤ v.
Proof using Hsorted Hnonneg.
  intros Hx1 Hs. rewrite adjusted_decreasing_lookup.
  destruct (cummin (weighted L) !! s) as [cs|] eqn:Hcs; [|done].
  simpl. intros [= <-]. apply Qc_min_glb; [done|].
  apply cummin_lookup in Hcs as [_ (r & Hrs & Hwr)].
  assert (is_Some (L !! r)) as [z Hz].
  { apply lookup_lt_is_Some. apply lookup_lt_Some in Hs. lia. }
  etrans; [by apply (decreasing_lookup_le r s z x)|].
  by apply (weighted_ge_raw r).
Qed.

(** When no raw value exceeds 1, the cap of [pmin] never applies. *)
Lemma adjusted_decreasing_uncapped t :
  Forall (λ x, x ≤ 1) L →
  adjusted_decreasing L !! t = cummin (weighted L) !! t.
Proof using Hsorted Hnonneg.
  intros Hle1. rewrite adjusted_decreasing_lookup.
  destruct (cummin (weighted L) !! t) as [ct|] eqn:Hct; [|done].
  simpl. f_equal. apply Qc_min_r.
  apply cummin_lookup in Hct as Hct'. destruct Hct' as [Hlb _].
  apply lookup_lt_Some in Hct. rewrite length_cummin, length_weighted in Hct.
  destruct L as [|x0 L'] eqn:HL; [simpl in Hct; lia|]. rewrite <-HL in *.
  assert (L !! 0%nat = Some x0) as H0 by (by rewrite HL).
  etrans; [apply (Hlb 0%nat (Qc_of_nat (length L) / Qc_of_nat (length L - 0) * x0))|].
  - lia.
  - by rewrite weighted_lookup, H0.
  - rewrite Nat.sub_0_r.
    replace (Qc_of_nat (length L) / Qc_of_nat (length L) * x0) with x0.
    + rewrite Forall_forall in Hle1. apply Hle1. by eapply list_elem_of_lookup_2.
    + field. apply not_symmetry, Qclt_not_eq, Qc_of_nat_pos.
      rewrite HL. simpl. lia.
Qed.
End sorted.

End decreasing_vector.

Section order_facts.
Import Stats StatsSpec.
Context {X : Type} (R : relation X) `{!RelDecision R, !Total R}.
Context (dflt : X) (x : list X).

Local Instance by_value_total : Total (by_value R dflt x).
Proof. intros i j. apply (total R). Qed.

Lemma order_Permutation : order R dflt x ≡ₚ seq 0 (length x).
Proof. apply merge_sort_Permutation. Qed.

Lemma length_order : length (order R dflt x) = length x.
Proof. by rewrite order_Permutation, length_seq. Qed.

Lemma fmap_lookup_seq :
  (λ k, default dflt (x !! k)) <$> seq 0 (length x) = x.
Proof.
  apply list_eq. intros i. rewrite list_lookup_fmap.
  destruct (decide (i < length x)) as [Hi|Hi].
  - rewrite lookup_seq_lt by done. simpl.
    apply lookup_lt_is_Some in Hi as [y Hy]. by rewrite Hy.
  - rewrite lookup_seq_ge by lia. simpl. symmetry.
    apply lookup_ge_None. lia.
Qed.

Lemma order_values_Sorted :
  Sorted R ((λ k, default dflt (x !! k)) <$> order R dflt x).
Proof.
  apply (Sorted_fmap _ (by_value R dflt x) R); [done|].
  apply (Sorted_merge_sort (by_value R dflt x)).
Qed.

Lemma order_values_Permutation :
  (λ k, default dflt (x !! k)) <$> order R dflt x ≡ₚ x.
Proof. by rewrite order_Permutation, fmap_lookup_seq. Qed.

End order_facts.

Section p_adjust_facts.
Import Stats StatsSpec.

Lemma Sorted_le_seq a n : Sorted le (seq a n).
Proof.
  revert a. induction n as [|n IH]; intros a; simpl; constructor; [done|].
  destruct n; simpl; constructor. lia.
Qed.

(** [order(o)] inverts a permutation [o] of the indices. *)
Lemma order_inverse (o : list nat) n j :
  o ≡ₚ seq 0 n → j < n →
  ∃ s, order le 0 o !! j = Some s ∧ o !! s = Some j.
Proof.
  intros Hperm Hj.
  assert (length o = n) as Hlen by (by rewrite Hperm, length_seq).
  assert ((λ k, default 0 (o !! k)) <$> order le 0 o = seq 0 n) as Hvals.
  { apply (Sorted_unique le).
    - apply order_values_Sorted; apply _.
    - apply Sorted_le_seq.
    - by rewrite order_values_Permutation. }
  assert (((λ k, default 0 (o !! k)) <$> order le 0 o) !! j = Some j) as Hlook.
  { rewrite Hvals. by apply lookup_seq_lt. }
  rewrite list_lookup_fmap in Hlook.
  destruct (order le 0 o !! j) as [s|] eqn:Hs; [|done].
  exists s. split; [done|]. simpl in Hlook. injection Hlook as Hlook.
  assert (s < length o) as Hslt.
  { apply list_elem_of_lookup_2 in Hs. rewrite order_Permutation in Hs.
    apply elem_of_seq in Hs. lia. }
  apply lookup_lt_is_Some in Hslt as [y Hy]. rewrite Hy in Hlook |- *.
  simpl in Hlook. by subst y.
Qed.

Lemma length_decreasing p : length (decreasing p) = length p.
Proof. unfold decreasing, subscript. by rewrite length_fmap, length_order. Qed.

Lemma decreasing_Permutation p : decreasing p ≡ₚ p.
Proof. apply order_values_Permutation. Qed.

Local Instance flip_Qcle_total : Total (flip Qcle).
Proof. intros x y. destruct (total Qcle x y); auto. Qed.

Lemma decreasing_Sorted p : StronglySorted (flip Qcle) (decreasing p).
Proof.
  apply Sorted_StronglySorted; [apply _|].
  apply (order_values_Sorted (flip Qcle)); apply _.
Qed.

Lemma p_adjust_small p : length p ≤ 1 → p_adjust p = p.
Proof. intros Hp. unfold p_adjust. by rewrite decide_True. Qed.

Lemma p_adjust_large p :
  1 < length p →
  p_adjust p
  = subscript (adjusted_decreasing (decreasing p))
              (order le 0 (order (flip Qcle) 0%Qc p)).
Proof.
  intros Hp. unfold p_adjust. rewrite decide_False by lia.
  unfold adjusted_decreasing, weighted. by rewrite length_decreasing.
Qed.

Lemma length_p_adjust p : length (p_adjust p) = length p.
Proof.
  destruct (decide (length p ≤ 1)) as [Hp|Hp].
  - by rewrite p_adjust_small.
  - rewrite p_adjust_large by lia. unfold subscript.
    by rewrite length_fmap, !length_order.
Qed.

(** The adjusted value returned for position [j] is the one computed at
    the position where [p[j]] stands in the decreasing vector. *)
Lemma p_adjust_lookup p j x :
  1 < length p → p !! j = Some x →
  ∃ s, decreasing p !! s = Some x
       ∧ p_adjust p !! j = adjusted_decreasing (decreasing p) !! s.
Proof.
  intros Hp Hj. apply lookup_lt_Some in Hj as Hjlt.
  destruct (order_inverse (order (flip Qcle) 0%Qc p) (length p) j)
    as (s & Hro & Hos); [apply order_Permutation|done|].
  exists s. split.
  - unfold decreasing, subscript. rewrite list_lookup_fmap, Hos. simpl.
    by rewrite Hj.
  - rewrite p_adjust_large by done. unfold subscript.
    rewrite list_lookup_fmap, Hro. simpl.
    apply lookup_lt_Some in Hos. rewrite length_order in Hos.
    assert (is_Some (adjusted_decreasing (decreasing p) !! s)) as [v Hv].
    { apply lookup_lt_is_Some.
      by rewrite length_adjusted_decreasing, length_decreasing. }
    by rewrite Hv.
Qed.

End p_adjust_facts.

Section p_adjust_properties.
Import Stats StatsSpec.
Local Open Scope Qc_scope.

Lemma probability_nonneg p :
  Forall probability p → Forall (λ x, 0 ≤ x) (decreasing p).
Proof.
  intros Hp. rewrite decreasing_Permutation.
  eapply Forall_impl; [exact Hp|]. by intros x [? _].
Qed.

Lemma probability_le_1 p :
  Forall probability p → Forall (λ x, x ≤ 1) (decreasing p).
Proof.
  intros Hp. rewrite decreasing_Permutation.
  eapply Forall_impl; [exact Hp|]. by intros x [_ ?].
Qed.

(** Adjusted values follow the raw values. *)
Lemma p_adjust_mono p j k x y aj ak :
  Forall probability p →
  p !! j = Some x → p !! k = Some y → x ≤ y →
  p_adjust p !! j = Some aj → p_adjust p !! k = Some ak →
  aj ≤ ak.
Proof.
  intros Hp Hj Hk Hxy. destruct (decide (length p ≤ 1)%nat) as [Hn|Hn].
  - rewrite p_adjust_small, Hj, Hk by done. by intros [= <-] [= <-].
  - destruct (p_adjust_lookup p j x) as (s & Hs & ->); [lia|done|].
    destruct (p_adjust_lookup p k y) as (t & Ht & ->); [lia|done|].
    intros Hvs Hvt.
    by apply (adjusted_decreasing_mono (decreasing p) (decreasing_Sorted p)
                (probability_nonneg p Hp) s t x y).
Qed.

(** Equal raw values have equal adjusted values, wherever they stand. *)
Lemma p_adjust_same p j k x aj ak :
  Forall probability p →
  p !! j = Some x → p !! k = Some x →
  p_adjust p !! j = Some aj → p_adjust p !! k = Some ak →
  aj = ak.
Proof.
  intros Hp Hj Hk Haj Hak. apply (anti_symm Qcle).
  - by apply (p_adjust_mono p j k x x).
  - by apply (p_adjust_mono p k j x x).
Qed.

Lemma p_adjust_ge_raw p j x aj :
  Forall probability p →
  p !! j = Some x → p_adjust p !! j = Some aj → x ≤ aj.
Proof.
  intros Hp Hj. destruct (decide (length p ≤ 1)%nat) as [Hn|Hn].
  - rewrite p_adjust_small, Hj by done. by intros [= <-].
  - destruct (p_adjust_lookup p j x) as (s & Hs & ->); [lia|done|].
    apply (adjusted_decreasing_ge_raw (decreasing p) (decreasing_Sorted p)
             (probability_nonneg p Hp)); [|done].
    rewrite Forall_forall in Hp. apply Hp. by eapply list_elem_of_lookup_2.
Qed.

Lemma Qc_of_nat_1 : Qc_of_nat 1 = 1.
Proof. unfold Qc_of_nat. apply Z2Qc_inj_1. Qed.

(** The weighted value at position [r] of the decreasing vector is the term
    of rank [n - r] of the ascending one. *)
Lemma weighted_bh_term L r :
  (r < length L)%nat →
  weighted L !! r = Some (bh_term (reverse L) (length L - r)).
Proof.
  intros Hr. rewrite weighted_lookup.
  apply lookup_lt_is_Some in Hr as Hx. destruct Hx as [x Hx].
  rewrite Hx. simpl. f_equal. unfold bh_term.
  rewrite length_reverse, reverse_lookup by lia.
  replace (length L - S (length L - r - 1))%nat with r by lia.
  rewrite Hx. simpl. unfold Qcdiv. ring.
Qed.

(** The cumulative minimum at position [t] of the decreasing vector is the
    Benjamini-Hochberg value of rank [n - t] of the ascending vector. *)
Lemma cummin_bh_adjusted L t ct :
  cummin (weighted L) !! t = Some ct →
  ct = bh_adjusted (reverse L) (length L - t).
Proof.
  intros Hct. apply lookup_lt_Some in Hct as Ht.
  rewrite length_cummin, length_weighted in Ht.
  apply cummin_lookup in Hct as [Hlb (r & Hrt & Hwr)].
  unfold bh_adjusted. rewrite length_reverse.
  set (n := length L) in *. apply (anti_symm Qcle).
  - destruct (foldr_Qc_min_attained (bh_term (reverse L) n)
                (bh_term (reverse L) <$> seq (n - t) (n - (n - t))))
      as [->|Hin].
    + apply (Hlb 0%nat); [lia|].
      rewrite weighted_bh_term by (unfold n in Ht; lia).
      by rewrite Nat.sub_0_r.
    + apply list_elem_of_fmap in Hin as (k' & Hk' & [Hk1 Hk2]%elem_of_seq).
      rewrite Hk'. apply (Hlb (n - k')%nat); [lia|].
      rewrite weighted_bh_term by (unfold n in *; lia).
      do 2 f_equal. unfold n in *. lia.
  - rewrite weighted_bh_term in Hwr by (unfold n in *; lia).
    injection Hwr as <-. fold n.
    destruct (decide (r = 0)%nat) as [->|Hr0].
    + rewrite Nat.sub_0_r. apply foldr_Qc_min_le_seed.
    + apply foldr_Qc_min_le. apply list_elem_of_fmap.
      exists (n - r)%nat. split; [done|]. apply elem_of_seq. lia.
Qed.

Local Instance flip_Qcle_antisymm : AntiSymm (=) (flip Qcle).
Proof. intros x y Hxy Hyx. by apply (anti_symm Qcle). Qed.

(** The ascending vector is the decreasing one read backwards, whatever the
    order given to equal values. *)
Lemma ascending_reverse_decreasing p A :
  A ≡ₚ p → Sorted Qcle A → A = reverse (decreasing p).
Proof.
  intros Hperm Hsorted. rewrite <-(reverse_involutive A). f_equal.
  apply (Sorted_unique (flip Qcle)).
  - by apply Sorted_reverse.
  - apply StronglySorted_Sorted, decreasing_Sorted.
  - by rewrite reverse_Permutation, Hperm, decreasing_Permutation.
Qed.

(** On probabilities, [p.adjust] computes the adjustment of the
    specification: the value returned for a raw value that stands at
    (0-based) position [k] of any ascending arrangement of the batch is the
    minimum of [p_(k') * m / k'] over the ranks [k' >= k + 1]. *)
Lemma p_adjust_bh p A k j x :
  Forall probability p →
  A ≡ₚ p → Sorted Qcle A → A !! k = Some x → p !! j = Some x →
  p_adjust p !! j = Some (bh_adjusted A (S k)).
Proof.
  intros Hp Hperm Hsorted Hk Hj.
  assert (length A = length p) as Hlen by (by rewrite Hperm).
  apply lookup_lt_Some in Hk as Hklt.
  destruct (decide (length p ≤ 1)%nat) as [Hn|Hn].
  - rewrite p_adjust_small, Hj by done. f_equal.
    assert (k = 0%nat) as -> by lia.
    unfold bh_adjusted, bh_term.
    replace (length A) with 1%nat by lia. simpl. rewrite Hk. simpl.
    rewrite Qc_of_nat_1, Qcmult_1_r. symmetry. apply (right_id _ Qcdiv).
  - destruct (p_adjust_lookup p j x) as (s & Hs & ->); [lia|done|].
    pose proof (ascending_reverse_decreasing p A Hperm Hsorted) as HA.
    set (L := decreasing p) in *.
    assert (length L = length p) as HL by apply length_decreasing.
    set (t := (length L - S k)%nat).
    assert (L !! t = Some x) as Ht.
    { rewrite HA, reverse_lookup in Hk by lia. done. }
    assert (is_Some (adjusted_decreasing L !! s)) as [vs Hvs].
    { apply lookup_lt_is_Some. rewrite length_adjusted_decreasing.
      by apply lookup_lt_Some in Hs. }
    assert (is_Some (adjusted_decreasing L !! t)) as [vt Hvt].
    { apply lookup_lt_is_Some. rewrite length_adjusted_decreasing.
      by apply lookup_lt_Some in Ht. }
    rewrite Hvs. f_equal.
    rewrite (adjusted_decreasing_same L (decreasing_Sorted p)
               (probability_nonneg p Hp) s t x vs vt) by done.
    rewrite (adjusted_decreasing_uncapped L (decreasing_Sorted p)
               (probability_nonneg p Hp) t (probability_le_1 p Hp)) in Hvt.
    apply cummin_bh_adjusted in Hvt. rewrite Hvt, HA. f_equal.
    unfold t. lia.
Qed.

End p_adjust_properties.

Section correction_loop.
Import Stats StatsSpec Enrichment EnrichmentSpec.

Lemma looked_up_first_occurrence all_raw x a :
  looked_up all_raw x = Some a →
  ∃ pos, first_occurrence x all_raw pos ∧ p_adjust all_raw !! pos = Some a.
Proof.
  unfold looked_up.
  destruct (list_find _ all_raw) as [[pos y]|] eqn:Hfind; [|done].
  intros Ha. apply list_find_Some in Hfind as (Hpos & -> & Hfirst).
  exists pos. split; [|done]. split; [done|].
  intros i Hi Hix. by apply (Hfirst i x).
Qed.

Lemma looked_up_elem_of all_raw x :
  x ∈ all_raw → is_Some (looked_up all_raw x).
Proof.
  intros Hx. unfold looked_up.
  destruct (list_find_elem_of (λ y, y = x) all_raw x Hx eq_refl)
    as [[pos y] Hfind].
  rewrite Hfind. apply lookup_lt_is_Some. rewrite length_p_adjust.
  apply list_find_Some in Hfind as (Hpos & _). by eapply lookup_lt_Some.
Qed.

Lemma adjust_step_looked_up terms all_raw em t x a :
  looked_up all_raw x = Some a →
  adjust_step terms all_raw (p_adjust all_raw) em (t, x)
  = Returned (<[t := {| raw_p_value := x; adjusted_p_value := a;
                        go_term := terms !! t |}]> em).
Proof.
  unfold looked_up, adjust_step, index, getitem.
  destruct (list_find _ all_raw) as [[pos y]|]; [|done]. simpl.
  by intros ->.
Qed.

Lemma adjust_loop_returns terms all_raw items em0 :
  NoDup items.*1 →
  (∀ t x, (t, x) ∈ items → x ∈ all_raw) →
  ∃ em,
    for_each (adjust_step terms all_raw (p_adjust all_raw)) em0 items
    = Returned em
    ∧ ∀ t e, em !! t = Some e ↔
        (∃ x a, (t, x) ∈ items ∧ looked_up all_raw x = Some a
                ∧ e = {| raw_p_value := x; adjusted_p_value := a;
                         go_term := terms !! t |})
        ∨ ((t ∉ items.*1) ∧ em0 !! t = Some e).
Proof.
  revert em0. induction items as [|[t0 x0] items IH]; intros em0 Hnd Hin.
  - exists em0. split; [done|]. intros t e. split.
    + intros He. right. split; [apply not_elem_of_nil|done].
    + intros [(x & a & Hx & _)|[_ He]]; [by apply elem_of_nil in Hx|done].
  - rewrite fmap_cons in Hnd. apply NoDup_cons in Hnd as [Hfresh Hnd].
    destruct (looked_up_elem_of all_raw x0) as [a0 Ha0].
    { apply (Hin t0). by left. }
    destruct (IH (<[t0 := {| raw_p_value := x0; adjusted_p_value := a0;
                             go_term := terms !! t0 |}]> em0) Hnd)
      as (em & Hrun & Hem).
    { intros t x Htx. apply (Hin t). by right. }
    exists em. split.
    { cbn [for_each]. by rewrite (adjust_step_looked_up _ _ _ _ _ a0). }
    intros t e. rewrite Hem. rewrite fmap_cons, not_elem_of_cons. cbn [fst].
    split.
    + intros [(x & a & Htx & Ha & ->)|[Hnotin He]].
      * left. exists x, a. split; [by right|done].
      * destruct (decide (t0 = t)) as [<-|Hne].
        -- rewrite lookup_insert_eq in He. injection He as <-.
           left. exists x0, a0. split; [by left|done].
        -- rewrite lookup_insert_ne in He by done. right. by repeat split.
    + intros [(x & a & Htx & Ha & ->)|[[Hne Hnotin] He]].
      * apply elem_of_cons in Htx as [[= -> ->]|Htx].
        -- right. split; [done|]. rewrite lookup_insert_eq.
           rewrite Ha0 in Ha. by injection Ha as ->.
        -- left. by exists x, a.
      * right. split; [done|]. by rewrite lookup_insert_ne.
Qed.

Lemma batch_elem_of go_raw all_raw t x :
  batch go_raw all_raw → go_raw !! t = Some x → x ∈ all_raw.
Proof.
  unfold batch. intros -> Htx. apply list_elem_of_fmap.
  exists (t, x). split; [done|]. by apply elem_of_map_to_list.
Qed.

(** The second loop never raises on a batch, and pairs every term with the
    adjusted value found through the first occurrence of its raw value. *)
Lemma adjust_all_returns terms go_raw all_raw :
  batch go_raw all_raw →
  ∃ em,
    adjust_all terms go_raw all_raw = Returned em
    ∧ ∀ t e, em !! t = Some e ↔
        ∃ x a, go_raw !! t = Some x ∧ looked_up all_raw x = Some a
               ∧ e = {| raw_p_value := x; adjusted_p_value := a;
                        go_term := terms !! t |}.
Proof.
  intros Hbatch. unfold adjust_all.
  destruct (adjust_loop_returns terms all_raw (map_to_list go_raw) ∅)
    as (em & Hrun & Hem).
  { apply NoDup_fst_map_to_list. }
  { intros t x Htx%elem_of_map_to_list. by eapply batch_elem_of. }
  exists em. split; [done|]. intros t e. rewrite Hem. split.
  - intros [(x & a & Htx%elem_of_map_to_list & Ha & ->)|[_ He]].
    + by exists x, a.
    + by rewrite lookup_empty in He.
  - intros (x & a & Htx & Ha & ->). left. exists x, a.
    split; [by apply elem_of_map_to_list|done].
Qed.

Lemma equal_raw_values_domain terms go_raw all_raw :
  batch go_raw all_raw →
  ∃ em, adjust_all terms go_raw all_raw = Returned em ∧ dom em = dom go_raw.
Proof.
  intros Hbatch.
  destruct (adjust_all_returns terms go_raw all_raw Hbatch)
    as (em & Hrun & Hem).
  exists em. split; [done|].
  apply set_eq. intros t. rewrite !elem_of_dom. split.
  - intros [e (x & a & Hx & _)%Hem]. by exists x.
  - intros [x Hx].
    destruct (looked_up_elem_of all_raw x) as [a Ha].
    { by eapply batch_elem_of. }
    eexists. apply Hem. by exists x, a.
Qed.

End correction_loop.

Section correction_theorems.
Import Stats StatsSpec Enrichment EnrichmentSpec.
Local Open Scope Qc_scope.

Lemma tied_ranked_Permutation : tied_ranked ≡ₚ map_to_list tied_batch.
Proof.
  symmetry. apply map_to_list_to_map.
  apply (bool_decide_unpack _). vm_compute. exact I.
Qed.

Lemma tied_batch_is_batch : batch tied_batch tied_raw.
Proof. unfold batch, tied_raw. by rewrite tied_ranked_Permutation. Qed.

Lemma tied_raw_probabilities : Forall probability tied_raw.
Proof. repeat constructor; by vm_compute. Qed.

Lemma tied_ranked_ascending : ascending_by_raw tied_ranked.
Proof. repeat constructor; by vm_compute. Qed.






(** C1: on a batch of probabilities every term receives the adjusted value
    of its own rank: for any listing of the terms in ascending order of
    their raw value, the term at (0-based) position [k] receives the
    Benjamini-Hochberg value of rank [k + 1], the minimum of
    [p_(k') * m / k'] over the ranks [k' >= k + 1]; it is also the value
    [p.adjust] returned at every position of [all_raw_p_value] that holds
    the term's raw value, so ties lose nothing by the lookup. *)
Theorem every_term_receives_value_of_own_rank
    (terms : gmap string string) (go_raw_p_value : gmap string Qc)
    (all_raw_p_value : list Qc) (ranked : list (string * Qc)) :
  batch go_raw_p_value all_raw_p_value →
  Forall probability all_raw_p_value →
  ranked ≡ₚ map_to_list go_raw_p_value →
  ascending_by_raw ranked →
  ∃ em,
    adjust_all terms go_raw_p_value all_raw_p_value = Returned em
    ∧ ∀ k t x, ranked !! k = Some (t, x) →
        ∃ e, em !! t = Some e
             ∧ raw_p_value e = x
             ∧ adjusted_p_value e = bh_adjusted ranked.*2 (S k)
             ∧ ∀ j, all_raw_p_value !! j = Some x →
                    p_adjust all_raw_p_value !! j = Some (adjusted_p_value e).
Proof.
  intros Hbatch Hprob Hperm Hsorted.
  destruct (adjust_all_returns terms go_raw_p_value all_raw_p_value Hbatch)
    as (em & Hrun & Hem).
  exists em. split; [done|]. intros k t x Hk.
  assert (go_raw_p_value !! t = Some x) as Htx.
  { apply elem_of_map_to_list. rewrite <-Hperm.
    by eapply list_elem_of_lookup_2. }
  destruct (looked_up_elem_of all_raw_p_value x) as [a Ha].
  { by eapply batch_elem_of. }
  eexists. split; [apply Hem; by exists x, a|]. simpl. split; [done|].
  apply looked_up_first_occurrence in Ha as (pos & [Hpos _] & Hadj).
  assert (ranked.*2 ≡ₚ all_raw_p_value) as Hvalues.
  { unfold batch in Hbatch. by rewrite Hbatch, Hperm. }
  assert (Sorted Qcle ranked.*2) as Hasc.
  { by apply (Sorted_fmap _ (λ e1 e2 : string * Qc, e1.2 ≤ e2.2)). }
  assert (ranked.*2 !! k = Some x) as Hkx.
  { by rewrite list_lookup_fmap, Hk. }
  pose proof (p_adjust_bh all_raw_p_value ranked.*2 k pos x Hprob Hvalues
                Hasc Hkx Hpos) as Hbh.
  rewrite Hadj in Hbh. injection Hbh as ->. split; [done|].
  intros j Hj.
  by apply (p_adjust_bh all_raw_p_value ranked.*2 k j x).
Qed.

Lemma every_term_receives_value_of_own_rank_witness :
  batch tied_batch tied_raw
  ∧ Forall probability tied_raw
  ∧ tied_ranked ≡ₚ map_to_list tied_batch
  ∧ ascending_by_raw tied_ranked
  ∧ ∃ em,
      adjust_all ∅ tied_batch tied_raw = Returned em
      ∧ ∀ k t x, tied_ranked !! k = Some (t, x) →
          ∃ e, em !! t = Some e
               ∧ raw_p_value e = x
               ∧ adjusted_p_value e = bh_adjusted tied_ranked.*2 (S k)
               ∧ ∀ j, tied_raw !! j = Some x →
                      p_adjust tied_raw !! j = Some (adjusted_p_value e).
Proof.
  split; [exact tied_batch_is_batch|].
  split; [exact tied_raw_probabilities|].
  split; [exact tied_ranked_Permutation|].
  split; [exact tied_ranked_ascending|].
  apply (every_term_receives_value_of_own_rank ∅ tied_batch tied_raw
           tied_ranked tied_batch_is_batch tied_raw_probabilities
           tied_ranked_Permutation tied_ranked_ascending).
Defined.

(** C7, as amended: on an empty batch the correction does not fail; it
    returns an empty vector and the loop produces an empty result, also
    for a genome without features. *)
Theorem empty_batch_returns_empty (terms : gmap string string) :
  p_adjust [] = []
  ∧ adjust_all terms ∅ [] = Returned ∅
  ∧ run_fe1 [] = Returned ∅.
Proof.
  split; [done|]. split.
  - unfold adjust_all. by rewrite map_to_list_empty.
  - unfold run_fe1. cbn [Genome._get_go_maps_from_genome foldl
      Genome.empty_maps Genome.go_id_go_term_map
      Genome.feature_id_feature_info_map Genome.go_id_feature_id_list_map].
    rewrite !map_to_list_empty. cbn. unfold adjust_all.
    by rewrite map_to_list_empty.
Qed.

(** C7 as stated fails: the empty batch raises no [ValidationError]. *)
Lemma empty_batch_raises_nothing :
  ¬ (adjust_all ∅ ∅ [] = Raised ValidationError).
Proof. unfold adjust_all. by rewrite map_to_list_empty. Qed.

End correction_theorems.

Section whole_run.
Import Genome Stats StatsSpec Enrichment EnrichmentSpec.

Lemma batch_empty : batch ∅ [].
Proof. unfold batch. by rewrite map_to_list_empty. Qed.

Lemma batch_insert go_raw all_raw t x :
  go_raw !! t = None → batch go_raw all_raw →
  batch (<[t := x]> go_raw) (all_raw ++ [x]).
Proof.
  unfold batch. intros Hfresh Hbatch.
  rewrite map_to_list_insert by done. rewrite fmap_cons. cbn [snd].
  by rewrite <-Hbatch, (comm (++)).
Qed.

Lemma raw_step_mapped m feature_set_ids feature_ids st t lbl mapped :
  go_id_feature_id_list_map m !! t = Some mapped →
  raw_step m feature_set_ids feature_ids st (t, lbl)
  = Returned
      (<[t := raw_p_value_of
                (contingency mapped feature_set_ids feature_ids)]> st.1,
       st.2 ++ [raw_p_value_of
                  (contingency mapped feature_set_ids feature_ids)]).
Proof. unfold raw_step. by intros ->. Qed.

(** The first loop never raises on the index the builder returns, and
    leaves a batch behind. *)
Lemma raw_loop_returns m feature_set_ids feature_ids items st :
  (∀ t lbl, (t, lbl) ∈ items → is_Some (go_id_feature_id_list_map m !! t)) →
  NoDup items.*1 →
  (∀ t, t ∈ items.*1 → st.1 !! t = None) →
  batch st.1 st.2 →
  ∃ st',
    for_each (raw_step m feature_set_ids feature_ids) st items = Returned st'
    ∧ batch st'.1 st'.2
    ∧ dom st'.1 = dom st.1 ∪ list_to_set items.*1.
Proof.
  revert st. induction items as [|[t lbl] items IH];
    intros st Hmapped Hnd Hfresh Hbatch.
  - exists st. split; [done|]. split; [done|]. set_solver.
  - rewrite fmap_cons in Hnd, Hfresh. cbn [fst] in Hnd, Hfresh.
    apply NoDup_cons in Hnd as [Hnotin Hnd].
    destruct (Hmapped t lbl) as [mapped Hmappedt]; [by left|].
    cbn [for_each]. rewrite (raw_step_mapped _ _ _ _ _ _ mapped Hmappedt).
    set (x := raw_p_value_of _).
    destruct (IH (<[t := x]> st.1, st.2 ++ [x])) as (st' & Hrun & Hb & Hdom).
    + intros t' lbl' Hin. apply (Hmapped t' lbl'). by right.
    + done.
    + intros t' Hin. cbn [fst]. rewrite lookup_insert_ne.
      * apply Hfresh. by right.
      * intros ->. by apply Hnotin.
    + apply batch_insert; [|done]. apply Hfresh. by left.
    + exists st'. split; [done|]. split; [done|].
      rewrite Hdom. cbn [fst]. rewrite dom_insert_L, fmap_cons. set_solver.
Qed.

(** The core of [run_fe1] returns a result for every genome, with one
    record for every term of the index. *)
Lemma run_fe1_returns (genome_features : list genome_feature) :
  ∃ em,
    run_fe1 genome_features = Returned em
    ∧ dom em = dom (go_id_go_term_map (_get_go_maps_from_genome genome_features)).
Proof.
  unfold run_fe1. set (m := _get_go_maps_from_genome genome_features).
  destruct (raw_loop_returns m _get_feature_set_ids
              (map_to_list (feature_id_feature_info_map m)).*1
              (map_to_list (go_id_go_term_map m)) (∅, []))
    as ([go_raw all_raw] & Hrun & Hbatch & Hdom).
  - intros t lbl Hin%elem_of_map_to_list. apply elem_of_dom.
    unfold m, _get_go_maps_from_genome.
    rewrite <-(labels_dom_foldl empty_maps genome_features)
      by (simpl; by rewrite !dom_empty_L).
    apply elem_of_dom. by exists lbl.
  - apply NoDup_fst_map_to_list.
  - intros t _. apply lookup_empty.
  - apply batch_empty.
  - rewrite Hrun. cbn [mbind outcome_bind].
    cbn [fst snd] in Hbatch, Hdom.
    destruct (equal_raw_values_domain (go_id_go_term_map m) go_raw all_raw
                Hbatch) as (em & Hem & Hdomem).
    exists em. split; [done|]. rewrite Hdomem, Hdom.
    rewrite dom_empty_L, (left_id_L ∅ (∪)).
    apply set_eq. intros t.
    rewrite elem_of_list_to_set, elem_of_dom, list_elem_of_fmap. split.
    + intros ([t' lbl] & -> & Hin%elem_of_map_to_list). by exists lbl.
    + intros [lbl Hlbl]. exists (t, lbl). split; [done|].
      by apply elem_of_map_to_list.
Qed.

End whole_run.

(** ** Worked examples of the specification *)

Section worked_examples.
Import Genome GenomeExamples Fisher Stats Enrichment EnrichmentSpec.

(** The synthetic genome: five features in the universe, and the
    term→feature map {"GO:0001": [F1, F3], "GO:9999": [F2]}. *)
Example synthetic_genome_index :
  let m := _get_go_maps_from_genome synthetic_genome in
  size (feature_id_feature_info_map m) = 5
  ∧ map_to_list (go_id_feature_id_list_map m)
    ≡ₚ [ ("GO:0001"%string, [Some "F1"%string; Some "F3"%string]);
         ("GO:9999"%string, [Some "F2"%string]) ].
Proof.
  split; [by vm_compute|].
  vm_compute. apply perm_swap.
Qed.

(** With the feature set {F1, F3, F5} the table of "GO:0001" is
    a = 2, b = 1, c = 0, d = 2. *)
Example synthetic_genome_table :
  contingency [Some "F1"%string; Some "F3"%string]
              ["F1"%string; "F3"%string; "F5"%string]
              [Some "F1"%string; Some "F2"%string; Some "F3"%string;
               Some "F4"%string; Some "F5"%string]
  = {| a := 2; b := 1; c := 0; d := 2 |}.
Proof. by vm_compute. Qed.

(** Feeding the corrector [0.01, 0.01, 0.5] gives [0.015, 0.015, 0.5]. *)
Example tied_raw_adjusted :
  this <$> p_adjust tied_raw = [3 # 200; 3 # 200; 1 # 2]%Q.
Proof. by vm_compute. Qed.

(** The lower tail of the table (3, 1, 1, 3) is 69/70, its upper tail
    17/70. *)
Example left_and_right_tail :
  this (left_tail (pvalue 3 1 1 3)) = (69 # 70)%Q
  ∧ this (right_tail (pvalue 3 1 1 3)) = (17 # 70)%Q.
Proof. by vm_compute. Qed.

(** A term without any overlap with the feature set: the table is
    (0, 5, 1, 0) and the whole run reports 1/6 for it. *)
Example run_fe1_without_overlap :
  match run_fe1 unrelated_term with
  | Returned em =>
      (λ e, (this (raw_p_value e), this (adjusted_p_value e)))
        <$> em !! "GO:0003700"%string
  | Raised _ => None
  end = Some (1 # 6, 1 # 6)%Q.
Proof. by vm_compute. Qed.

End worked_examples.

(** * Further properties of the code *)

Section index_function.
Import Genome GenomeSpec IndexSpec.

Lemma NoDup_go_ids_of gf : NoDup (go_ids_of gf).
Proof.
  unfold go_ids_of. destruct (ontology_terms gf) as [ot|]; [|constructor].
  apply NoDup_filter, NoDup_fst_map_to_list.
Qed.

Lemma elem_of_go_ids_of t gf : t ∈ go_ids_of gf ↔ annotates t gf.
Proof.
  unfold go_ids_of, annotates, label_of.
  destruct (ontology_terms gf) as [ot|]; simpl.
  - rewrite list_elem_of_filter, list_elem_of_fmap. split.
    + intros [Hm ([k v] & -> & Hin%elem_of_map_to_list)]. split; [done|].
      by exists v.
    + intros [Hm [v Hv]]. split; [done|]. exists (t, v). split; [done|].
      by apply elem_of_map_to_list.
  - split; [by intros ?%elem_of_nil|]. by intros [_ [? ?]].
Qed.

Lemma go_ids_of_nil_iff gf : go_ids_of gf = [] ↔ ∀ t, ¬ annotates t gf.
Proof.
  split.
  - intros Hnil t Ht%elem_of_go_ids_of. rewrite Hnil in Ht.
    by apply elem_of_nil in Ht.
  - intros Hnone. destruct (go_ids_of gf) as [|t l] eqn:Hg; [done|].
    destruct (Hnone t). apply elem_of_go_ids_of. rewrite Hg. by left.
Qed.

(** The loop over [go_id_list] appends the identifier once to the list of
    every term of a duplicate-free [go_id_list], and touches nothing else. *)
Lemma add_feature_foldl_lookup fid m gl t :
  NoDup gl →
  foldl (add_feature fid) m gl !! t
  = if decide (t ∈ gl) then Some (default [] (m !! t) ++ [fid]) else m !! t.
Proof.
  revert m. induction gl as [|g gl IH]; intros m Hnd.
  - cbn [foldl]. case_decide as Hin; [by apply elem_of_nil in Hin|done].
  - apply NoDup_cons in Hnd as [Hg Hnd]. cbn [foldl]. rewrite IH by done.
    destruct (decide (t = g)) as [->|Hne].
    + rewrite (decide_False (P := g ∈ gl)) by done.
      rewrite decide_True by (by left).
      unfold add_feature. destruct (m !! g) as [fs|] eqn:Hm;
        by rewrite lookup_insert_eq.
    + assert (add_feature fid m g !! t = m !! t) as ->.
      { unfold add_feature. destruct (m !! g); by rewrite lookup_insert_ne. }
      destruct (decide (t ∈ gl)) as [Hin|Hnin].
      * rewrite decide_True; [done|by right].
      * rewrite decide_False; [done|]. by intros [?|?]%elem_of_cons.
Qed.

Lemma term_features_step st gf t :
  default [] (go_id_feature_id_list_map (index_feature st gf) !! t)
  = default [] (go_id_feature_id_list_map st !! t)
    ++ (if decide (annotates t gf) then [feature_id gf] else []).
Proof.
  rewrite index_feature_term_features,
    add_feature_foldl_lookup by apply NoDup_go_ids_of.
  destruct (decide (t ∈ go_ids_of gf)) as [Hin|Hnin].
  - rewrite decide_True; [done|by apply elem_of_go_ids_of].
  - rewrite decide_False; [by rewrite app_nil_r|].
    by rewrite <-elem_of_go_ids_of.
Qed.

Lemma term_features_foldl st gfs t :
  default [] (go_id_feature_id_list_map (foldl index_feature st gfs) !! t)
  = default [] (go_id_feature_id_list_map st !! t)
    ++ (feature_id <$> filter (annotates t) gfs).
Proof.
  revert st. induction gfs as [|gf gfs IH]; intros st.
  - by rewrite app_nil_r.
  - cbn [foldl]. rewrite IH, term_features_step, filter_cons, <-app_assoc.
    by destruct (decide (annotates t gf)).
Qed.

Lemma term_features_nonempty_foldl st gfs :
  (∀ t l, go_id_feature_id_list_map st !! t = Some l → l ≠ []) →
  ∀ t l,
    go_id_feature_id_list_map (foldl index_feature st gfs) !! t = Some l →
    l ≠ [].
Proof.
  revert st. induction gfs as [|gf gfs IH]; intros st Hst; [done|].
  cbn [foldl]. apply IH. rewrite index_feature_term_features.
  by apply add_feature_nonempty.
Qed.

Lemma term_features_lookup gfs t :
  go_id_feature_id_list_map (_get_go_maps_from_genome gfs) !! t
  = nonempty (feature_id <$> filter (annotates t) gfs).
Proof.
  pose proof (term_features_foldl empty_maps gfs t) as Hl.
  assert (∀ t l, go_id_feature_id_list_map (_get_go_maps_from_genome gfs) !! t
                 = Some l → l ≠ []) as Hne.
  { apply term_features_nonempty_foldl. intros t' l'.
    cbn [empty_maps go_id_feature_id_list_map]. by rewrite lookup_empty. }
  fold (_get_go_maps_from_genome gfs) in Hl.
  cbn [empty_maps go_id_feature_id_list_map] in Hl.
  rewrite lookup_empty in Hl. cbn [default app] in Hl. rewrite <-Hl.
  destruct (go_id_feature_id_list_map (_get_go_maps_from_genome gfs) !! t)
    as [l|] eqn:Hlook; [|done].
  cbn [default]. destruct l as [|f l]; [|done].
  destruct (Hne t [] Hlook eq_refl).
Qed.

(** One record: [feature_id_go_id_list_map] is overwritten when the record
    carries a GO term, and left alone otherwise. *)
Lemma feature_terms_step st gf f :
  feature_id_go_id_list_map (index_feature st gf) !! f
  = if decide (feature_id gf = f ∧ go_ids_of gf ≠ [])
    then Some (go_ids_of gf)
    else feature_id_go_id_list_map st !! f.
Proof.
  rewrite index_feature_features.
  destruct (go_ids_of gf) as [|g gl] eqn:Hg.
  - rewrite decide_False; [done|]. by intros [_ ?].
  - destruct (decide (feature_id gf = f)) as [<-|Hne].
    + rewrite lookup_insert_eq. by rewrite decide_True.
    + rewrite lookup_insert_ne by done. rewrite decide_False; [done|].
      by intros [? _].
Qed.

Lemma info_step st gf f :
  feature_id_feature_info_map (index_feature st gf) !! f
  = if decide (feature_id gf = f) then Some (info_of gf)
    else feature_id_feature_info_map st !! f.
Proof.
  assert (feature_id_feature_info_map (index_feature st gf)
          = <[feature_id gf := info_of gf]> (feature_id_feature_info_map st))
    as ->.
  { unfold index_feature.
    destruct (match ontology_terms gf with Some _ => _ | None => _ end)
      as [terms ids].
    by destruct ids. }
  destruct (decide (feature_id gf = f)) as [<-|Hne].
  - by rewrite lookup_insert_eq.
  - by rewrite lookup_insert_ne.
Qed.

(** The inner loop keeps, for a matching identifier, the label of the
    record, and the label it had otherwise. *)
Lemma collect_go_lookup acc items t :
  NoDup items.*1 →
  (foldl collect_go acc items).1 !! t
  = if re_match_go t
    then (list_to_map items ∪ acc.1 : gmap string string) !! t
    else acc.1 !! t.
Proof.
  revert acc. induction items as [|[k v] items IH]; intros acc Hnd.
  - simpl. rewrite (left_id_L ∅ (∪)). by destruct (re_match_go t).
  - rewrite fmap_cons in Hnd. apply NoDup_cons in Hnd as [Hk Hnd].
    cbn [foldl]. rewrite IH by done.
    destruct (re_match_go t) eqn:Ht.
    + cbn [list_to_map foldr uncurry]. unfold collect_go.
      destruct (re_match_go k) eqn:Hmk; cbn [fst].
      * rewrite <-insert_union_l, <-insert_union_r; [done|].
        by apply not_elem_of_list_to_map_1.
      * assert (t ≠ k) as Hne by (intros ->; congruence).
        rewrite <-insert_union_l. by rewrite lookup_insert_ne.
    + unfold collect_go. destruct (re_match_go k) eqn:Hmk; cbn [fst]; [|done].
      assert (t ≠ k) as Hne by (intros ->; congruence).
      by rewrite lookup_insert_ne.
Qed.

Lemma labels_step st gf t :
  go_id_go_term_map (index_feature st gf) !! t
  = if decide (annotates t gf) then label_of t gf
    else go_id_go_term_map st !! t.
Proof.
  assert (go_id_go_term_map (index_feature st gf)
          = match ontology_terms gf with
            | Some ot =>
                (foldl collect_go (go_id_go_term_map st, []) (map_to_list ot)).1
            | None => go_id_go_term_map st
            end) as ->.
  { unfold index_feature. destruct (ontology_terms gf) as [ot|].
    - destruct (foldl collect_go _ _) as [terms ids]. by destruct ids.
    - done. }
  destruct (decide (annotates t gf)) as [[Hm [v Hv]]|Hno].
  - unfold label_of in Hv |- *.
    destruct (ontology_terms gf) as [ot|]; [|done]. simpl in Hv |- *.
    rewrite collect_go_lookup by apply NoDup_fst_map_to_list.
    rewrite Hm, list_to_map_to_list, Hv. cbn [fst].
    by apply lookup_union_Some_l.
  - destruct (ontology_terms gf) as [ot|] eqn:Hot; [|done].
    rewrite collect_go_lookup by apply NoDup_fst_map_to_list.
    destruct (re_match_go t) eqn:Hm; [|done].
    rewrite list_to_map_to_list. cbn [fst]. apply lookup_union_r.
    destruct (ot !! t) as [v|] eqn:Hv; [|done].
    destruct Hno. split; [done|]. unfold label_of. rewrite Hot. simpl.
    by rewrite Hv.
Qed.

(** A dictionary that every record either overwrites at a key or leaves
    alone holds, at the end, what the last overwriting record wrote. *)
Lemma last_write_foldl {K V} `{Countable K}
    (proj : go_maps → gmap K V) (writes : genome_feature → Prop)
    `{!∀ gf, Decision (writes gf)} (value : genome_feature → option V) k :
  (∀ st gf, proj (index_feature st gf) !! k
            = if decide (writes gf) then value gf else proj st !! k) →
  ∀ st gfs,
    proj (foldl index_feature st gfs) !! k
    = match last (filter writes gfs) with
      | Some gf => value gf
      | None => proj st !! k
      end.
Proof.
  intros Hstep st gfs. induction gfs as [|gf gfs IH] using rev_ind; [done|].
  rewrite foldl_app. cbn [foldl]. rewrite Hstep, filter_app, filter_cons.
  destruct (decide (writes gf)).
  - by rewrite filter_nil, last_snoc.
  - by rewrite filter_nil, app_nil_r.
Qed.

Lemma feature_terms_lookup gfs f :
  feature_id_go_id_list_map (_get_go_maps_from_genome gfs) !! f
  = go_ids_of
      <$> last (filter (λ gf, feature_id gf = f ∧ go_ids_of gf ≠ []) gfs).
Proof.
  unfold _get_go_maps_from_genome.
  rewrite (last_write_foldl feature_id_go_id_list_map
             (λ gf, feature_id gf = f ∧ go_ids_of gf ≠ [])
             (λ gf, Some (go_ids_of gf)) f).
  - by destruct (last _).
  - intros st gf. apply feature_terms_step.
Qed.

End index_function.

Section index_function_theorems.
Import Genome GenomeSpec IndexSpec.

(** X1: for every input, the entry of a term in [go_id_feature_id_list_map]
    lists the identifiers of the records that carry the term, in the order
    of the input and with repetitions; a term that no record carries has
    no entry. *)
Theorem term_features_in_input_order (gfs : list genome_feature) (t : string) :
  go_id_feature_id_list_map (_get_go_maps_from_genome gfs) !! t
  = nonempty (feature_id <$> filter (annotates t) gfs).
Proof. apply term_features_lookup. Qed.

(** X2: for every input, the entry of a feature identifier in
    [feature_id_go_id_list_map] is the GO list of the last record with
    that identifier that carries a GO term: a later record replaces the
    list of an earlier one, a later record without GO terms does not. *)
Theorem feature_terms_of_last_annotated_record
    (gfs : list genome_feature) (f : option string) :
  feature_id_go_id_list_map (_get_go_maps_from_genome gfs) !! f
  = go_ids_of
      <$> last (filter (λ gf, feature_id gf = f ∧ go_ids_of gf ≠ []) gfs).
Proof. apply feature_terms_lookup. Qed.

(** X3: for every input, [feature_id_feature_info_map] holds for a feature
    identifier the function and type of the last record with that
    identifier, and nothing for an identifier no record has. *)
Theorem info_of_last_record (gfs : list genome_feature) (f : option string) :
  feature_id_feature_info_map (_get_go_maps_from_genome gfs) !! f
  = info_of <$> last (filter (λ gf, feature_id gf = f) gfs).
Proof.
  unfold _get_go_maps_from_genome.
  rewrite (last_write_foldl feature_id_feature_info_map
             (λ gf, feature_id gf = f) (λ gf, Some (info_of gf)) f).
  - by destruct (last _).
  - intros st gf. apply info_step.
Qed.

(** X4: for every input, the label of a term in [go_id_go_term_map] is the
    one given by the last record that carries the term. *)
Theorem label_of_last_annotating_record
    (gfs : list genome_feature) (t : string) :
  go_id_go_term_map (_get_go_maps_from_genome gfs) !! t
  = last (filter (annotates t) gfs) ≫= label_of t.
Proof.
  unfold _get_go_maps_from_genome.
  rewrite (last_write_foldl go_id_go_term_map (annotates t) (label_of t) t).
  - by destruct (last _).
  - intros st gf. apply labels_step.
Qed.

(** X5: without any assumption on the records, every (feature, term) pair
    of the feature→term map is a pair of the term→feature map; every
    feature of a term's list is in the universe and every such term has a
    label; the label map and the term→feature map have the same keys; and
    no term is kept with an empty feature list. *)
Theorem index_sound_for_every_input (gfs : list genome_feature) :
  let m := _get_go_maps_from_genome gfs in
  (∀ f t, feature_has_term m f t → term_has_feature m t f)
  ∧ (∀ t f, term_has_feature m t f →
       f ∈ dom (feature_id_feature_info_map m)
       ∧ t ∈ dom (go_id_go_term_map m))
  ∧ dom (go_id_go_term_map m) = dom (go_id_feature_id_list_map m)
  ∧ (∀ t l, go_id_feature_id_list_map m !! t = Some l → l ≠ []).
Proof.
  intros m.
  assert (dom (go_id_go_term_map m) = dom (go_id_feature_id_list_map m))
    as Hdom.
  { apply labels_dom_foldl. simpl. by rewrite !dom_empty_L. }
  split; [|split; [|split; [done|]]].
  - intros f t (l & Hl & Ht). unfold m in Hl.
    rewrite feature_terms_lookup in Hl.
    destruct (last _) as [gf|] eqn:Hlast; [|done].
    injection Hl as <-.
    apply last_Some in Hlast as [l' Hlast].
    assert (gf ∈ filter (λ gf, feature_id gf = f ∧ go_ids_of gf ≠ []) gfs)
      as [[Hf _] Hgf]%list_elem_of_filter.
    { rewrite Hlast. apply elem_of_app. right. by left. }
    exists (feature_id <$> filter (annotates t) gfs).
    assert (f ∈ feature_id <$> filter (annotates t) gfs) as Hin.
    { rewrite <-Hf. apply list_elem_of_fmap_2, list_elem_of_filter.
      split; [by apply elem_of_go_ids_of|done]. }
    split; [|done]. unfold m. rewrite term_features_lookup.
    destruct (feature_id <$> filter (annotates t) gfs); [|done].
    by apply elem_of_nil in Hin.
  - intros t f (l & Hl & Hf). split.
    + unfold m in Hl. rewrite term_features_lookup in Hl.
      assert (l = feature_id <$> filter (annotates t) gfs) as ->.
      { destruct (feature_id <$> filter (annotates t) gfs); [done|].
        by injection Hl as <-. }
      apply list_elem_of_fmap in Hf as (gf & -> & [_ Hgf]%list_elem_of_filter).
      unfold m, _get_go_maps_from_genome. rewrite info_dom_foldl.
      apply elem_of_union. left.
      by apply elem_of_list_to_set, list_elem_of_fmap_2.
    + rewrite Hdom. apply elem_of_dom. by exists l.
  - apply term_features_nonempty_foldl. intros t l.
    cbn [empty_maps go_id_feature_id_list_map]. by rewrite lookup_empty.
Qed.

End index_function_theorems.

Section retention.
Import Genome GenomeSpec IndexSpec.

Lemma has_go_prefix_match t : has_go_prefix t → re_match_go t = true.
Proof.
  intros (p & rest & Hp & ->).
  repeat (apply elem_of_cons in Hp as [->|Hp]; [done|]).
  by apply elem_of_nil in Hp.
Qed.

Lemma elem_of_term_features_dom gfs t :
  t ∈ dom (go_id_feature_id_list_map (_get_go_maps_from_genome gfs))
  ↔ ∃ gf, gf ∈ gfs ∧ annotates t gf.
Proof.
  rewrite elem_of_dom, term_features_lookup. split.
  - intros [l Hl].
    destruct (filter (annotates t) gfs) as [|gf l'] eqn:Hfilter; [done|].
    assert (gf ∈ filter (annotates t) gfs) as [? ?]%list_elem_of_filter
      by (rewrite Hfilter; by left).
    by exists gf.
  - intros (gf & Hgf & Ht).
    assert (gf ∈ filter (annotates t) gfs) as Hin
      by (by apply list_elem_of_filter).
    destruct (filter (annotates t) gfs); [by apply elem_of_nil in Hin|].
    by eexists.
Qed.

(** X6: a term identifier is retained in the index exactly when it starts
    with "GO:" (either case of the letters) and is a key of the
    [ontology_terms] of some record. *)
Theorem retained_iff_prefixed_key (gfs : list genome_feature) (t : string) :
  retained (_get_go_maps_from_genome gfs) t
  ↔ has_go_prefix t
    ∧ ∃ gf ot, gf ∈ gfs ∧ ontology_terms gf = Some ot ∧ is_Some (ot !! t).
Proof.
  set (m := _get_go_maps_from_genome gfs).
  pose proof (elem_of_term_features_dom gfs t) as Hdom. fold m in Hdom.
  assert ((∃ gf, gf ∈ gfs ∧ annotates t gf)
          ↔ has_go_prefix t
            ∧ ∃ gf ot, gf ∈ gfs ∧ ontology_terms gf = Some ot
                       ∧ is_Some (ot !! t)) as <-.
  { unfold annotates, label_of. split.
    - intros (gf & Hgf & Hm & Hlbl). split; [by apply re_match_go_prefix|].
      destruct (ontology_terms gf) as [ot|] eqn:Hot; [|by destruct Hlbl].
      by exists gf, ot.
    - intros (Hp & gf & ot & Hgf & Hot & Hlbl). exists gf.
      split; [done|]. split; [by apply has_go_prefix_match|].
      by rewrite Hot. }
  rewrite <-Hdom. unfold retained. fold m.
  assert (dom (go_id_go_term_map m) = dom (go_id_feature_id_list_map m))
    as ->.
  { apply labels_dom_foldl. simpl. by rewrite !dom_empty_L. }
  split; [|by left].
  intros [?|[?|[f (l & Hl & Ht)]]]; [done..|].
  unfold m in Hl. rewrite feature_terms_lookup in Hl.
  destruct (last _) as [gf|] eqn:Hlast; [|done]. injection Hl as <-.
  apply last_Some_elem_of in Hlast.
  apply list_elem_of_filter in Hlast as [_ Hgf].
  apply Hdom. exists gf. split; [done|]. by apply elem_of_go_ids_of.
Qed.

End retention.

Section contingency_bounds.
Import Fisher Enrichment.

Lemma size_list_to_set_le (l : list (option string)) :
  size (list_to_set l : gset (option string)) ≤ length l.
Proof.
  induction l as [|x l IH].
  - done.
  - rewrite list_to_set_cons, size_union_alt, size_singleton. cbn [length].
    pose proof (subseteq_size
                  ((list_to_set l : gset (option string)) ∖ {[x]})
                  (list_to_set l) ltac:(set_solver)).
    lia.
Qed.

(** X7: whatever the three lists, the cells [a], [b] and [c] of the table
    are never negative and [a] exceeds neither the size of the feature set
    nor the length of the term's feature list; the cell [d] is negative
    exactly when the universe lists fewer identifiers than the feature set
    and the features outside it that carry the term take together. *)
Theorem contingency_cells_bounded (mapped_features : list (option string))
    (feature_set_ids : list string) (feature_ids : list (option string)) :
  let t := contingency mapped_features feature_set_ids feature_ids in
  (0 ≤ a t ∧ a t ≤ Z.of_nat (length feature_set_ids)
   ∧ a t ≤ Z.of_nat (length mapped_features)
   ∧ 0 ≤ b t ∧ 0 ≤ c t
   ∧ (d t < 0 ↔ Z.of_nat (length feature_ids)
                 < Z.of_nat (length feature_set_ids) + c t))%Z.
Proof.
  intros t. subst t. cbn [contingency a b c d].
  set (M := list_to_set mapped_features : gset (option string)).
  set (S := list_to_set (Some <$> feature_set_ids) : gset (option string)).
  pose proof (subseteq_size (M ∩ S) M ltac:(set_solver)) as HaM.
  pose proof (subseteq_size (M ∩ S) S ltac:(set_solver)) as HaS.
  pose proof (size_list_to_set_le mapped_features) as HM.
  pose proof (size_list_to_set_le (Some <$> feature_set_ids)) as HS.
  rewrite length_fmap in HS. fold M in HM. fold S in HS.
  repeat split; lia.
Qed.

End contingency_bounds.

Section contingency_facts.
Import Fisher Enrichment RunExamples.

Lemma size_intersection_difference (X Y : gset (option string)) :
  size X = size (X ∩ Y) + size (X ∖ Y).
Proof.
  rewrite <-size_union by set_solver. f_equal.
  apply set_eq. intros x. destruct (decide (x ∈ Y)); set_solver.
Qed.

Lemma contingency_cells (mapped_features : list (option string))
    (feature_set_ids : list string) (feature_ids : list (option string)) :
  NoDup mapped_features → NoDup feature_set_ids → NoDup feature_ids →
  mapped_features ⊆ feature_ids →
  (Some <$> feature_set_ids) ⊆ feature_ids →
  let M : gset (option string) := list_to_set mapped_features in
  let S : gset (option string) := list_to_set (Some <$> feature_set_ids) in
  let U : gset (option string) := list_to_set feature_ids in
  let t := contingency mapped_features feature_set_ids feature_ids in
  a t = Z.of_nat (size (M ∩ S))
  ∧ b t = Z.of_nat (size (S ∖ M))
  ∧ c t = Z.of_nat (size (M ∖ S))
  ∧ d t = Z.of_nat (size (U ∖ (M ∪ S)))
  ∧ valid_table (a t) (b t) (c t) (d t).
Proof.
  intros HM HS HU HMU HSU M S U t.
  assert (NoDup (Some <$> feature_set_ids)) as HS'.
  { by apply (NoDup_fmap_2 Some). }
  assert (length mapped_features = size M) as HlM.
  { unfold M. by rewrite size_list_to_set. }
  assert (length feature_set_ids = size S) as HlS.
  { unfold S. by rewrite size_list_to_set, length_fmap. }
  assert (length feature_ids = size U) as HlU.
  { unfold U. by rewrite size_list_to_set. }
  pose proof (size_intersection_difference M S) as HsM.
  pose proof (size_intersection_difference S M) as HsS.
  assert (S ∩ M = M ∩ S) as HMS by set_solver. rewrite HMS in HsS.
  assert (M ∪ S ⊆ U) as Hsub.
  { unfold M, S, U. intros x.
    rewrite elem_of_union, !elem_of_list_to_set. intros [?|?]; auto. }
  pose proof (size_difference U (M ∪ S) Hsub) as HsU.
  pose proof (subseteq_size _ _ Hsub) as Hle.
  assert (size (M ∪ S) = size M + size (S ∖ M)) as HsMS
    by apply size_union_alt.
  assert (a t = Z.of_nat (size (M ∩ S))) as Ha by done.
  assert (b t = Z.of_nat (size (S ∖ M))) as Hb.
  { subst t. cbn [contingency b]. fold M S. lia. }
  assert (c t = Z.of_nat (size (M ∖ S))) as Hc.
  { subst t. cbn [contingency c]. fold M S. lia. }
  assert (d t = Z.of_nat (size (U ∖ (M ∪ S)))) as Hd.
  { subst t. cbn [contingency d]. fold M S. lia. }
  repeat split; try done; rewrite ?Ha, ?Hb, ?Hc, ?Hd; lia.
Qed.

(** X8: when the three lists have no repetition, the feature list of the
    term and the feature set lie in the universe, the four cells of the
    table count the four disjoint regions of the universe: in both, in the
    feature set only, under the term only, in neither; in particular no
    cell is negative. *)
Theorem contingency_regions (mapped_features : list (option string))
    (feature_set_ids : list string) (feature_ids : list (option string)) :
  NoDup mapped_features → NoDup feature_set_ids → NoDup feature_ids →
  mapped_features ⊆ feature_ids →
  (Some <$> feature_set_ids) ⊆ feature_ids →
  let M : gset (option string) := list_to_set mapped_features in
  let S : gset (option string) := list_to_set (Some <$> feature_set_ids) in
  let U : gset (option string) := list_to_set feature_ids in
  let t := contingency mapped_features feature_set_ids feature_ids in
  a t = Z.of_nat (size (M ∩ S))
  ∧ b t = Z.of_nat (size (S ∖ M))
  ∧ c t = Z.of_nat (size (M ∖ S))
  ∧ d t = Z.of_nat (size (U ∖ (M ∪ S)))
  ∧ valid_table (a t) (b t) (c t) (d t).
Proof. apply contingency_cells. Qed.

Lemma contingency_regions_witness :
  NoDup sample_mapped ∧ NoDup sample_feature_set ∧ NoDup sample_universe
  ∧ sample_mapped ⊆ sample_universe
  ∧ (Some <$> sample_feature_set) ⊆ sample_universe
  ∧ let M : gset (option string) := list_to_set sample_mapped in
    let S : gset (option string) :=
      list_to_set (Some <$> sample_feature_set) in
    let U : gset (option string) := list_to_set sample_universe in
    let t := contingency sample_mapped sample_feature_set sample_universe in
    a t = Z.of_nat (size (M ∩ S))
    ∧ b t = Z.of_nat (size (S ∖ M))
    ∧ c t = Z.of_nat (size (M ∖ S))
    ∧ d t = Z.of_nat (size (U ∖ (M ∪ S)))
    ∧ valid_table (a t) (b t) (c t) (d t).
Proof.
  assert (HM : NoDup sample_mapped)
    by (apply (bool_decide_unpack _); vm_compute; exact I).
  assert (HS : NoDup sample_feature_set)
    by (apply (bool_decide_unpack _); vm_compute; exact I).
  assert (HU : NoDup sample_universe)
    by (apply (bool_decide_unpack _); vm_compute; exact I).
  assert (HMU : sample_mapped ⊆ sample_universe)
    by (apply (bool_decide_unpack _); vm_compute; exact I).
  assert (HSU : (Some <$> sample_feature_set) ⊆ sample_universe)
    by (apply (bool_decide_unpack _); vm_compute; exact I).
  split; [exact HM|]. split; [exact HS|]. split; [exact HU|].
  split; [exact HMU|]. split; [exact HSU|].
  apply (contingency_regions sample_mapped sample_feature_set sample_universe
           HM HS HU HMU HSU).
Defined.

End contingency_facts.

Section maximal_overlap.
Import Fisher FisherSpec StatsSpec Enrichment.

Lemma Zsum_split f (k : nat) l :
  (Zsum f l = Zsum f (filter (λ i, (i ≤ k)%nat) l)
              + Zsum f (filter (λ i, (k < i)%nat) l))%Z.
Proof.
  induction l as [|i l IH]; [done|].
  rewrite !filter_cons. repeat case_decide; rewrite ?Zsum_cons; lia.
Qed.

Lemma Zsum_ge_elem f l i :
  (∀ j, j ∈ l → (0 ≤ f j)%Z) → i ∈ l → (f i ≤ Zsum f l)%Z.
Proof.
  induction l as [|j l IH]; intros Hf; [by intros ?%elem_of_nil|].
  pose proof (Hf j ltac:(by left)).
  pose proof (Zsum_nonneg f l (λ j' Hj', Hf j' ltac:(by right))).
  intros [->|Hin]%elem_of_cons; simpl; [lia|].
  pose proof (IH (λ j' Hj', Hf j' ltac:(by right)) Hin). lia.
Qed.

(** The lower tail is the whole mass exactly when no count above the
    observed one is possible. *)
Lemma lower_tail_is_1_iff (a b c d : Z) :
  valid_table a b c d →
  raw_p_value_of {| a := a; b := b; c := c; d := d |} = 1%Qc
  ↔ b = 0%Z ∨ c = 0%Z.
Proof.
  intros Hvalid. unfold raw_p_value_of.
  cbn [Enrichment.a Enrichment.b Enrichment.c Enrichment.d].
  rewrite (left_tail_all_counts a b c d Hvalid).
  destruct (valid_marginals a b c d Hvalid) as (HK & Hn & Ha).
  destruct Hvalid as (Ha0 & Hb0 & Hc0 & Hd0).
  unfold under_representation_probability, point_probability.
  rewrite Qc_sum_hypergeometric.
  rewrite Qcdiv_eq_1 by (by apply Qc_of_Z_choose_ne_0).
  rewrite Z2Qc_inj_iff.
  set (n := drawn a b) in *. set (K := annotated a c) in *.
  set (N := population a b c d) in *. set (k := Z.to_nat a) in *.
  assert (choose N n = Zsum (ways K (N - K) n) (seq 0 (S n))) as ->.
  { rewrite vandermonde. f_equal. lia. }
  rewrite (Zsum_split (ways K (N - K) n) k (seq 0 (S n))).
  set (upper := Zsum _ (filter (λ i, k < i) _)).
  assert (upper = 0%Z ↔ b = 0%Z ∨ c = 0%Z) as <-; [|lia].
  split.
  - intros Hupper.
    destruct (decide (b = 0%Z)) as [|Hb]; [by left|].
    destruct (decide (c = 0%Z)) as [|Hc]; [by right|].
    assert (0 < ways K (N - K) n (S k))%Z as Hpos.
    { unfold ways. apply Z.mul_pos_pos; apply choose_pos.
      - unfold K, k, annotated. lia.
      - unfold N, K, n, k, population, annotated, drawn. lia. }
    assert (ways K (N - K) n (S k) ≤ upper)%Z as Hle.
    { apply Zsum_ge_elem.
      - intros j _. apply ways_nonneg.
      - apply list_elem_of_filter. split; [lia|].
        apply elem_of_seq. unfold n, k, drawn. lia. }
    lia.
  - intros Hbc. apply Zsum_zero.
    intros i [Hi [_ Hin]%elem_of_seq]%list_elem_of_filter.
    destruct Hbc as [-> | ->].
    + unfold n, k, drawn in *. lia.
    + unfold ways. rewrite (choose_gt K i); [lia|].
      unfold K, k, annotated in *. lia.
Qed.

(** X9: for a table of non-negative counts the raw value is 1 exactly when
    the overlap is as large as the margins allow: every feature of the
    feature set carries the term ([b = 0]) or every feature that carries
    the term is in the feature set ([c = 0]). *)
Theorem raw_p_value_1_iff_maximal_overlap (a b c d : Z) :
  valid_table a b c d →
  raw_p_value_of {| a := a; b := b; c := c; d := d |} = 1%Qc
  ↔ b = 0%Z ∨ c = 0%Z.
Proof. apply lower_tail_is_1_iff. Qed.

Lemma raw_p_value_1_iff_maximal_overlap_witness :
  valid_table 2 1 0 2
  ∧ (raw_p_value_of {| a := 2; b := 1; c := 0; d := 2 |} = 1%Qc
     ↔ 1%Z = 0%Z ∨ 0%Z = 0%Z).
Proof.
  assert (Hvalid : valid_table 2 1 0 2) by (unfold valid_table; lia).
  split; [exact Hvalid|].
  apply (raw_p_value_1_iff_maximal_overlap 2 1 0 2 Hvalid).
Defined.

End maximal_overlap.

Section run_facts.
Import Genome GenomeSpec IndexSpec Fisher Stats StatsSpec.
Import Enrichment EnrichmentSpec RunSpec.
Local Open Scope Qc_scope.

(** The first loop, over the terms in any order: it never raises when
    every term has a feature list, and stores for every term the raw value
    of its table. *)
Lemma raw_loop_values m fs fids items st :
  (∀ t lbl, (t, lbl) ∈ items → is_Some (go_id_feature_id_list_map m !! t)) →
  NoDup items.*1 →
  (∀ t, t ∈ items.*1 → st.1 !! t = None) →
  batch st.1 st.2 →
  ∃ st',
    for_each (raw_step m fs fids) st items = Returned st'
    ∧ batch st'.1 st'.2
    ∧ ∀ t, st'.1 !! t
          = if decide (t ∈ items.*1)
            then (λ mapped, raw_p_value_of (contingency mapped fs fids))
                   <$> go_id_feature_id_list_map m !! t
            else st.1 !! t.
Proof.
  revert st. induction items as [|[t0 lbl] items IH];
    intros st Hmapped Hnd Hfresh Hbatch.
  - exists st. split; [done|]. split; [done|]. intros t.
    case_decide as Hin; [by apply elem_of_nil in Hin|done].
  - rewrite fmap_cons in Hnd, Hfresh. cbn [fst] in Hnd, Hfresh.
    apply NoDup_cons in Hnd as [Hnotin Hnd].
    destruct (Hmapped t0 lbl) as [mapped Hmappedt]; [by left|].
    cbn [for_each]. rewrite (raw_step_mapped _ _ _ _ _ _ mapped Hmappedt).
    set (x := raw_p_value_of _).
    destruct (IH (<[t0 := x]> st.1, st.2 ++ [x])) as (st' & Hrun & Hb & Hval).
    + intros t' lbl' Hin. apply (Hmapped t' lbl'). by right.
    + done.
    + intros t' Hin. cbn [fst]. rewrite lookup_insert_ne.
      * apply Hfresh. by right.
      * intros ->. by apply Hnotin.
    + apply batch_insert; [|done]. apply Hfresh. by left.
    + exists st'. split; [done|]. split; [done|]. intros t.
      rewrite Hval, fmap_cons. cbn [fst].
      destruct (decide (t = t0)) as [->|Hne].
      * rewrite (decide_False (P := t0 ∈ items.*1)) by done.
        rewrite decide_True by (by left).
        by rewrite lookup_insert_eq, Hmappedt.
      * rewrite lookup_insert_ne by done.
        destruct (decide (t ∈ items.*1)) as [Hin|Hnin].
        -- rewrite decide_True; [done|by right].
        -- rewrite decide_False; [done|]. by intros [?|?]%elem_of_cons.
Qed.

Lemma labels_dom gfs :
  dom (go_id_go_term_map (_get_go_maps_from_genome gfs))
  = dom (go_id_feature_id_list_map (_get_go_maps_from_genome gfs)).
Proof. apply labels_dom_foldl. simpl. by rewrite !dom_empty_L. Qed.

(** The first loop of [run_fe1], over the terms of the index in any
    order. *)
Lemma raw_loop_of_index gfs items :
  let m := _get_go_maps_from_genome gfs in
  items ≡ₚ map_to_list (go_id_go_term_map m) →
  ∃ go_raw all_raw,
    for_each (raw_step m _get_feature_set_ids (feature_ids_of m)) (∅, []) items
    = Returned (go_raw, all_raw)
    ∧ batch go_raw all_raw
    ∧ ∀ t, go_raw !! t = raw_p_value_of <$> table_of m t.
Proof.
  intros m Hperm.
  assert (∀ t, t ∈ items.*1 ↔ is_Some (go_id_feature_id_list_map m !! t))
    as Hkeys.
  { intros t. rewrite <-elem_of_dom. unfold m. rewrite <-labels_dom.
    rewrite Hperm, elem_of_dom, list_elem_of_fmap. split.
    - intros ([t' lbl] & -> & Hin%elem_of_map_to_list). by exists lbl.
    - intros [lbl Hlbl]. exists (t, lbl). split; [done|].
      by apply elem_of_map_to_list. }
  destruct (raw_loop_values m _get_feature_set_ids (feature_ids_of m)
              items (∅, [])) as ([go_raw all_raw] & Hrun & Hbatch & Hval).
  - intros t lbl Hin. apply Hkeys, list_elem_of_fmap. by exists (t, lbl).
  - rewrite Hperm. apply NoDup_fst_map_to_list.
  - intros t _. apply lookup_empty.
  - apply batch_empty.
  - exists go_raw, all_raw. split; [done|]. split; [done|].
    intros t. cbn [fst] in Hval. rewrite Hval. unfold table_of.
    rewrite <-option_fmap_compose. case_decide as Hin; [done|].
    rewrite lookup_empty. rewrite Hkeys in Hin.
    apply eq_None_not_Some in Hin. by rewrite Hin.
Qed.

(** [run_fe1] is the second loop run on the batch the first loop leaves. *)
Lemma run_fe1_as_adjust_all gfs :
  let m := _get_go_maps_from_genome gfs in
  ∃ go_raw all_raw,
    run_fe1 gfs = adjust_all (go_id_go_term_map m) go_raw all_raw
    ∧ batch go_raw all_raw
    ∧ ∀ t, go_raw !! t = raw_p_value_of <$> table_of m t.
Proof.
  intros m.
  destruct (raw_loop_of_index gfs (map_to_list (go_id_go_term_map m)))
    as (go_raw & all_raw & Hrun & Hbatch & Hval); [done|].
  exists go_raw, all_raw. split; [|done].
  unfold run_fe1. unfold m, feature_ids_of in Hrun. by rewrite Hrun.
Qed.

(** What [run_fe1] returns, in terms of the index. *)
Lemma run_fe1_result gfs :
  let m := _get_go_maps_from_genome gfs in
  ∃ go_raw all_raw em,
    run_fe1 gfs = Returned em
    ∧ batch go_raw all_raw
    ∧ (∀ t, go_raw !! t = raw_p_value_of <$> table_of m t)
    ∧ ∀ t e, em !! t = Some e ↔
        ∃ x a, go_raw !! t = Some x ∧ looked_up all_raw x = Some a
               ∧ e = {| raw_p_value := x; adjusted_p_value := a;
                        go_term := go_id_go_term_map m !! t |}.
Proof.
  intros m.
  destruct (run_fe1_as_adjust_all gfs)
    as (go_raw & all_raw & Hrun & Hbatch & Hval).
  destruct (adjust_all_returns (go_id_go_term_map m) go_raw all_raw Hbatch)
    as (em & Hadj & Hem).
  exists go_raw, all_raw, em. split; [|done]. by rewrite Hrun.
Qed.

Lemma table_of_is_Some gfs t :
  let m := _get_go_maps_from_genome gfs in
  is_Some (table_of m t) ↔ is_Some (go_id_go_term_map m !! t).
Proof.
  intros m. unfold table_of. rewrite fmap_is_Some, <-!elem_of_dom.
  unfold m. by rewrite labels_dom.
Qed.

End run_facts.

Section run_theorems.
Import Genome GenomeSpec IndexSpec GenomeExamples Fisher Stats StatsSpec.
Import Enrichment EnrichmentSpec RunSpec.
Local Open Scope Qc_scope.

(** X10: for every genome the core of [run_fe1] returns; the result has one
    record per term of the index; the record of a term carries the label
    of the term (never [None]), the lower tail of the term's table as raw
    value and, as adjusted value, the one [p.adjust] returned at the first
    position of [all_raw_p_value] that holds that raw value. *)
Theorem run_fe1_records (genome_features : list genome_feature) :
  let m := _get_go_maps_from_genome genome_features in
  ∃ em all_raw_p_value,
    run_fe1 genome_features = Returned em
    ∧ dom em = dom (go_id_go_term_map m)
    ∧ batch (raw_p_value <$> em) all_raw_p_value
    ∧ ∀ t e, em !! t = Some e →
        is_Some (go_term e)
        ∧ go_term e = go_id_go_term_map m !! t
        ∧ Some (raw_p_value e) = raw_p_value_of <$> table_of m t
        ∧ ∃ pos,
            first_occurrence (raw_p_value e) all_raw_p_value pos
            ∧ p_adjust all_raw_p_value !! pos = Some (adjusted_p_value e).
Proof.
  intros m.
  destruct (run_fe1_result genome_features)
    as (go_raw & all_raw & em & Hrun & Hbatch & Hval & Hem). fold m in Hval, Hem.
  assert (raw_p_value <$> em = go_raw) as Hraw.
  { apply map_eq. intros t. rewrite lookup_fmap.
    destruct (em !! t) as [e|] eqn:He.
    - apply Hem in He as (x & a & Hx & _ & ->). by rewrite Hx.
    - destruct (go_raw !! t) as [x|] eqn:Hx; [|done].
      destruct (looked_up_elem_of all_raw x) as [a Ha].
      { by eapply batch_elem_of. }
      assert (em !! t = Some {| raw_p_value := x; adjusted_p_value := a;
                                go_term := go_id_go_term_map m !! t |}) as He'.
      { apply Hem. by exists x, a. }
      by rewrite He in He'. }
  exists em, all_raw. split; [done|]. split; [|split].
  - apply set_eq. intros t.
    rewrite <-(dom_fmap_L raw_p_value em), Hraw, !elem_of_dom, Hval.
    rewrite fmap_is_Some. apply table_of_is_Some.
  - by rewrite Hraw.
  - intros t e (x & a & Hx & Ha & ->)%Hem. cbn.
    split; [|split; [done|split]].
    + apply table_of_is_Some. apply (fmap_is_Some raw_p_value_of).
      rewrite <-Hval. by eexists.
    + by rewrite <-Hval.
    + by apply looked_up_first_occurrence.
Qed.

End run_theorems.

Section p_adjust_bounds.
Import Stats StatsSpec.
Local Open Scope Qc_scope.

Lemma p_adjust_lookup_raw p j aj :
  p_adjust p !! j = Some aj → is_Some (p !! j).
Proof.
  intros Haj%lookup_lt_Some. rewrite length_p_adjust in Haj.
  by apply lookup_lt_is_Some.
Qed.

Lemma p_adjust_le_1 p j aj :
  Forall probability p → p_adjust p !! j = Some aj → aj ≤ 1.
Proof.
  intros Hp Haj. destruct (p_adjust_lookup_raw p j aj Haj) as [x Hx].
  destruct (decide (length p ≤ 1)%nat) as [Hn|Hn].
  - rewrite p_adjust_small, Hx in Haj by done. injection Haj as <-.
    rewrite Forall_forall in Hp. by apply Hp, (list_elem_of_lookup_2 _ j).
  - destruct (p_adjust_lookup p j x) as (s & Hs & Heq); [lia|done|].
    rewrite Heq, adjusted_decreasing_lookup in Haj.
    destruct (cummin _ !! s) as [cs|]; [|done]. injection Haj as <-.
    apply Qc_min_le_l.
Qed.

(** The adjusted value never exceeds the raw value times the number of
    tests. *)
Lemma p_adjust_le_bonferroni p j x aj :
  Forall probability p →
  p !! j = Some x → p_adjust p !! j = Some aj →
  aj ≤ Qc_of_nat (length p) * x.
Proof.
  intros Hp Hx Haj. apply lookup_lt_Some in Hx as Hj.
  assert (0 ≤ x) as Hx0.
  { rewrite Forall_forall in Hp. by apply Hp, (list_elem_of_lookup_2 _ j). }
  destruct (decide (length p ≤ 1)%nat) as [Hn|Hn].
  - rewrite p_adjust_small, Hx in Haj by done. injection Haj as <-.
    replace (length p) with 1%nat by lia.
    rewrite Qc_of_nat_1, Qcmult_1_l. done.
  - destruct (p_adjust_lookup p j x) as (s & Hs & Heq); [lia|done|].
    rewrite Heq, adjusted_decreasing_lookup in Haj.
    destruct (cummin _ !! s) as [cs|] eqn:Hcs; [|done]. injection Haj as <-.
    etrans; [apply Qc_min_le_r|].
    apply cummin_lookup in Hcs as [Hlb _].
    apply lookup_lt_Some in Hs as Hslt.
    etrans; [apply (Hlb s); [done|]; by rewrite weighted_lookup, Hs|].
    rewrite length_decreasing in *.
    apply Qcmult_le_mono_nonneg_r; [done|].
    etrans; [apply (Qcdiv_le_mono_denominator _ 1)|].
    + apply Qc_of_nat_nonneg.
    + done.
    + rewrite <-Qc_of_nat_1. apply Qc_of_nat_le. lia.
    + by rewrite (right_id _ Qcdiv).
Qed.

Lemma cummin_lookup_0 l : cummin l !! 0%nat = l !! 0%nat.
Proof. by destruct l. Qed.

(** The largest raw value of the batch is left as it is. *)
Lemma p_adjust_maximum p j x aj :
  Forall probability p →
  p !! j = Some x → (∀ y, y ∈ p → y ≤ x) →
  p_adjust p !! j = Some aj → aj = x.
Proof.
  intros Hp Hx Hmax Haj. apply lookup_lt_Some in Hx as Hj.
  destruct (decide (length p ≤ 1)%nat) as [Hn|Hn].
  - rewrite p_adjust_small, Hx in Haj by done. by injection Haj as <-.
  - destruct (p_adjust_lookup p j x) as (s & Hs & Heq); [lia|done|].
    rewrite Heq in Haj. set (L := decreasing p) in *.
    assert (length L = length p) as HL by apply length_decreasing.
    assert (is_Some (L !! 0%nat)) as [x0 H0].
    { apply lookup_lt_is_Some. lia. }
    assert (x0 = x) as ->.
    { apply (anti_symm Qcle).
      - apply Hmax. rewrite <-(decreasing_Permutation p).
        by apply (list_elem_of_lookup_2 _ 0%nat).
      - apply (decreasing_lookup_le L (decreasing_Sorted p) 0 s); [lia|done..]. }
    assert (adjusted_decreasing L !! 0%nat = Some x) as Hv0.
    { rewrite adjusted_decreasing_lookup, cummin_lookup_0, weighted_lookup, H0.
      simpl. f_equal. rewrite Nat.sub_0_r.
      replace (Qc_of_nat (length L) / Qc_of_nat (length L) * x) with x.
      - apply Qc_min_r. rewrite Forall_forall in Hp.
        by apply Hp, (list_elem_of_lookup_2 _ j).
      - field. apply not_symmetry, Qclt_not_eq, Qc_of_nat_pos. lia. }
    by apply (adjusted_decreasing_same L (decreasing_Sorted p)
                (probability_nonneg p Hp) s 0%nat x).
Qed.

(** The adjusted value of a raw value depends on the values of the batch
    only, not on their order. *)
Lemma p_adjust_Permutation p p' j j' x :
  Forall probability p → p ≡ₚ p' →
  p !! j = Some x → p' !! j' = Some x →
  p_adjust p !! j = p_adjust p' !! j'.
Proof.
  intros Hp Hperm Hj Hj'.
  assert (Forall probability p') as Hp' by (by rewrite <-Hperm).
  set (A := merge_sort Qcle p).
  assert (A ≡ₚ p) as HA by apply merge_sort_Permutation.
  assert (Sorted Qcle A) as HsA by (apply Sorted_merge_sort; apply _).
  assert (x ∈ A) as [k Hk]%list_elem_of_lookup_1.
  { rewrite HA. by eapply list_elem_of_lookup_2. }
  rewrite (p_adjust_bh p A k j x), (p_adjust_bh p' A k j' x); try done.
  by rewrite HA.
Qed.

End p_adjust_bounds.

Section well_formed_genome.
Import Genome GenomeSpec IndexSpec Fisher Stats StatsSpec.
Import Enrichment EnrichmentSpec RunSpec.
Local Open Scope Qc_scope.

Lemma elem_of_feature_ids_of gfs f :
  f ∈ feature_ids_of (_get_go_maps_from_genome gfs) ↔ f ∈ feature_id <$> gfs.
Proof.
  assert (f ∈ feature_ids_of (_get_go_maps_from_genome gfs)
          ↔ f ∈ dom (feature_id_feature_info_map (_get_go_maps_from_genome gfs)))
    as ->.
  { unfold feature_ids_of. rewrite elem_of_dom, list_elem_of_fmap. split.
    - intros ([k v] & -> & Hin%elem_of_map_to_list). by exists v.
    - intros [v Hv]. exists (f, v). split; [done|].
      by apply elem_of_map_to_list. }
  unfold _get_go_maps_from_genome. rewrite info_dom_foldl. simpl.
  by rewrite dom_empty_L, (right_id_L ∅ (∪)), elem_of_list_to_set.
Qed.

Lemma NoDup_feature_set_ids : NoDup _get_feature_set_ids.
Proof. apply (bool_decide_unpack _). vm_compute. exact I. Qed.

(** On a well-formed genome the feature list of a term has no repetition
    and, like the feature set, lies in the universe. *)
Lemma well_formed_mapped gfs t mapped :
  well_formed gfs →
  go_id_feature_id_list_map (_get_go_maps_from_genome gfs) !! t = Some mapped →
  NoDup mapped
  ∧ mapped ⊆ feature_ids_of (_get_go_maps_from_genome gfs)
  ∧ (Some <$> _get_feature_set_ids)
      ⊆ feature_ids_of (_get_go_maps_from_genome gfs).
Proof.
  intros [Hnd Hfs]. rewrite term_features_lookup. intros Hmapped.
  assert (mapped = feature_id <$> filter (annotates t) gfs) as ->.
  { destruct (feature_id <$> filter (annotates t) gfs); [done|].
    by injection Hmapped as <-. }
  split; [|split].
  - apply (sublist_NoDup _ (feature_id <$> gfs)); [done|].
    apply fmap_sublist, sublist_filter.
  - intros f (gf & -> & [_ Hgf]%list_elem_of_filter)%list_elem_of_fmap.
    apply elem_of_feature_ids_of. by apply list_elem_of_fmap_2.
  - intros f Hf. apply elem_of_feature_ids_of. by apply Hfs.
Qed.

(** On a well-formed genome every table has non-negative cells. *)
Lemma well_formed_table gfs t tb :
  well_formed gfs →
  table_of (_get_go_maps_from_genome gfs) t = Some tb →
  valid_table (a tb) (b tb) (c tb) (d tb).
Proof.
  intros Hwf. unfold table_of.
  destruct (go_id_feature_id_list_map _ !! t) as [mapped|] eqn:Hmapped;
    [|done].
  simpl. intros [= <-].
  destruct (well_formed_mapped gfs t mapped Hwf Hmapped) as (HM & HMU & HSU).
  apply contingency_cells; try done.
  - apply NoDup_feature_set_ids.
  - apply NoDup_fst_map_to_list.
Qed.

Lemma well_formed_raw_probabilities gfs go_raw all_raw :
  well_formed gfs →
  batch go_raw all_raw →
  (∀ t, go_raw !! t
        = raw_p_value_of <$> table_of (_get_go_maps_from_genome gfs) t) →
  Forall probability all_raw.
Proof.
  intros Hwf Hbatch Hval. apply Forall_forall. intros x Hx.
  unfold batch in Hbatch. rewrite Hbatch in Hx.
  apply list_elem_of_fmap in Hx as ([t x'] & -> & Hin%elem_of_map_to_list).
  rewrite Hval in Hin. simpl.
  destruct (table_of _ t) as [tb|] eqn:Htb; [|done].
  injection Hin as <-. destruct tb as [a b c d].
  apply raw_p_value_probability.
  exact (well_formed_table gfs t _ Hwf Htb).
Qed.

(** The second loop over the terms in any order, for the raw values in any
    order: the result is the one of [adjust_all]. *)
Lemma adjust_loop_Permutation terms go_raw all_raw all_raw' items :
  batch go_raw all_raw → Forall probability all_raw →
  all_raw' ≡ₚ all_raw → items ≡ₚ map_to_list go_raw →
  for_each (adjust_step terms all_raw' (p_adjust all_raw')) ∅ items
  = adjust_all terms go_raw all_raw.
Proof.
  intros Hbatch Hp Hperm Hitems.
  destruct (adjust_all_returns terms go_raw all_raw Hbatch)
    as (em & Hrun & Hem).
  destruct (adjust_loop_returns terms all_raw' items ∅)
    as (em' & Hrun' & Hem').
  { rewrite Hitems. apply NoDup_fst_map_to_list. }
  { intros t x. rewrite Hitems, Hperm. intros Htx%elem_of_map_to_list.
    by eapply batch_elem_of. }
  rewrite Hrun, Hrun'. f_equal. apply map_eq. intros t. apply option_eq.
  intros e. rewrite Hem, Hem'.
  assert (∀ x, x ∈ all_raw → looked_up all_raw' x = looked_up all_raw x)
    as Hsame.
  { intros x Hx.
    destruct (looked_up_elem_of all_raw x Hx) as [v Hv].
    destruct (looked_up_elem_of all_raw' x) as [v' Hv']; [by rewrite Hperm|].
    rewrite Hv, Hv'.
    apply looked_up_first_occurrence in Hv as (pos & [Hpos _] & Hadj).
    apply looked_up_first_occurrence in Hv' as (pos' & [Hpos' _] & Hadj').
    rewrite <-Hadj, <-Hadj'. symmetry.
    by apply (p_adjust_Permutation all_raw all_raw' pos pos' x). }
  split.
  - intros [(x & v & Htx & Hv & ->)|[_ He]]; [|by rewrite lookup_empty in He].
    rewrite Hitems in Htx. apply elem_of_map_to_list in Htx.
    exists x, v. split; [done|]. split; [|done].
    rewrite <-Hsame; [done|]. by eapply batch_elem_of.
  - intros (x & v & Htx & Hv & ->). left. exists x, v.
    split; [by rewrite Hitems; apply elem_of_map_to_list|]. split; [|done].
    rewrite Hsame; [done|]. by eapply batch_elem_of.
Qed.

End well_formed_genome.

Section table_theorems.
Import Genome GenomeSpec IndexSpec GenomeExamples Fisher.
Import Enrichment RunSpec RunExamples TableExamples.

Lemma length_size_list_to_set_NoDup (l : list (option string)) :
  length l = size (list_to_set l : gset (option string)) ↔ NoDup l.
Proof.
  split; [|intros Hnd; by rewrite size_list_to_set].
  induction l as [|x l IH]; [constructor|].
  rewrite list_to_set_cons. cbn [length]. intros Hlen.
  pose proof (size_list_to_set_le l) as Hle.
  destruct (decide (x ∈ l)) as [Hin|Hnotin].
  - assert ({[x]} ∪ list_to_set l = (list_to_set l : gset (option string)))
      as Heq by set_solver.
    rewrite Heq in Hlen. lia.
  - rewrite size_union, size_singleton in Hlen by set_solver.
    constructor; [done|]. apply IH. lia.
Qed.

Lemma length_feature_ids_of (m : go_maps) :
  length (feature_ids_of m) = size (dom (feature_id_feature_info_map m)).
Proof.
  unfold feature_ids_of. by rewrite length_fmap, length_map_to_list, size_dom.
Qed.

(** C4, as amended: every term of the index has a table; with [F_t] the set
    of the features the index lists for the term, [S] the feature set of
    [n] identifiers and [N] the number of identifiers of the universe, the
    table has [a = |F_t ∩ S|], [b = n - a], [d = N - n - c], hence
    [a + b + c + d = N] and [a + b = n]; [c] is the number of records that
    carry the term minus [a], which is [|F_t| - a] exactly when no
    identifier is repeated among these records, in particular when the
    identifiers of the records are pairwise distinct. *)
Theorem table_counts_annotated_features
    (genome_features : list genome_feature) (t : string)
    (F_t : gset (option string)) :
  let m := _get_go_maps_from_genome genome_features in
  let S : gset (option string) := list_to_set (Some <$> _get_feature_set_ids) in
  let n := Z.of_nat (size S) in
  let N := Z.of_nat (size (dom (feature_id_feature_info_map m))) in
  let carrying := filter (annotates t) genome_features in
  is_Some (go_id_go_term_map m !! t) →
  (∀ f, f ∈ F_t ↔ term_has_feature m t f) →
  ∃ tb,
    table_of m t = Some tb
    ∧ (a tb = Z.of_nat (size (F_t ∩ S))
       ∧ b tb = n - a tb
       ∧ d tb = N - n - c tb
       ∧ a tb + b tb + c tb + d tb = N
       ∧ a tb + b tb = n
       ∧ c tb = Z.of_nat (length carrying) - a tb
       ∧ (c tb = Z.of_nat (size F_t) - a tb
          ↔ NoDup (feature_id <$> carrying))
       ∧ (NoDup (feature_id <$> genome_features) →
          c tb = Z.of_nat (size F_t) - a tb))%Z.
Proof.
  intros m S n N carrying Hterm HF.
  apply (table_of_is_Some genome_features t) in Hterm as [tb Htb].
  exists tb. split; [done|].
  unfold table_of in Htb. fold m in Htb.
  destruct (go_id_feature_id_list_map m !! t) as [mapped|] eqn:Hmapped;
    [|done].
  injection Htb as <-.
  assert (mapped = feature_id <$> carrying) as Hcarrying.
  { unfold m in Hmapped. rewrite term_features_lookup in Hmapped.
    unfold carrying.
    destruct (feature_id <$> filter (annotates t) genome_features); [done|].
    by injection Hmapped as <-. }
  assert (F_t = list_to_set mapped) as ->.
  { apply set_eq. intros f. rewrite HF, elem_of_list_to_set.
    unfold term_has_feature. rewrite Hmapped. split.
    - by intros (l & [= <-] & ?).
    - intros ?. by exists mapped. }
  assert (Z.of_nat (length _get_feature_set_ids) = n) as Hn.
  { unfold n, S. rewrite size_list_to_set, length_fmap; [done|].
    apply (NoDup_fmap_2 Some), NoDup_feature_set_ids. }
  assert (Z.of_nat (length (feature_ids_of m)) = N) as HN.
  { unfold N. by rewrite length_feature_ids_of. }
  assert (length mapped = length carrying) as Hlen.
  { by rewrite Hcarrying, length_fmap. }
  pose proof (size_list_to_set_le mapped) as Hle.
  pose proof (subseteq_size
                ((list_to_set mapped : gset (option string)) ∩ S)
                (list_to_set mapped) (intersection_subseteq_l _ _)) as Hale.
  cbn [contingency a b c d]. fold S. rewrite Hn, HN, Hlen.
  split; [done|]. split; [done|]. split; [done|]. split; [lia|].
  split; [lia|]. split; [done|].
  assert ((Z.of_nat (length carrying)
           - Z.of_nat (size ((list_to_set mapped : gset (option string)) ∩ S))
           = Z.of_nat (size (list_to_set mapped : gset (option string)))
             - Z.of_nat (size ((list_to_set mapped : gset (option string)) ∩ S)))%Z
          ↔ NoDup (feature_id <$> carrying)) as Hiff.
  { rewrite <-Hcarrying, <-length_size_list_to_set_NoDup. lia. }
  split; [done|]. intros Hnd. apply (proj2 Hiff).
  apply (sublist_NoDup _ (feature_id <$> genome_features)); [done|].
  unfold carrying. apply fmap_sublist, sublist_filter.
Qed.

Lemma sample_nucleus_term :
  is_Some (go_id_go_term_map (_get_go_maps_from_genome sample_genome)
             !! "GO:0005634"%string).
Proof. exists "nucleus"%string. vm_compute. reflexivity. Qed.

Lemma sample_nucleus_features_listed f :
  f ∈ sample_nucleus_features
  ↔ term_has_feature (_get_go_maps_from_genome sample_genome)
                     "GO:0005634"%string f.
Proof.
  assert (go_id_feature_id_list_map (_get_go_maps_from_genome sample_genome)
            !! "GO:0005634"%string
          = Some [Some "AT1G01010"%string; Some "AT1G01020"%string;
                  Some "AT1G01040"%string]) as Hmapped
    by (vm_compute; reflexivity).
  unfold term_has_feature, sample_nucleus_features. rewrite Hmapped.
  clear Hmapped. rewrite !elem_of_union, !elem_of_singleton. split.
  - intros Hf. eexists. split; [reflexivity|].
    rewrite !elem_of_cons. tauto.
  - intros (l & Hl & Hin). injection Hl as <-.
    rewrite !elem_of_cons in Hin.
    destruct Hin as [?|[?|[?|Hin]]]; [tauto..|].
    destruct (proj1 (elem_of_nil _) Hin).
Qed.

Lemma table_counts_annotated_features_witness :
  is_Some (go_id_go_term_map (_get_go_maps_from_genome sample_genome)
             !! "GO:0005634"%string)
  ∧ (∀ f, f ∈ sample_nucleus_features
          ↔ term_has_feature (_get_go_maps_from_genome sample_genome)
                             "GO:0005634"%string f)
  ∧ ∃ tb,
      table_of (_get_go_maps_from_genome sample_genome) "GO:0005634"%string
      = Some tb
      ∧ (a tb = Z.of_nat (size (sample_nucleus_features
                                ∩ list_to_set (Some <$> _get_feature_set_ids)))
         ∧ b tb = Z.of_nat (size (list_to_set (Some <$> _get_feature_set_ids)
                                  : gset (option string))) - a tb
         ∧ d tb = Z.of_nat (size (dom (feature_id_feature_info_map
                                        (_get_go_maps_from_genome
                                           sample_genome))))
                  - Z.of_nat (size (list_to_set
                                      (Some <$> _get_feature_set_ids)
                                    : gset (option string)))
                  - c tb
         ∧ a tb + b tb + c tb + d tb
           = Z.of_nat (size (dom (feature_id_feature_info_map
                                    (_get_go_maps_from_genome sample_genome))))
         ∧ a tb + b tb
           = Z.of_nat (size (list_to_set (Some <$> _get_feature_set_ids)
                             : gset (option string)))
         ∧ c tb = Z.of_nat (length (filter (annotates "GO:0005634"%string)
                                           sample_genome)) - a tb
         ∧ (c tb = Z.of_nat (size sample_nucleus_features) - a tb
            ↔ NoDup (feature_id <$> filter (annotates "GO:0005634"%string)
                                           sample_genome))
         ∧ (NoDup (feature_id <$> sample_genome) →
            c tb = Z.of_nat (size sample_nucleus_features) - a tb))%Z.
Proof.
  split; [exact sample_nucleus_term|].
  split; [exact sample_nucleus_features_listed|].
  apply (table_counts_annotated_features sample_genome "GO:0005634"%string
           sample_nucleus_features sample_nucleus_term
           sample_nucleus_features_listed).
Defined.

(** C4 as stated fails: when two records with the identifier F1 carry
    "GO:0001", the index lists F1 twice for the term and the table is
    (0, 5, 2, -6), while [|F_t| - a] is 1. *)
Lemma repeated_annotation_counted_twice :
  ¬ ∀ (t : string) (tb : table) (F_t : gset (option string)),
      table_of (_get_go_maps_from_genome repeated_annotation) t = Some tb →
      (∀ f, f ∈ F_t
            ↔ term_has_feature (_get_go_maps_from_genome repeated_annotation)
                               t f) →
      (a tb = Z.of_nat (size (F_t ∩ list_to_set
                                      (Some <$> _get_feature_set_ids)))
       ∧ b tb = Z.of_nat (length _get_feature_set_ids) - a tb
       ∧ c tb = Z.of_nat (size F_t) - a tb
       ∧ d tb = Z.of_nat (size (dom (feature_id_feature_info_map
                                       (_get_go_maps_from_genome
                                          repeated_annotation))))
                - Z.of_nat (length _get_feature_set_ids) - c tb)%Z.
Proof.
  intros Hclaim.
  assert (go_id_feature_id_list_map
            (_get_go_maps_from_genome repeated_annotation) !! "GO:0001"%string
          = Some [Some "F1"%string; Some "F1"%string]) as Hmapped
    by (vm_compute; reflexivity).
  destruct (Hclaim "GO:0001"%string {| a := 0; b := 5; c := 2; d := -6 |}
              {[Some "F1"%string]}) as (_ & _ & Hc & _).
  - vm_compute. reflexivity.
  - intros f. unfold term_has_feature. rewrite Hmapped, elem_of_singleton.
    split.
    + intros ->. eexists. split; [done|]. by left.
    + intros (l & [= <-] & Hin).
      apply elem_of_cons in Hin as [->|Hin]; [reflexivity|].
      apply elem_of_cons in Hin as [->|Hin]; [reflexivity|].
      destruct (proj1 (elem_of_nil _) Hin).
  - clear Hmapped. rewrite size_singleton in Hc. cbn [a c] in Hc. lia.
Qed.

End table_theorems.

Section well_formed_theorems.
Import Genome GenomeSpec IndexSpec GenomeExamples Fisher Stats StatsSpec.
Import Enrichment EnrichmentSpec RunSpec RunExamples.
Local Open Scope Qc_scope.

Lemma well_formed_sample_genome : well_formed sample_genome.
Proof. split; apply (bool_decide_unpack _); vm_compute; exact I. Qed.

(** X11: when the records carry pairwise distinct identifiers and the genome
    has the five features of the feature set, the run returns and, for
    every term, the cells of the table are non-negative, the raw and the
    adjusted value are probabilities, and the adjusted value is at least
    the raw one; a term with a smaller or equal raw value never has a
    larger adjusted value. *)
Theorem well_formed_run_gives_probabilities
    (genome_features : list genome_feature) :
  let m := _get_go_maps_from_genome genome_features in
  well_formed genome_features →
  ∃ em,
    run_fe1 genome_features = Returned em
    ∧ (∀ t e, em !! t = Some e →
         (∃ tb, table_of m t = Some tb
                ∧ valid_table (a tb) (b tb) (c tb) (d tb))
         ∧ probability (raw_p_value e)
         ∧ probability (adjusted_p_value e)
         ∧ raw_p_value e ≤ adjusted_p_value e)
    ∧ (∀ t1 e1 t2 e2, em !! t1 = Some e1 → em !! t2 = Some e2 →
         raw_p_value e1 ≤ raw_p_value e2 →
         adjusted_p_value e1 ≤ adjusted_p_value e2).
Proof.
  intros m Hwf.
  destruct (run_fe1_result genome_features)
    as (go_raw & all_raw & em & Hrun & Hbatch & Hval & Hem).
  fold m in Hval, Hem.
  pose proof (well_formed_raw_probabilities genome_features go_raw all_raw
                Hwf Hbatch Hval) as Hp.
  assert (∀ t e, em !! t = Some e →
            ∃ pos, all_raw !! pos = Some (raw_p_value e)
                   ∧ p_adjust all_raw !! pos = Some (adjusted_p_value e))
    as Hpos.
  { intros t e (x & v & _ & Hv & ->)%Hem. simpl.
    apply looked_up_first_occurrence in Hv as (pos & [Hx _] & Hadj).
    by exists pos. }
  exists em. split; [done|]. split.
  - intros t e He. destruct (Hpos t e He) as (pos & Hx & Hadj).
    assert (probability (raw_p_value e)) as Hraw.
    { rewrite Forall_forall in Hp. by apply Hp, (list_elem_of_lookup_2 _ pos). }
    pose proof (p_adjust_ge_raw all_raw pos _ _ Hp Hx Hadj) as Hge.
    split; [|split; [done|split; [|done]]].
    + apply Hem in He as (x & v & Htx & _ & _). rewrite Hval in Htx.
      destruct (table_of m t) as [tb|] eqn:Htb; [|done].
      exists tb. split; [done|].
      exact (well_formed_table genome_features t tb Hwf Htb).
    + split.
      * by etrans; [apply Hraw|].
      * by apply (p_adjust_le_1 all_raw pos).
  - intros t1 e1 t2 e2 He1 He2 Hle.
    destruct (Hpos t1 e1 He1) as (pos1 & Hx1 & Hadj1).
    destruct (Hpos t2 e2 He2) as (pos2 & Hx2 & Hadj2).
    by apply (p_adjust_mono all_raw pos1 pos2
                (raw_p_value e1) (raw_p_value e2)).
Qed.

Lemma well_formed_run_gives_probabilities_witness :
  well_formed sample_genome
  ∧ ∃ em,
      run_fe1 sample_genome = Returned em
      ∧ (∀ t e, em !! t = Some e →
           (∃ tb, table_of (_get_go_maps_from_genome sample_genome) t
                  = Some tb
                  ∧ valid_table (a tb) (b tb) (c tb) (d tb))
           ∧ probability (raw_p_value e)
           ∧ probability (adjusted_p_value e)
           ∧ raw_p_value e ≤ adjusted_p_value e)
      ∧ (∀ t1 e1 t2 e2, em !! t1 = Some e1 → em !! t2 = Some e2 →
           raw_p_value e1 ≤ raw_p_value e2 →
           adjusted_p_value e1 ≤ adjusted_p_value e2).
Proof.
  split; [exact well_formed_sample_genome|].
  apply (well_formed_run_gives_probabilities sample_genome
           well_formed_sample_genome).
Defined.

(** X12: when the records carry pairwise distinct identifiers and the genome
    has the five features of the feature set, the result does not depend
    on the order in which the two loops visit the dictionaries: whatever
    the order of the terms in the first loop (hence of [all_raw_p_value])
    and in the second loop, the map built is the one [run_fe1] returns. *)
Theorem run_fe1_independent_of_iteration_order
    (genome_features : list genome_feature) (items1 : list (string * string)) :
  let m := _get_go_maps_from_genome genome_features in
  well_formed genome_features →
  items1 ≡ₚ map_to_list (go_id_go_term_map m) →
  ∃ go_raw_p_value all_raw_p_value,
    for_each (raw_step m _get_feature_set_ids (feature_ids_of m)) (∅, [])
             items1
    = Returned (go_raw_p_value, all_raw_p_value)
    ∧ ∀ items2, items2 ≡ₚ map_to_list go_raw_p_value →
        for_each (adjust_step (go_id_go_term_map m) all_raw_p_value
                    (p_adjust all_raw_p_value)) ∅ items2
        = run_fe1 genome_features.
Proof.
  intros m Hwf Hitems.
  destruct (raw_loop_of_index genome_features items1 Hitems)
    as (go_raw & all_raw & Hloop & Hbatch & Hval).
  destruct (run_fe1_as_adjust_all genome_features)
    as (go_raw0 & all_raw0 & Hrun & Hbatch0 & Hval0).
  fold m in Hloop, Hval, Hrun, Hval0.
  assert (go_raw = go_raw0) as ->.
  { apply map_eq. intros t. by rewrite Hval, Hval0. }
  exists go_raw0, all_raw. split; [done|]. intros items2 Hitems2.
  rewrite Hrun. apply adjust_loop_Permutation; [done| | |done].
  - by apply (well_formed_raw_probabilities genome_features go_raw0).
  - unfold batch in Hbatch, Hbatch0. by rewrite Hbatch, Hbatch0.
Qed.

Lemma run_fe1_independent_of_iteration_order_witness :
  well_formed sample_genome
  ∧ map_to_list (go_id_go_term_map (_get_go_maps_from_genome sample_genome))
    ≡ₚ map_to_list (go_id_go_term_map (_get_go_maps_from_genome sample_genome))
  ∧ ∃ go_raw_p_value all_raw_p_value,
      for_each (raw_step (_get_go_maps_from_genome sample_genome)
                  _get_feature_set_ids
                  (feature_ids_of (_get_go_maps_from_genome sample_genome)))
               (∅, [])
               (map_to_list
                  (go_id_go_term_map (_get_go_maps_from_genome sample_genome)))
      = Returned (go_raw_p_value, all_raw_p_value)
      ∧ ∀ items2, items2 ≡ₚ map_to_list go_raw_p_value →
          for_each (adjust_step
                      (go_id_go_term_map
                         (_get_go_maps_from_genome sample_genome))
                      all_raw_p_value (p_adjust all_raw_p_value)) ∅ items2
          = run_fe1 sample_genome.
Proof.
  split; [exact well_formed_sample_genome|]. split; [reflexivity|].
  apply (run_fe1_independent_of_iteration_order sample_genome _
           well_formed_sample_genome (reflexivity _)).
Defined.

(** X13: on a batch of probabilities, every adjusted value is a probability
    that exceeds neither 1 nor the raw value times the number of terms,
    and a term whose raw value is the largest of the batch keeps it. *)
Theorem adjusted_values_bounded
    (terms : gmap string string) (go_raw_p_value : gmap string Qc)
    (all_raw_p_value : list Qc) :
  batch go_raw_p_value all_raw_p_value →
  Forall probability all_raw_p_value →
  ∃ em,
    adjust_all terms go_raw_p_value all_raw_p_value = Returned em
    ∧ ∀ t e, em !! t = Some e →
        probability (adjusted_p_value e)
        ∧ adjusted_p_value e ≤ Qc_of_nat (size go_raw_p_value) * raw_p_value e
        ∧ ((∀ t' e', em !! t' = Some e' → raw_p_value e' ≤ raw_p_value e) →
           adjusted_p_value e = raw_p_value e).
Proof.
  intros Hbatch Hp.
  destruct (adjust_all_returns terms go_raw_p_value all_raw_p_value Hbatch)
    as (em & Hrun & Hem).
  exists em. split; [done|]. intros t e He.
  apply Hem in He as He'. destruct He' as (x & v & Htx & Hv & ->). simpl.
  apply looked_up_first_occurrence in Hv as (pos & [Hx _] & Hadj).
  assert (probability x) as Hprob.
  { rewrite Forall_forall in Hp. by apply Hp, (list_elem_of_lookup_2 _ pos). }
  assert (length all_raw_p_value = size go_raw_p_value) as Hlen.
  { unfold batch in Hbatch.
    by rewrite Hbatch, length_fmap, length_map_to_list. }
  split; [split|split].
  - etrans; [apply Hprob|]. by apply (p_adjust_ge_raw all_raw_p_value pos).
  - by apply (p_adjust_le_1 all_raw_p_value pos).
  - rewrite <-Hlen. by apply (p_adjust_le_bonferroni all_raw_p_value pos).
  - intros Hmax. apply (p_adjust_maximum all_raw_p_value pos); [done..| |done].
    intros y Hy. unfold batch in Hbatch. rewrite Hbatch in Hy.
    apply list_elem_of_fmap in Hy as ([t' y'] & -> & Hin%elem_of_map_to_list).
    simpl. destruct (looked_up_elem_of all_raw_p_value y') as [v' Hv'].
    { by eapply batch_elem_of. }
    apply (Hmax t' {| raw_p_value := y'; adjusted_p_value := v';
                      go_term := terms !! t' |}).
    apply Hem. by exists y', v'.
Qed.

Lemma adjusted_values_bounded_witness :
  batch tied_batch tied_raw
  ∧ Forall probability tied_raw
  ∧ ∃ em,
      adjust_all ∅ tied_batch tied_raw = Returned em
      ∧ ∀ t e, em !! t = Some e →
          probability (adjusted_p_value e)
          ∧ adjusted_p_value e ≤ Qc_of_nat (size tied_batch) * raw_p_value e
          ∧ ((∀ t' e', em !! t' = Some e' → raw_p_value e' ≤ raw_p_value e) →
             adjusted_p_value e = raw_p_value e).
Proof.
  split; [exact tied_batch_is_batch|].
  split; [exact tied_raw_probabilities|].
  apply (adjusted_values_bounded ∅ tied_batch tied_raw tied_batch_is_batch
           tied_raw_probabilities).
Defined.

End well_formed_theorems.

Section nested_sets.
Import Genome GenomeSpec IndexSpec Fisher Stats StatsSpec.
Import Enrichment EnrichmentSpec RunSpec RunExamples.
Local Open Scope Qc_scope.

(** X14: when the records carry pairwise distinct identifiers and the
    genome has the five features of the feature set, the raw value of a
    term is 1 exactly when the feature set and the features of the term
    are nested: every feature of the feature set carries the term, or
    every feature that carries the term is in the feature set. *)
Theorem raw_p_value_1_iff_nested (genome_features : list genome_feature) :
  let m := _get_go_maps_from_genome genome_features in
  well_formed genome_features →
  ∃ em,
    run_fe1 genome_features = Returned em
    ∧ ∀ t e, em !! t = Some e →
        (raw_p_value e = 1
         ↔ (∀ s, s ∈ _get_feature_set_ids → term_has_feature m t (Some s))
           ∨ (∀ f, term_has_feature m t f →
                   f ∈ Some <$> _get_feature_set_ids)).
Proof.
  intros m Hwf.
  destruct (run_fe1_result genome_features)
    as (go_raw & all_raw & em & Hrun & Hbatch & Hval & Hem).
  fold m in Hval, Hem.
  exists em. split; [done|].
  intros t e (x & v & Htx & _ & ->)%Hem. cbn [raw_p_value].
  rewrite Hval in Htx. unfold table_of in Htx.
  destruct (go_id_feature_id_list_map m !! t) as [mapped|] eqn:Hmapped;
    [|done].
  injection Htx as <-.
  destruct (well_formed_mapped genome_features t mapped Hwf Hmapped)
    as (HM & HMU & HSU).
  destruct (contingency_cells mapped _get_feature_set_ids
              (feature_ids_of m) HM NoDup_feature_set_ids
              (NoDup_fst_map_to_list _) HMU HSU)
    as (_ & Hb & Hc & _ & Hvalid).
  destruct (contingency _ _ _) as [a b c d]. cbn in Hb, Hc, Hvalid.
  rewrite (lower_tail_is_1_iff a b c d Hvalid).
  assert (∀ f, term_has_feature m t f ↔ f ∈ mapped) as Hterm.
  { intros f. unfold term_has_feature. rewrite Hmapped. split.
    - by intros (l & [= <-] & ?).
    - intros ?. by exists mapped. }
  assert (∀ X : gset (option string), Z.of_nat (size X) = 0%Z ↔ X = ∅)
    as Hsize.
  { intros X. rewrite <-(leibniz_equiv_iff X ∅), <-size_empty_iff. lia. }
  rewrite Hb, Hc, !Hsize.
  assert (list_to_set (Some <$> _get_feature_set_ids) ∖ list_to_set mapped
          = (∅ : gset (option string))
          ↔ ∀ s, s ∈ _get_feature_set_ids → term_has_feature m t (Some s))
    as ->.
  { split.
    - intros Hempty s Hs. apply Hterm.
      destruct (decide (Some s ∈ mapped)) as [|Hno]; [done|].
      assert (Some s ∈ (∅ : gset (option string))) as Habs; [|set_solver].
      rewrite <-Hempty. apply elem_of_difference.
      rewrite !elem_of_list_to_set. split; [|done].
      by apply list_elem_of_fmap_2.
    - intros Hall. apply set_eq. intros f.
      rewrite elem_of_difference, !elem_of_list_to_set.
      split; [|set_solver]. intros [(s & -> & Hs)%list_elem_of_fmap Hno].
      destruct Hno. by apply Hterm, Hall. }
  assert (list_to_set mapped ∖ list_to_set (Some <$> _get_feature_set_ids)
          = (∅ : gset (option string))
          ↔ ∀ f, term_has_feature m t f → f ∈ Some <$> _get_feature_set_ids)
    as ->; [|done].
  split.
  - intros Hempty f Hf%Hterm.
    destruct (decide (f ∈ Some <$> _get_feature_set_ids)) as [|Hno];
      [done|].
    assert (f ∈ (∅ : gset (option string))) as Habs; [|set_solver].
    rewrite <-Hempty. apply elem_of_difference.
    by rewrite !elem_of_list_to_set.
  - intros Hall. apply set_eq. intros f.
    rewrite elem_of_difference, !elem_of_list_to_set.
    split; [|set_solver]. intros [Hf Hno]. destruct Hno.
    by apply Hall, Hterm.
Qed.

Lemma raw_p_value_1_iff_nested_witness :
  well_formed sample_genome
  ∧ ∃ em,
      run_fe1 sample_genome = Returned em
      ∧ ∀ t e, em !! t = Some e →
          (raw_p_value e = 1
           ↔ (∀ s, s ∈ _get_feature_set_ids →
                   term_has_feature (_get_go_maps_from_genome sample_genome)
                                    t (Some s))
             ∨ (∀ f, term_has_feature (_get_go_maps_from_genome sample_genome)
                                      t f →
                     f ∈ Some <$> _get_feature_set_ids)).
Proof.
  assert (Hwf : well_formed sample_genome).
  { split; apply (bool_decide_unpack _); vm_compute; exact I. }
  split; [exact Hwf|].
  apply (raw_p_value_1_iff_nested sample_genome Hwf).
Defined.

End nested_sets.

Section loop_errors.
Import Genome GenomeSpec IndexSpec Stats StatsSpec.
Import Enrichment EnrichmentSpec RunSpec RunExamples.

Lemma adjust_step_missing terms all_raw adjusted em t x :
  x ∉ all_raw →
  adjust_step terms all_raw adjusted em (t, x) = Raised ValueError.
Proof.
  intros Hx. unfold adjust_step, index.
  destruct (list_find _ all_raw) as [[pos y]|] eqn:Hfind; [|done].
  apply list_find_Some in Hfind as (Hpos & -> & _).
  destruct Hx. by eapply list_elem_of_lookup_2.
Qed.

Lemma adjust_loop_raises terms all_raw items em0 :
  (∃ t x, (t, x) ∈ items ∧ x ∉ all_raw) →
  for_each (adjust_step terms all_raw (p_adjust all_raw)) em0 items
  = Raised ValueError.
Proof.
  revert em0. induction items as [|[t0 x0] items IH];
    intros em0 (t & x & Hin & Hx); [by apply elem_of_nil in Hin|].
  cbn [for_each]. destruct (decide (x0 ∈ all_raw)) as [Hx0|Hx0].
  - destruct (looked_up_elem_of all_raw x0 Hx0) as [a0 Ha0].
    rewrite (adjust_step_looked_up _ _ _ _ _ a0 Ha0).
    cbn [mbind outcome_bind]. apply IH. exists t, x. split; [|done].
    apply elem_of_cons in Hin as [[= -> ->]|Hin]; [done|done].
  - by rewrite adjust_step_missing.
Qed.

(** X15: the second loop, on any dictionary and list of raw values, returns
    exactly when every raw value of the dictionary occurs in
    [all_raw_p_value]; otherwise [list.index] raises [ValueError]; the
    subscript of the adjusted values never raises. *)
Theorem adjust_all_raises_iff_value_missing
    (terms : gmap string string) (go_raw_p_value : gmap string Qc)
    (all_raw_p_value : list Qc) :
  ((∃ em, adjust_all terms go_raw_p_value all_raw_p_value = Returned em)
   ↔ ∀ t x, go_raw_p_value !! t = Some x → x ∈ all_raw_p_value)
  ∧ (adjust_all terms go_raw_p_value all_raw_p_value = Raised ValueError
     ↔ ∃ t x, go_raw_p_value !! t = Some x ∧ x ∉ all_raw_p_value)
  ∧ ∀ e, adjust_all terms go_raw_p_value all_raw_p_value = Raised e →
         e = ValueError.
Proof.
  unfold adjust_all.
  destruct (decide (Forall (λ item, item.2 ∈ all_raw_p_value)
                           (map_to_list go_raw_p_value))) as [Hall|Hno].
  - rewrite Forall_forall in Hall.
    destruct (adjust_loop_returns terms all_raw_p_value
                (map_to_list go_raw_p_value) ∅) as (em & Hrun & _).
    { apply NoDup_fst_map_to_list. }
    { intros t x Htx. by apply (Hall (t, x)). }
    rewrite Hrun. split; [|split; [|done]].
    + split; [|by exists em]. intros _ t x Htx%elem_of_map_to_list.
      by apply (Hall (t, x)).
    + split; [done|]. intros (t & x & Htx%elem_of_map_to_list & Hx).
      destruct Hx. by apply (Hall (t, x)).
  - apply not_Forall_Exists in Hno; [|apply _].
    apply Exists_exists in Hno as ([t x] & Hin & Hx). simpl in Hx.
    rewrite (adjust_loop_raises terms all_raw_p_value _ ∅)
      by (by exists t, x).
    split; [|split; [|by intros e [= <-]]].
    + split; [by intros [? ?]|]. intros Hall. destruct Hx.
      by apply (Hall t), elem_of_map_to_list.
    + split; [|done]. intros _. exists t, x.
      split; [by apply elem_of_map_to_list|done].
Qed.

Lemma raw_loop_raises m fs fids items st :
  (∃ t lbl, (t, lbl) ∈ items ∧ go_id_feature_id_list_map m !! t = None) →
  for_each (raw_step m fs fids) st items = Raised TypeError.
Proof.
  revert st. induction items as [|[t0 lbl0] items IH];
    intros st (t & lbl & Hin & Ht); [by apply elem_of_nil in Hin|].
  cbn [for_each].
  destruct (go_id_feature_id_list_map m !! t0) as [mapped|] eqn:Ht0.
  - rewrite (raw_step_mapped _ _ _ _ _ _ mapped Ht0).
    cbn [mbind outcome_bind]. apply IH. exists t, lbl. split; [|done].
    apply elem_of_cons in Hin as [[= -> ->]|Hin]; [congruence|done].
  - unfold raw_step. by rewrite Ht0.
Qed.

(** X16: the first loop, on any four dictionaries, returns exactly when
    every term of [go_id_go_term_map] has an entry in
    [go_id_feature_id_list_map]; a term without one makes [set(None)]
    raise [TypeError]. *)
Theorem first_loop_raises_iff_term_without_features
    (m : go_maps) (feature_set_ids : list string)
    (feature_ids : list (option string)) :
  let loop :=
    for_each (raw_step m feature_set_ids feature_ids) (∅, [])
             (map_to_list (go_id_go_term_map m)) in
  ((∃ st, loop = Returned st)
   ↔ dom (go_id_go_term_map m) ⊆ dom (go_id_feature_id_list_map m))
  ∧ (loop = Raised TypeError
     ↔ ∃ t, t ∈ dom (go_id_go_term_map m)
            ∧ t ∉ dom (go_id_feature_id_list_map m)).
Proof.
  intros loop. subst loop.
  destruct (decide (Forall (λ item, is_Some (go_id_feature_id_list_map m
                                               !! item.1))
                           (map_to_list (go_id_go_term_map m))))
    as [Hall|Hno].
  - rewrite Forall_forall in Hall.
    assert (dom (go_id_go_term_map m) ⊆ dom (go_id_feature_id_list_map m))
      as Hsub.
    { intros t [lbl Hlbl%elem_of_map_to_list]%elem_of_dom.
      apply elem_of_dom. by apply (Hall (t, lbl)). }
    destruct (raw_loop_values m feature_set_ids feature_ids
                (map_to_list (go_id_go_term_map m)) (∅, []))
      as (st & Hrun & _).
    { intros t lbl Htl. by apply (Hall (t, lbl)). }
    { apply NoDup_fst_map_to_list. }
    { intros t _. apply lookup_empty. }
    { apply batch_empty. }
    rewrite Hrun. split; [split; [done|by exists st]|].
    split; [done|]. intros (t & Ht & Hnot). destruct Hnot. by apply Hsub.
  - apply not_Forall_Exists in Hno; [|apply _].
    apply Exists_exists in Hno as ([t lbl] & Hin & Ht). simpl in Ht.
    apply eq_None_not_Some in Ht.
    assert (t ∈ dom (go_id_go_term_map m)) as Hdom.
    { apply elem_of_dom. exists lbl. by apply elem_of_map_to_list. }
    assert (t ∉ dom (go_id_feature_id_list_map m)) as Hnot
      by (by apply not_elem_of_dom).
    rewrite (raw_loop_raises m feature_set_ids feature_ids _ (∅, []))
      by (by exists t, lbl).
    split.
    + split; [by intros [? ?]|]. intros Hsub. destruct Hnot. by apply Hsub.
    + split; [|done]. intros _. by exists t.
Qed.

(** X17: the run returns the empty result exactly when no record of the
    genome carries a GO term. *)
Theorem run_fe1_empty_iff_no_go_term (genome_features : list genome_feature) :
  ∃ em,
    run_fe1 genome_features = Returned em
    ∧ (em = ∅ ↔ ∀ gf t, gf ∈ genome_features → ¬ annotates t gf).
Proof.
  destruct (run_fe1_returns genome_features) as (em & Hrun & Hdom).
  exists em. split; [done|].
  rewrite <-dom_empty_iff_L, Hdom, labels_dom. split.
  - intros Hempty gf t Hgf Ht.
    assert (t ∈ dom (go_id_feature_id_list_map
                       (_get_go_maps_from_genome genome_features))) as Hin.
    { apply elem_of_term_features_dom. by exists gf. }
    rewrite Hempty in Hin. by apply elem_of_empty in Hin.
  - intros Hnone. apply set_eq. intros t.
    rewrite elem_of_term_features_dom. split; [|by intros ?%elem_of_empty].
    intros (gf & Hgf & Ht). by destruct (Hnone gf t).
Qed.

End loop_errors.

Section text_order.
Import ReportSpec.

Lemma ltb_lt (s1 s2 : string) :
  String.ltb s1 s2 = true ↔ OrderedTypeEx.String_as_OT.lt s1 s2.
Proof.
  rewrite <-OrderedTypeEx.String_as_OT.cmp_lt.
  unfold String.ltb, OrderedTypeEx.String_as_OT.cmp.
  by destruct (String.compare s1 s2).
Qed.

Lemma ltb_false_text_le (s1 s2 : string) :
  String.ltb s1 s2 = false ↔ text_le s2 s1.
Proof.
  unfold text_le, String.ltb, String.leb.
  rewrite (String.compare_antisym s2 s1).
  by destruct (String.compare s1 s2).
Qed.

Lemma ltb_asymm (s1 s2 : string) :
  String.ltb s1 s2 = true → String.ltb s2 s1 = false.
Proof.
  unfold String.ltb. rewrite (String.compare_antisym s2 s1).
  by destruct (String.compare s1 s2).
Qed.

Lemma ltb_trans (s1 s2 s3 : string) :
  String.ltb s1 s2 = true → String.ltb s2 s3 = true → String.ltb s1 s3 = true.
Proof.
  rewrite !ltb_lt. apply OrderedTypeEx.String_as_OT.lt_trans.
Qed.

Lemma ltb_irrefl (s : string) : String.ltb s s = false.
Proof.
  destruct (String.ltb s s) eqn:Hs; [|done].
  by rewrite (ltb_asymm s s Hs) in Hs.
Qed.

Lemma ltb_false_eq_or_lt (s1 s2 : string) :
  String.ltb s1 s2 = false → s1 = s2 ∨ String.ltb s2 s1 = true.
Proof.
  unfold String.ltb. rewrite (String.compare_antisym s2 s1).
  destruct (String.compare s1 s2) eqn:Hc; try done.
  - intros _. left. by apply String.compare_eq_iff.
  - intros _. by right.
Qed.

Global Instance text_le_trans : Transitive text_le.
Proof.
  intros s1 s2 s3. rewrite <-!ltb_false_text_le. intros H21 H32.
  destruct (String.ltb s3 s1) eqn:H31; [|done].
  destruct (ltb_false_eq_or_lt s2 s1 H21) as [->|H12]; [congruence|].
  destruct (ltb_false_eq_or_lt s3 s2 H32) as [->|H23]; [congruence|].
  pose proof (ltb_trans _ _ _ H31 H12) as H32'. congruence.
Qed.

End text_order.

Section stable_sort.
Import Report ReportSpec.
Context {X : Type}.

Local Instance before_trans : Transitive (before (X := X)).
Proof. intros x y z Hxy Hyz. unfold before in *. by etrans. Qed.

Lemma insert_by_key_Permutation (kx : string * X) l :
  insert_by_key kx l ≡ₚ kx :: l.
Proof.
  induction l as [|ky l IH]; [done|]. simpl.
  destruct (String.ltb kx.1 ky.1); [|done].
  rewrite IH. apply perm_swap.
Qed.

Lemma insert_by_key_Sorted (kx : string * X) l :
  Sorted before l → Sorted before (insert_by_key kx l).
Proof.
  induction l as [|ky l IH]; intros Hl; simpl.
  - by repeat constructor.
  - destruct (String.ltb kx.1 ky.1) eqn:Hlt.
    + apply Sorted_inv in Hl as [Hl Hhd]. constructor; [by apply IH|].
      destruct l as [|kz l]; simpl.
      * constructor. by apply ltb_false_text_le, ltb_asymm.
      * destruct (String.ltb kx.1 kz.1).
        -- constructor. by apply HdRel_inv in Hhd.
        -- constructor. by apply ltb_false_text_le, ltb_asymm.
    + constructor; [done|]. constructor. by apply ltb_false_text_le.
Qed.

Lemma insertion_Permutation (keyed : list (string * X)) :
  foldr insert_by_key [] keyed ≡ₚ keyed.
Proof.
  induction keyed as [|kx keyed IH]; [done|]. simpl.
  by rewrite insert_by_key_Permutation, IH.
Qed.

Lemma insertion_StronglySorted (keyed : list (string * X)) :
  StronglySorted before (foldr insert_by_key [] keyed).
Proof.
  apply Sorted_StronglySorted; [apply _|].
  induction keyed as [|kx keyed IH]; simpl; [constructor|].
  by apply insert_by_key_Sorted.
Qed.

(** The sort is stable: elements with the same key keep their order. *)
Lemma insert_by_key_filter (kx : string * X) l k :
  filter (λ ky, ky.1 = k) (insert_by_key kx l)
  = filter (λ ky, ky.1 = k) (kx :: l).
Proof.
  induction l as [|ky l IH]; [done|]. cbn [insert_by_key].
  destruct (String.ltb kx.1 ky.1) eqn:Hlt; [|done].
  rewrite (filter_cons _ ky), IH, !filter_cons.
  destruct (decide (kx.1 = k)) as [Hx|Hx]; [|done].
  destruct (decide (ky.1 = k)) as [Hy|Hy]; [|done].
  rewrite Hx, Hy, ltb_irrefl in Hlt. done.
Qed.

Lemma insertion_stable (keyed : list (string * X)) k :
  filter (λ ky, ky.1 = k) (foldr insert_by_key [] keyed)
  = filter (λ ky, ky.1 = k) keyed.
Proof.
  induction keyed as [|kx keyed IH]; [done|]. cbn [foldr].
  by rewrite insert_by_key_filter, !filter_cons, IH.
Qed.

End stable_sort.

Section sort_naturality.
Import Report ReportSpec.
Context {X Y : Type} (f : X → Y).

Lemma insert_by_key_fmap (k : string) (x : X) l :
  insert_by_key (k, f x) (prod_map id f <$> l)
  = prod_map id f <$> insert_by_key (k, x) l.
Proof.
  induction l as [|[k' y] l IH]; [done|].
  rewrite fmap_cons. cbn [insert_by_key prod_map fst id].
  destruct (String.ltb k k'); [|done]. by rewrite IH.
Qed.

Lemma sort_by_key_reverse_fmap (key : X → string) l :
  sort_by_key_reverse ((λ x, (key x, f x)) <$> l)
  = f <$> sort_by_key_reverse ((λ x, (key x, x)) <$> l).
Proof.
  unfold sort_by_key_reverse.
  assert (foldr insert_by_key [] ((λ x, (key x, f x)) <$> l)
          = prod_map id f <$> foldr insert_by_key [] ((λ x, (key x, x)) <$> l))
    as ->.
  { induction l as [|x l IH]; [done|]. rewrite !fmap_cons. cbn [foldr].
    rewrite IH. apply insert_by_key_fmap. }
  rewrite <-!list_fmap_compose. by apply list_fmap_ext; intros ? [? ?].
Qed.

End sort_naturality.

Section report_facts.
Import Enrichment Report ReportSpec.

Lemma mapM_decorate_Returned data :
  Forall (λ row, is_Some (row !! 3)) data →
  mapM (λ row, key ← itemgetter 3 row; Returned (key, row)) data
  = Returned ((λ row, (rank_text row, row)) <$> data).
Proof.
  induction 1 as [|row data [k Hk] _ IH]; [done|].
  cbn [mapM]. rewrite IH. unfold itemgetter, rank_text. rewrite Hk.
  cbn [mbind outcome_bind mret outcome_ret]. by rewrite fmap_cons, Hk.
Qed.

Lemma mapM_decorate_Raised data :
  ¬ Forall (λ row, is_Some (row !! 3)) data →
  mapM (λ row, key ← itemgetter 3 row; Returned (key, row)) data
  = Raised IndexError.
Proof.
  induction data as [|row data IH]; intros Hno; [by destruct Hno|].
  destruct (row !! 3) as [k|] eqn:Hk.
  - cbn [mapM]. rewrite IH.
    + unfold itemgetter. by rewrite Hk.
    + intros Hall. apply Hno. constructor; [by eexists|done].
  - cbn [mapM]. unfold itemgetter. by rewrite Hk.
Qed.

Lemma is_Some_column_3 (row : list string) :
  is_Some (row !! 3) ↔ 4 ≤ length row.
Proof. rewrite lookup_lt_is_Some. lia. Qed.

Lemma sort_by_key_reverse_Permutation {X} (keyed : list (string * X)) :
  sort_by_key_reverse keyed ≡ₚ keyed.*2.
Proof. unfold sort_by_key_reverse. by rewrite insertion_Permutation. Qed.

Lemma sortedlist_Returned data :
  Forall (λ row, 4 ≤ length row) data →
  ∃ sorted, sortedlist data = Returned sorted ∧ sorted ≡ₚ data.
Proof.
  intros Hall. eexists. split.
  - unfold sortedlist. rewrite mapM_decorate_Returned; [done|].
    eapply Forall_impl; [exact Hall|]. intros row. by rewrite is_Some_column_3.
  - rewrite sort_by_key_reverse_Permutation, <-list_fmap_compose.
    by rewrite list_fmap_id.
Qed.

Lemma sortedlist_Raised data :
  ¬ Forall (λ row, 4 ≤ length row) data → sortedlist data = Raised IndexError.
Proof.
  intros Hno. unfold sortedlist. rewrite mapM_decorate_Raised; [done|].
  intros Hall. apply Hno. eapply Forall_impl; [exact Hall|].
  intros row. by rewrite is_Some_column_3.
Qed.

Lemma format_rows_Returned rows table :
  Forall (λ row, 4 ≤ length row) rows →
  ∃ table',
    for_each (λ table row, cells ← format_row row;
                           Returned (table +:+ cells)%string) table rows
    = Returned table'.
Proof.
  intros Hall. revert table.
  induction Hall as [|row rows Hrow _ IH]; intros table; [by eexists|].
  destruct row as [|c0 [|c1 [|c2 [|c3 row]]]]; simpl in Hrow; try lia.
  cbn [for_each format_row]. apply IH.
Qed.

Lemma enrichment_table_Returned data :
  Forall (λ row, 4 ≤ length row) data →
  ∃ table, enrichment_table data = Returned table.
Proof.
  intros Hall.
  destruct (sortedlist_Returned data Hall) as (sorted & Hsorted & Hperm).
  unfold enrichment_table. rewrite Hsorted. apply format_rows_Returned.
  apply Forall_forall. intros row Hrow%subseteq_take.
  rewrite Hperm in Hrow. rewrite Forall_forall in Hall. by apply Hall.
Qed.

Lemma enrichment_table_Raised data :
  ¬ Forall (λ row, 4 ≤ length row) data →
  enrichment_table data = Raised IndexError.
Proof.
  intros Hno. unfold enrichment_table. by rewrite sortedlist_Raised.
Qed.

Section items.
Context (repr : Qc → string).

Lemma sortedlist_csv (items : list (string * enrichment)) :
  sortedlist (csv_row repr <$> items)
  = Returned
      (csv_row repr
         <$> sort_by_key_reverse
               ((λ item, (repr (adjusted_p_value item.2), item)) <$> items)).
Proof.
  unfold sortedlist. rewrite mapM_decorate_Returned.
  - cbn [mbind outcome_bind]. f_equal.
    rewrite <-(sort_by_key_reverse_fmap (csv_row repr)
                 (λ item, repr (adjusted_p_value item.2))).
    f_equal. rewrite <-list_fmap_compose.
    by apply list_fmap_ext; intros ? [? ?].
  - apply Forall_forall. intros row ([t e] & -> & _)%list_elem_of_fmap.
    by eexists.
Qed.

Lemma format_items (items : list (string * enrichment)) table :
  for_each (λ table row, cells ← format_row row;
                         Returned (table +:+ cells)%string)
           table (csv_row repr <$> items)
  = Returned (foldl (λ table item, (table +:+ html_of_item repr item)%string)
                    table items).
Proof.
  revert table. induction items as [|[t e] items IH]; intros table; [done|].
  rewrite fmap_cons. cbn [for_each csv_row format_row foldl].
  cbn [mbind outcome_bind]. by rewrite IH.
Qed.

Lemma html_report_of_items (enrichment_map : gmap string enrichment) :
  _generate_html_report (_generate_output_file_list repr enrichment_map)
  = inr (foldl (λ table item, (table +:+ html_of_item repr item)%string)
               EmptyString (take 20 (ranked_items repr enrichment_map))).
Proof.
  unfold _generate_html_report, _generate_output_file_list, enrichment_table.
  rewrite sortedlist_csv. cbn [mbind outcome_bind].
  by rewrite <-fmap_take, format_items.
Qed.

Lemma ranked_items_Permutation (enrichment_map : gmap string enrichment) :
  ranked_items repr enrichment_map ≡ₚ map_to_list enrichment_map.
Proof.
  unfold ranked_items.
  rewrite sort_by_key_reverse_Permutation, <-list_fmap_compose.
  by rewrite list_fmap_id.
Qed.

Lemma ranked_items_StronglySorted (enrichment_map : gmap string enrichment) :
  StronglySorted
    (λ item1 item2, text_le (repr (adjusted_p_value item2.2))
                            (repr (adjusted_p_value item1.2)))
    (ranked_items repr enrichment_map).
Proof.
  unfold ranked_items, sort_by_key_reverse.
  set (keyed := (λ item, (repr (adjusted_p_value item.2), item))
                  <$> map_to_list enrichment_map).
  apply (StronglySorted_fmap _
           (λ kx ky : string * (string * enrichment),
              text_le (repr (adjusted_p_value ky.2.2))
                      (repr (adjusted_p_value kx.2.2)))); [done|].
  apply (StronglySorted_impl_elem_of before);
    [|apply insertion_StronglySorted].
  assert (∀ kx, kx ∈ foldr insert_by_key [] keyed
                → kx.1 = repr (adjusted_p_value kx.2.2)) as Hkey.
  { intros kx. rewrite insertion_Permutation. unfold keyed.
    by intros (item & -> & _)%list_elem_of_fmap. }
  intros kx ky Hx%Hkey Hy%Hkey. unfold before. by rewrite Hx, Hy.
Qed.

Lemma ranked_items_stable (enrichment_map : gmap string enrichment) text :
  filter (λ item, repr (adjusted_p_value item.2) = text)
         (ranked_items repr enrichment_map)
  = filter (λ item, repr (adjusted_p_value item.2) = text)
           (map_to_list enrichment_map).
Proof.
  unfold ranked_items, sort_by_key_reverse.
  set (key := λ item : string * enrichment, repr (adjusted_p_value item.2)).
  assert (∀ keyed : list (string * (string * enrichment)),
            Forall (λ kx, kx.1 = key kx.2) keyed →
            filter (λ item, key item = text) keyed.*2
            = (filter (λ kx, kx.1 = text) keyed).*2) as Hfilter.
  { induction 1 as [|kx keyed Hkx _ IH]; [done|].
    rewrite fmap_cons, !filter_cons, IH, <-Hkx.
    by destruct (decide (kx.1 = text)). }
  rewrite Hfilter, insertion_stable, <-Hfilter.
  - rewrite <-list_fmap_compose. by rewrite list_fmap_id.
  - apply Forall_forall. by intros kx (item & -> & _)%list_elem_of_fmap.
  - apply Forall_forall. intros kx. rewrite insertion_Permutation.
    by intros (item & -> & _)%list_elem_of_fmap.
Qed.

End items.

End report_facts.

Section report_theorems.
Import Enrichment Report ReportSpec.

(** X18: the HTML table built from the result file never fails on the file
    [_generate_output_file_list] writes, and holds one row for each of
    at most twenty terms of the result: the terms are ranked by the text of
    their adjusted value in descending byte order (terms with the same
    text in the order of the file), so that no omitted term has a text
    after that of a shown one. *)
Theorem html_report_shows_first_twenty_by_text
    (repr : Qc → string) (enrichment_map : gmap string enrichment) :
  let ranked := ranked_items repr enrichment_map in
  let text item := repr (adjusted_p_value item.2) in
  _generate_html_report (_generate_output_file_list repr enrichment_map)
  = inr (foldl (λ table item, (table +:+ html_of_item repr item)%string)
               EmptyString (take 20 ranked))
  ∧ ranked ≡ₚ map_to_list enrichment_map
  ∧ length (take 20 ranked) = 20 `min` size enrichment_map
  ∧ StronglySorted (λ item1 item2, text_le (text item2) (text item1)) ranked
  ∧ (∀ shown omitted, shown ∈ take 20 ranked → omitted ∈ drop 20 ranked →
       text_le (text omitted) (text shown))
  ∧ (∀ s, filter (λ item, text item = s) ranked
          = filter (λ item, text item = s) (map_to_list enrichment_map)).
Proof.
  intros ranked text.
  pose proof (ranked_items_StronglySorted repr enrichment_map) as Hsorted.
  fold ranked in Hsorted.
  split; [apply html_report_of_items|].
  split; [apply ranked_items_Permutation|]. split; [|split; [done|split]].
  - rewrite length_take. unfold ranked.
    by rewrite ranked_items_Permutation, length_map_to_list.
  - intros shown omitted Hshown Homitted.
    rewrite <-(take_drop 20 ranked) in Hsorted.
    by apply (StronglySorted_app_1_elem_of _ _ _ shown omitted) in Hsorted.
  - intros s. apply ranked_items_stable.
Qed.

(** X19: on any file, the HTML table is built exactly when every row after
    the first has at least four columns; a shorter row anywhere, also one
    that would not be shown, raises [IndexError]; a file without a line
    raises [StopIteration], and a file with its first line only gives the
    empty table. *)
Theorem html_report_needs_four_columns
    (first : list string) (data : list (list string)) :
  _generate_html_report [] = inl StopIteration
  ∧ _generate_html_report [first] = inr EmptyString
  ∧ ((∃ table, _generate_html_report (first :: data) = inr table)
     ↔ Forall (λ row, 4 ≤ length row) data)
  ∧ (_generate_html_report (first :: data) = inl (Exn IndexError)
     ↔ ¬ Forall (λ row, 4 ≤ length row) data).
Proof.
  split; [done|]. split; [done|].
  cbn [_generate_html_report].
  destruct (decide (Forall (λ row, 4 ≤ length row) data)) as [Hall|Hno].
  - destruct (enrichment_table_Returned data Hall) as [table ->].
    split; [split; [done|by eexists]|]. by split.
  - rewrite (enrichment_table_Raised data Hno).
    split; [|by split]. split; [by intros [? ?]|done].
Qed.

End report_theorems.

Section validation_theorems.
Import Params.

(** X20: the validation accepts the parameters exactly when both
    [genome_ref] and [workspace_name] are keys of the dictionary, whatever
    their values and whatever else it holds; otherwise it raises
    [ValueError] with the message of the first missing key, [genome_ref]
    before [workspace_name]. *)
Theorem validation_reports_first_missing_parameter
    {V} (params : gmap string V) :
  (_validate_run_fe1_params params = inr ()
   ↔ is_Some (params !! "genome_ref"%string)
     ∧ is_Some (params !! "workspace_name"%string))
  ∧ (_validate_run_fe1_params params
     = inl (ValueError, missing_message "genome_ref")
     ↔ params !! "genome_ref"%string = None)
  ∧ (_validate_run_fe1_params params
     = inl (ValueError, missing_message "workspace_name")
     ↔ is_Some (params !! "genome_ref"%string)
       ∧ params !! "workspace_name"%string = None).
Proof.
  unfold _validate_run_fe1_params. cbn [require_all].
  destruct (params !! "genome_ref"%string) as [g|];
    destruct (params !! "workspace_name"%string) as [w|].
  - split; [|split]; split; try done; try (by intros [? ?]).
  - split; [|split]; split; try done; try (by intros [_ [? ?]]).
  - split; [|split]; split; try done; try (by intros [[? ?] _]).
  - split; [|split]; split; try done; try (by intros [[? ?] _]).
Qed.

End validation_theorems.
